(** * A shallow embedding of the CUDA path tracer's rendering core

  The development follows [pathtrace.cu]: the seeding helper
  [makeSeededRandomEngine], the predicates [notEquals] and
  [sortByMaterialId], the sampling helpers [squareToDiskConcentric] and
  [cameraToWorld], the kernels [sendImageToPBO], [generateRayFromCamera],
  [computeIntersections], [kernel_sample_f], [shadeFakeMaterial] and
  [finalGather], and the host functions [InitDataContainer],
  [pathtraceInit] and [pathtrace]. [pathtraceFree] and [checkCUDAErrorFn]
  release the device memory and report the errors of the CUDA runtime; the
  memory here is never released and the launches here never fail, so they
  have no counterpart. (The runtime rejects a launch with an empty grid,
  which [pathtrace] makes for an image without pixels; what is said of the
  host loop as a whole is said for images of one pixel at least.)

  Conventions.
  - A C [int] that the code relies on as a 32-bit pattern (the seed) is a
    [Z] with its wrap-around written out ([wrap_int], [to_uint]).
    Thread indices, array sizes and array indices are [nat]; signed
    overflow of index arithmetic is undefined in C++ and left out.
  - A [float] is the rational it denotes ([Q]); infinities and NaN are
    left out. Comparisons and copies are exact. The kernels are written
    with the exact operations of [Q], which stand for the expressions of
    the source: what is proved of them are the values that are tested,
    copied and stored and the expressions that are evaluated, never an
    identity of real arithmetic, since binary32 operations round. Where a
    property depends on the rounding (the accumulation of [finalGather]),
    the operations of [float] are parameters, with an instance that rounds
    to nearest.
  - Device arrays are lists, read with [!!!] and written with [<[_:=_]>].
  - One kernel launch runs its thread body for every thread index of the
    grid in increasing order; every thread writes only its own slot.
  - Functions of thrust, glm and the C math library, and the functions of
    the headers [intersections.h] and [interactions.h], are the fields of
    the class [Externals], and so is the one choice of the compiler that
    the results depend on. *)

From Stdlib Require Import ZArith QArith Qpower Lia Lqa.
From stdpp Require Import base numbers list.

Local Open Scope Z_scope.

(** ** Machine integers *)

(** The value of a 32-bit two's complement [int] holding the low 32 bits
  of [z]. *)
Definition wrap_int (z : Z) : Z := (z + 2 ^ 31) mod 2 ^ 32 - 2 ^ 31.

(** Conversion to [unsigned int]. *)
Definition to_uint (z : Z) : Z := z mod 2 ^ 32.

(** ** Vectors of floats *)

Record vec2 := mkvec2 { v2x : Q; v2y : Q }.
Record vec3 := mkvec3 { vx : Q; vy : Q; vz : Q }.

Module Vec3.
Local Open Scope Q_scope.

Definition zero : vec3 := mkvec3 0 0 0.
Definition splat (a : Q) : vec3 := mkvec3 a a a.
Definition add (a b : vec3) : vec3 := mkvec3 (vx a + vx b) (vy a + vy b) (vz a + vz b).
Definition sub (a b : vec3) : vec3 := mkvec3 (vx a - vx b) (vy a - vy b) (vz a - vz b).
Definition mul (a b : vec3) : vec3 := mkvec3 (vx a * vx b) (vy a * vy b) (vz a * vz b).
Definition div (a b : vec3) : vec3 := mkvec3 (vx a / vx b) (vy a / vy b) (vz a / vz b).
Definition scale (a : vec3) (k : Q) : vec3 := mkvec3 (vx a * k) (vy a * k) (vz a * k).
Definition lscale (k : Q) (a : vec3) : vec3 := mkvec3 (k * vx a) (k * vy a) (k * vz a).
Definition dot (a b : vec3) : Q := vx a * vx b + vy a * vy b + vz a * vz b.

(** [glm::mix(x, y, a)] is [x * (1 - a) + y * a], componentwise. This is
    the expression; what its operations return in binary32 is the subject
    of the section on the accumulator in binary32. *)
Definition mix1 (x y a : Q) : Q := x * (1 - a) + y * a.
Definition mix (x y : vec3) (a : Q) : vec3 :=
  mkvec3 (mix1 (vx x) (vx y) a) (mix1 (vy x) (vy y) a) (mix1 (vz x) (vz y) a).

(** Componentwise equality of the rationals. *)
Definition equiv (a b : vec3) : Prop := vx a == vx b /\ vy a == vy b /\ vz a == vz b.
End Vec3.

(** Boolean comparisons of floats. *)
Definition Qltb (a b : Q) : bool := negb (Qle_bool b a).
Definition Qeqb (a b : Q) : bool := Qeq_bool a b.
Definition Qabs' (a : Q) : Q := if Qle_bool 0 a then a else Qopp a.

(** ** The constants of [utilities.h] *)

Definition PI_OVER_2 : Q := 157079632679489661923 # 100000000000000000000.
Definition PI_OVER_4 : Q := 78539816339744830961 # 100000000000000000000.
Definition EPSILON : Q := 1 # 100000.
Definition GAMMA : Q := 22 # 10.
(** [FLT_MAX] of [<cfloat>]: (2 - 2^-23) * 2^127. *)
Definition FLT_MAX : Q := inject_Z 340282346638528859811704183484516925440.

(** The compile-time switches of [utilities.h] that the code of
  [pathtrace.cu] tests. *)
Record Toggles := mkToggles {
  SORT_BY_MATERIAL : bool;
  STREAM_COMPACT : bool;
  CACHE_FIRST_INTERSECTION : bool;
  ENABLE_HDR_GAMMA_CORRECTION : bool
}.

(** The values the header defines. *)
Definition compiled : Toggles := mkToggles false false false false.

(** ** Scene structures

  Modelled from the spec: [sceneStructs.h] is not part of the sources; the
  records carry the fields that [pathtrace.cu] reads and writes, named as
  the code names them, and the further fields section 3 of the
  specification lists. *)

Record Ray := mkRay { origin : vec3; direction : vec3 }.

Inductive GeomType := CUBE | SPHERE | GLTF_MESH.

Record Geom := mkGeom {
  type : GeomType;
  materialid : nat;
  translation : vec3;
  rotation : vec3;
  scale : vec3;
  triBegin : nat;
  triEnd : nat;
  bvhRoot : nat
}.

Record Triangle := mkTriangle {
  tri_v0 : vec3; tri_v1 : vec3; tri_v2 : vec3;
  tri_n0 : vec3; tri_n1 : vec3; tri_n2 : vec3
}.

Record BVHNode := mkBVHNode {
  aabb_min : vec3; aabb_max : vec3;
  triStart : nat; triCount : nat;
  leftChild : Z; rightChild : Z
}.

Record Material := mkMaterial {
  color : vec3;
  specular_exponent : Q;
  specular_color : vec3;
  hasReflective : bool;
  hasRefractive : bool;
  indexOfRefraction : Q;
  emittance : Q
}.

Record Camera := mkCamera {
  resolution : nat * nat;
  position : vec3;
  view : vec3;
  up : vec3;
  right : vec3;
  pixelLength : vec2;
  apertureSize : Q;
  focalLength : Q
}.

Record PathSegment := mkPathSegment {
  ray : Ray;
  path_color : vec3;
  accum_throughput : vec3;
  pixelIndex : nat;
  remainingBounces : Z
}.

Record Intersection := mkIntersection {
  isect_t : Q;
  surfaceNormal : vec3;
  materialId : nat
}.

Record uchar4 := mkuchar4 { pbo_x : Z; pbo_y : Z; pbo_z : Z; pbo_w : Z }.

(** What a read outside a device array yields. Such a read is undefined in
  the source; the pools are allocated with one slot per pixel, so the
  kernels never make one on the arrays [pathtrace] passes them. *)
Global Instance Q_inhabited : Inhabited Q := populate 0%Q.
Global Instance vec3_inhabited : Inhabited vec3 := populate Vec3.zero.
Global Instance Ray_inhabited : Inhabited Ray := populate (mkRay Vec3.zero Vec3.zero).
Global Instance PathSegment_inhabited : Inhabited PathSegment :=
  populate (mkPathSegment inhabitant Vec3.zero Vec3.zero 0%nat 0).
Global Instance Intersection_inhabited : Inhabited Intersection :=
  populate (mkIntersection 0%Q Vec3.zero 0%nat).
Global Instance Material_inhabited : Inhabited Material :=
  populate (mkMaterial Vec3.zero 0%Q Vec3.zero false false 0%Q 0%Q).
Global Instance uchar4_inhabited : Inhabited uchar4 := populate (mkuchar4 0 0 0 0).
Global Instance Geom_inhabited : Inhabited Geom :=
  populate (mkGeom CUBE 0%nat Vec3.zero Vec3.zero Vec3.zero 0%nat 0%nat 0%nat).

(** ** External functions

  [utilhash], the three primitive intersectors, [getPointOnRay] and
  [sample_f] are functions of this repository whose headers are not part of
  the sources; the engine and its distribution are thrust's
  [default_random_engine] and [uniform_real_distribution<float>];
  [normalize] and [pow] are glm's, [cos] and [sin] the C library's. The
  kernels are parametric in all of them.

  An intersector receives the current values of its reference parameters
  and returns its result with their new values. [sample_f] receives the
  path by reference and returns it updated. *)
Class Externals := {
  (** [unsigned int utilhash(unsigned int)]: the specification calls it a
      fixed non-cryptographic integer hash with a 32-bit result. *)
  utilhash : Z -> Z;
  utilhash_range : forall a, 0 <= utilhash a < 2 ^ 32;
  (** The state of [thrust::default_random_engine]. *)
  Engine : Type;
  (** The constructor from an unsigned 32-bit seed. *)
  default_random_engine : Z -> Engine;
  (** One draw of [u01(rng)]: the sample and the advanced engine. *)
  u01 : Engine -> Q * Engine;
  glm_normalize : vec3 -> vec3;
  glm_pow : Q -> Q -> Q;
  cosf : Q -> Q;
  sinf : Q -> Q;
  boxIntersectionTest : Geom -> Ray -> vec3 * vec3 * bool -> Q * (vec3 * vec3 * bool);
  sphereIntersectionTest : Geom -> Ray -> vec3 * vec3 * bool -> Q * (vec3 * vec3 * bool);
  geomIntersectionTest :
    Geom -> Ray -> vec3 * vec3 -> list Triangle -> list BVHNode -> Q * (vec3 * vec3);
  getPointOnRay : Ray -> Q -> vec3;
  sample_f : PathSegment -> vec3 -> vec3 -> Material -> Engine -> PathSegment;
  (** The order in which the compiled code evaluates the two arguments of
      [glm::vec2(u01(rng), u01(rng))], which C++ leaves unspecified: [true]
      when the second argument is evaluated, and so drawn, first. *)
  vec2_right_to_left : bool
}.

(** ** HELPERS *)

Section Kernels.
Context `{E : Externals}.

(** [makeSeededRandomEngine]. [1 << 31] and [depth << 22] are [int]
    shifts, the operand of [utilhash] is converted to [unsigned int], the
    exclusive or is stored in an [int] and the engine's constructor
    converts it to its unsigned 32-bit seed. *)
Definition makeSeededRandomEngine (iter : Z) (index : Z) (depth : Z) : Engine :=
  let h := wrap_int (Z.lxor
              (utilhash (to_uint (Z.lor (Z.lor (wrap_int (Z.shiftl 1 31))
                                               (wrap_int (Z.shiftl depth 22)))
                                        iter)))
              (utilhash (to_uint index))) in
  default_random_engine (to_uint h).

(** The 32-bit word the specification describes: the hash of
    [(depth << 22) | (1 << 31) | iteration] exclusive-or the hash of the
    pixel index, on unsigned 32-bit operands. *)
Definition seed_word (iter index depth : Z) : Z :=
  Z.lxor (utilhash (to_uint (Z.lor (Z.lor (Z.shiftl depth 22) (Z.shiftl 1 31)) iter)))
         (utilhash (to_uint index)).

(** The first [n] samples an engine yields through [u01]. *)
Fixpoint draws (n : nat) (rng : Engine) : list Q :=
  match n with
  | O => []
  | S n' => let '(x, rng') := u01 rng in x :: draws n' rng'
  end.

(** [notEquals(a)], the predicate of the stream compaction. *)
Definition notEquals (a : Z) (x : PathSegment) : bool :=
  negb (remainingBounces x =? a).

(** [sortByMaterialId], the comparison of the material sort. *)
Definition sortByMaterialId (isect1 isect2 : Intersection) : bool :=
  (materialId isect1 <? materialId isect2)%nat.

(** [squareToDiskConcentric]. *)
Definition squareToDiskConcentric (xi : vec2) : vec3 :=
  let sx := (2 * v2x xi - 1)%Q in
  let sy := (2 * v2y xi - 1)%Q in
  if Qeqb sx 0 && Qeqb sy 0 then mkvec3 0 0 0
  else if Qltb (Qabs' sy) (Qabs' sx) then
    let radius := sx in
    let theta := (PI_OVER_4 * (sy / sx))%Q in
    mkvec3 (cosf theta * radius) (sinf theta * radius) 0
  else
    let radius := sy in
    let theta := (PI_OVER_2 - PI_OVER_4 * (sx / sy))%Q in
    mkvec3 (cosf theta * radius) (sinf theta * radius) 0.

(** [cameraToWorld]: [rot] has the columns [right], [up] and [view]. *)
Definition cameraToWorld (p : vec3) (cam : Camera) : vec3 :=
  Vec3.add (position cam)
    (Vec3.add (Vec3.add (Vec3.scale (right cam) (vx p)) (Vec3.scale (up cam) (vy p)))
              (Vec3.scale (view cam) (vz p))).

(** ** Kernel launches

    [kernel<<<grid, block>>>] runs the thread body once for every thread of
    the grid. A body receives its global thread index, the sum
    [blockIdx * blockDim + threadIdx] the kernels start from. *)
Definition launch1d {S : Type} (grid block : nat) (thread : nat -> S -> S) (s : S) : S :=
  foldl (fun s idx => thread idx s) s (seq 0 (grid * block)).

Definition launch2d {S : Type} (grid block : nat * nat)
    (thread : nat -> nat -> S -> S) (s : S) : S :=
  foldl (fun s y => foldl (fun s x => thread x y s) s (seq 0 (grid.1 * block.1)))
        s (seq 0 (grid.2 * block.2)).

(** ** [sendImageToPBO] *)

(** The conversion [(int)f] truncates towards zero. *)
Definition float_to_int (f : Q) : Z := Z.quot (Qnum f) (Zpos (Qden f)).

(** [glm::clamp(x, minVal, maxVal) = min(max(x, minVal), maxVal)]. *)
Definition glm_clamp (x minVal maxVal : Z) : Z := Z.min (Z.max x minVal) maxVal.

(** The Reinhard operator and the gamma correction of the guarded block. *)
Definition reinhard (pix : vec3) : vec3 := Vec3.div pix (Vec3.add pix (Vec3.splat 1)).
Definition gamma_correct (pix : vec3) : vec3 :=
  mkvec3 (glm_pow (vx pix) (1 / GAMMA)) (glm_pow (vy pix) (1 / GAMMA))
         (glm_pow (vz pix) (1 / GAMMA)).

(** One thread of [sendImageToPBO]. The kernel holds the pointers [pbo] and
    [image]; the body returns both arrays. *)
Definition sendImageToPBO_thread (cfg : Toggles) (resolution : nat * nat) (iter : Z)
    (x y : nat) (mem : list uchar4 * list vec3) : list uchar4 * list vec3 :=
  let '(pbo, image) := mem in
  if bool_decide (x < resolution.1)%nat && bool_decide (y < resolution.2)%nat then
    let index := (x + y * resolution.1)%nat in
    let pix := image !!! index in
    let pix := if ENABLE_HDR_GAMMA_CORRECTION cfg
               then gamma_correct (reinhard pix) else pix in
    let color_x := glm_clamp (float_to_int (vx pix * 255)) 0 255 in
    let color_y := glm_clamp (float_to_int (vy pix * 255)) 0 255 in
    let color_z := glm_clamp (float_to_int (vz pix * 255)) 0 255 in
    (<[index := mkuchar4 color_x color_y color_z 0]> pbo, image)
  else (pbo, image).

Definition sendImageToPBO (cfg : Toggles) (grid block : nat * nat)
    (pbo : list uchar4) (resolution : nat * nat) (iter : Z) (image : list vec3)
    : list uchar4 * list vec3 :=
  launch2d grid block (sendImageToPBO_thread cfg resolution iter) (pbo, image).

(** ** [generateRayFromCamera] *)

(** The direction through the pixel [(x, y)] with the jitter
    [(xOffset, yOffset)]. *)
Definition pixel_direction (cam : Camera) (x y : nat) (xOffset yOffset : Q) : vec3 :=
  glm_normalize
    (Vec3.sub
       (Vec3.sub (view cam)
          (Vec3.scale (Vec3.scale (right cam) (v2x (pixelLength cam)))
             (inject_Z (Z.of_nat x) + xOffset
              - inject_Z (Z.of_nat (resolution cam).1) * (1 # 2))))
       (Vec3.scale (Vec3.scale (up cam) (v2y (pixelLength cam)))
          (inject_Z (Z.of_nat y) + yOffset
           - inject_Z (Z.of_nat (resolution cam).2) * (1 # 2)))).

(** The engine the thread of the pixel [(x, y)] constructs. *)
Definition generateRayFromCamera_rng (cam : Camera) (iter traceDepth : Z)
    (x y : nat) : Engine :=
  let index := (x + y * (resolution cam).1)%nat in
  makeSeededRandomEngine iter (Z.of_nat index) traceDepth.

(** The argument [glm::vec2(u01(rng), u01(rng))] of the lens sample, from
    the two draws in the order in which they are made. *)
Definition lens_sample (first second : Q) : vec2 :=
  if vec2_right_to_left then mkvec2 second first else mkvec2 first second.

(** The value one thread stores in its path segment. *)
Definition camera_segment (cfg : Toggles) (cam : Camera) (iter traceDepth : Z)
    (x y : nat) : PathSegment :=
  let index := (x + y * (resolution cam).1)%nat in
  let rng := generateRayFromCamera_rng cam iter traceDepth x y in
  let '(xOffset, yOffset, rng) :=
    if CACHE_FIRST_INTERSECTION cfg then (0%Q, 0%Q, rng)
    else let '(xo, rng1) := u01 rng in
         let '(yo, rng2) := u01 rng1 in (xo, yo, rng2) in
  let dir := pixel_direction cam x y xOffset yOffset in
  let '(org, dir) :=
    if Qltb 0 (apertureSize cam) then
      let focalT := (focalLength cam * Vec3.dot (view cam) (view cam)
                     / Vec3.dot dir (view cam))%Q in
      let focalPt := Vec3.add (position cam) (Vec3.lscale focalT dir) in
      let '(u1, rng3) := u01 rng in
      let '(u2, _) := u01 rng3 in
      let ptOnLens :=
        Vec3.lscale (apertureSize cam) (squareToDiskConcentric (lens_sample u1 u2)) in
      let ptOnLens := cameraToWorld ptOnLens cam in
      (ptOnLens, glm_normalize (Vec3.sub focalPt ptOnLens))
    else (position cam, dir) in
  {| ray := mkRay org dir;
     path_color := mkvec3 0 0 0;
     accum_throughput := mkvec3 1 1 1;
     pixelIndex := index;
     remainingBounces := traceDepth |}.

Definition generateRayFromCamera_thread (cfg : Toggles) (cam : Camera)
    (iter traceDepth : Z) (x y : nat) (pathSegments : list PathSegment)
    : list PathSegment :=
  if bool_decide (x < (resolution cam).1)%nat && bool_decide (y < (resolution cam).2)%nat
  then
    let index := (x + y * (resolution cam).1)%nat in
    <[index := camera_segment cfg cam iter traceDepth x y]> pathSegments
  else pathSegments.

Definition generateRayFromCamera (cfg : Toggles) (grid block : nat * nat)
    (cam : Camera) (iter traceDepth : Z) (pathSegments : list PathSegment)
    : list PathSegment :=
  launch2d grid block (generateRayFromCamera_thread cfg cam iter traceDepth) pathSegments.

(** ** [computeIntersections] *)

(** The locals of one thread. The source leaves [t], [intersect_point],
    [normal], [tmp_intersect] and [tmp_normal] uninitialised; they start as
    zero here. [hit_geom_index] is the [int] of the source, [-1] while no
    geometry was hit. *)
Record IsectLocals := mkIsectLocals {
  loc_t : Q;
  intersect_point : vec3;
  normal : vec3;
  t_min : Q;
  hit_geom_index : Z;
  outside : bool;
  tmp_intersect : vec3;
  tmp_normal : vec3
}.

Definition isect_locals_init : IsectLocals :=
  mkIsectLocals 0 Vec3.zero Vec3.zero FLT_MAX (-1) true Vec3.zero Vec3.zero.

(** The dispatch on [geom.type]: the result [t] and the new values of the
    reference parameters [tmp_intersect], [tmp_normal] and [outside]. *)
Definition intersect_geom (geom : Geom) (r : Ray) (tris : list Triangle)
    (bvhNodes : list BVHNode) (refs : vec3 * vec3 * bool) : Q * (vec3 * vec3 * bool) :=
  match type geom with
  | CUBE => boxIntersectionTest geom r refs
  | SPHERE => sphereIntersectionTest geom r refs
  | GLTF_MESH =>
      let '(t, (ti, tn)) := geomIntersectionTest geom r (refs.1.1, refs.1.2) tris bvhNodes in
      (t, (ti, tn, refs.2))
  end.

(** One pass of the loop over the geometry, at index [i]. *)
Definition computeIntersections_step (pathSegment : PathSegment) (geoms : list Geom)
    (tris : list Triangle) (bvhNodes : list BVHNode) (st : IsectLocals) (i : nat)
    : IsectLocals :=
  let geom := geoms !!! i in
  let '(t, (ti, tn, out)) :=
    intersect_geom geom (ray pathSegment) tris bvhNodes
                   (tmp_intersect st, tmp_normal st, outside st) in
  if Qltb 0 t && Qltb t (t_min st) then
    {| loc_t := t; intersect_point := ti; normal := tn; t_min := t;
       hit_geom_index := Z.of_nat i; outside := out;
       tmp_intersect := ti; tmp_normal := tn |}
  else
    {| loc_t := t; intersect_point := intersect_point st; normal := normal st;
       t_min := t_min st; hit_geom_index := hit_geom_index st; outside := out;
       tmp_intersect := ti; tmp_normal := tn |}.

Definition computeIntersections_loop (pathSegment : PathSegment) (geoms : list Geom)
    (geoms_size : nat) (tris : list Triangle) (bvhNodes : list BVHNode) : IsectLocals :=
  foldl (computeIntersections_step pathSegment geoms tris bvhNodes)
        isect_locals_init (seq 0 geoms_size).

(** What the thread stores in [intersections[path_index]]. *)
Definition write_intersection (geoms : list Geom) (st : IsectLocals)
    (old : Intersection) : Intersection :=
  if hit_geom_index st =? -1 then
    {| isect_t := -1; surfaceNormal := surfaceNormal old; materialId := materialId old |}
  else
    {| isect_t := t_min st;
       surfaceNormal := normal st;
       materialId := materialid (geoms !!! Z.to_nat (hit_geom_index st)) |}.

Definition computeIntersections_thread (depth : Z) (num_paths : nat)
    (pathSegments : list PathSegment) (geoms : list Geom) (geoms_size : nat)
    (tris : list Triangle) (tri_size : nat) (bvhNodes : list BVHNode)
    (bvhNodes_size : nat) (path_index : nat) (intersections : list Intersection)
    : list Intersection :=
  if bool_decide (path_index < num_paths)%nat then
    let pathSegment := pathSegments !!! path_index in
    let st := computeIntersections_loop pathSegment geoms geoms_size tris bvhNodes in
    <[path_index := write_intersection geoms st (intersections !!! path_index)]>
      intersections
  else intersections.

Definition computeIntersections (grid block : nat) (depth : Z) (num_paths : nat)
    (pathSegments : list PathSegment) (geoms : list Geom) (geoms_size : nat)
    (tris : list Triangle) (tri_size : nat) (bvhNodes : list BVHNode)
    (bvhNodes_size : nat) (intersections : list Intersection) : list Intersection :=
  launch1d grid block
    (computeIntersections_thread depth num_paths pathSegments geoms geoms_size
       tris tri_size bvhNodes bvhNodes_size)
    intersections.

(** ** [kernel_sample_f] *)

(** The body of [kernel_sample_f] after the index check, on the
    intersection [isect] read from [isects[idx]] and the segment [path]
    that the reference [paths[idx]] denotes: the value the segment holds when
    the thread returns, and the engine the thread constructed, if it reached
    the construction. *)
Definition kernel_sample_f_body (iter depth : Z) (mats : list Material) (idx : nat)
    (isect : Intersection) (path : PathSegment) : PathSegment * option Engine :=
  if remainingBounces path =? 0 then (path, None)
  else if Qltb 0 (isect_t isect) then
    let mat := mats !!! materialId isect in
    let rng := makeSeededRandomEngine iter (Z.of_nat idx) depth in
    if Qltb 0 (emittance mat) then
      ({| ray := ray path;
          path_color :=
            Vec3.mul (Vec3.scale (color mat) (emittance mat)) (accum_throughput path);
          accum_throughput := accum_throughput path;
          pixelIndex := pixelIndex path;
          remainingBounces := 0 |}, Some rng)
    else
      let p := getPointOnRay (ray path) (isect_t isect) in
      (sample_f path p (surfaceNormal isect) mat rng, Some rng)
  else
    ({| ray := ray path;
        path_color := Vec3.splat 0;
        accum_throughput := accum_throughput path;
        pixelIndex := pixelIndex path;
        remainingBounces := 0 |}, None).

(** One thread of [kernel_sample_f]. *)
Definition kernel_sample_f_thread (iter depth : Z) (num_paths : nat)
    (isects : list Intersection) (mats : list Material) (idx : nat)
    (paths : list PathSegment) : list PathSegment :=
  if bool_decide (num_paths <= idx)%nat then paths
  else
    <[idx := (kernel_sample_f_body iter depth mats idx (isects !!! idx) (paths !!! idx)).1]>
      paths.

(** What one thread of [kernel_sample_f] leaves in its slot [idx] when the
    slot held [path]. *)
Definition kernel_sample_f_slot (iter depth : Z) (num_paths : nat)
    (isects : list Intersection) (mats : list Material) (idx : nat)
    (path : PathSegment) : PathSegment :=
  if bool_decide (num_paths <= idx)%nat then path
  else (kernel_sample_f_body iter depth mats idx (isects !!! idx) path).1.

(** The engine the thread [idx] samples from. *)
Definition kernel_sample_f_rng (iter depth : Z) (num_paths : nat)
    (isects : list Intersection) (mats : list Material) (idx : nat)
    (paths : list PathSegment) : option Engine :=
  if bool_decide (num_paths <= idx)%nat then None
  else (kernel_sample_f_body iter depth mats idx (isects !!! idx) (paths !!! idx)).2.

Definition kernel_sample_f (grid block : nat) (iter depth : Z) (num_paths : nat)
    (isects : list Intersection) (paths : list PathSegment) (mats : list Material)
    : list PathSegment :=
  launch1d grid block (kernel_sample_f_thread iter depth num_paths isects mats) paths.

(** ** [finalGather] *)

Definition finalGather_thread (nPaths : nat) (nIters : Z)
    (iterationPaths : list PathSegment) (index : nat) (image : list vec3) : list vec3 :=
  if bool_decide (index < nPaths)%nat then
    let iterationPath := iterationPaths !!! index in
    <[pixelIndex iterationPath :=
        Vec3.mix (image !!! pixelIndex iterationPath) (path_color iterationPath)
                 (1 / inject_Z nIters)]> image
  else image.

Definition finalGather (grid block : nat) (nPaths : nat) (nIters : Z)
    (image : list vec3) (iterationPaths : list PathSegment) : list vec3 :=
  launch1d grid block (finalGather_thread nPaths nIters iterationPaths) image.

(** ** The thrust algorithms and the CUDA copies [pathtrace] calls

    These follow thrust's documented contracts. *)

(** Insertion of a key with its value before the first key that does not
    compare below it. *)
Fixpoint insert_by_key (kv : Intersection * PathSegment)
    (l : list (Intersection * PathSegment)) : list (Intersection * PathSegment) :=
  match l with
  | [] => [kv]
  | kv' :: l' =>
      if sortByMaterialId kv'.1 kv.1 then kv' :: insert_by_key kv l' else kv :: l
  end.

(** [thrust::stable_sort_by_key(keys, keys + n, values, sortByMaterialId())]:
    the first [n] keys are sorted, equal keys keep their order, and the first
    [n] values are permuted with them. *)
Definition stable_sort_by_key (n : nat) (keys : list Intersection)
    (values : list PathSegment) : list Intersection * list PathSegment :=
  let sorted := foldr insert_by_key [] (zip (take n keys) (take n values)) in
  (sorted.*1 ++ drop n keys, sorted.*2 ++ drop n values).

(** [thrust::stable_partition(paths, paths + n, pred)]: the elements of the
    first [n] that satisfy [pred], in their order, then the others, in their
    order; the result is the array and the length of the first group. *)
Definition stable_partition (n : nat) (pred : PathSegment -> bool)
    (paths : list PathSegment) : list PathSegment * nat :=
  let front := List.filter pred (take n paths) in
  let back := List.filter (fun x => negb (pred x)) (take n paths) in
  (front ++ back ++ drop n paths, length front).

(** [cudaMemcpy(dst, src, n * sizeof(T), ...)] and
    [cudaMemset(dst, 0, n * sizeof(T))]. *)
Definition cudaMemcpy {T : Type} (dst src : list T) (n : nat) : list T :=
  take n src ++ drop n dst.
Definition cudaMemset0 {T : Type} (zero : T) (dst : list T) (n : nat) : list T :=
  replicate (Nat.min n (length dst)) zero ++ drop n dst.

(** ** The host side *)

(** Modelled from the spec: [scene.h] is not part of the sources; the
    fields are those [pathtrace.cu] reads from [hst_scene]. *)
Record Scene := mkScene {
  geoms : list Geom;
  materials : list Material;
  tris : list Triangle;
  bvhNodes : list BVHNode;
  state_camera : Camera;
  state_traceDepth : Z
}.

(** The static device pointers of [pathtrace.cu], the host image
    [hst_scene->state.image] and [guiData->TracedDepth] ([None] when
    [guiData] is [NULL]). The scene arrays [dev_geoms], [dev_tris],
    [dev_bvhNodes] and [dev_materials] are copies made once by
    [pathtraceInit] and read from the scene here. *)
Record Device := mkDevice {
  dev_image : list vec3;
  dev_paths : list PathSegment;
  dev_intersections : list Intersection;
  dev_cached_intersections : list Intersection;
  hst_image : list vec3;
  guiData : option Z
}.

Definition zero_intersection : Intersection := mkIntersection 0 Vec3.zero 0%nat.

Definition pixelcount_of (cam : Camera) : nat :=
  ((resolution cam).1 * (resolution cam).2)%nat.

(** [pathtraceInit]: the image and both intersection pools are zeroed, the
    path pool is allocated and not initialised. *)
Definition pathtraceInit (scene : Scene) (gui : option Z) : Device :=
  let pixelcount := pixelcount_of (state_camera scene) in
  {| dev_image := replicate pixelcount Vec3.zero;
     dev_paths := replicate pixelcount inhabitant;
     dev_intersections := replicate pixelcount zero_intersection;
     dev_cached_intersections := replicate pixelcount zero_intersection;
     hst_image := replicate pixelcount Vec3.zero;
     guiData := gui |}.

(** The number of blocks [(n + blockSize - 1) / blockSize]. *)
Definition blocks_for (n blockSize : nat) : nat := ((n + blockSize - 1) / blockSize)%nat.

Definition blockSize1d : nat := 128.
Definition blockSize2d : nat * nat := (8, 8)%nat.

(** The variables of the tracing loop of [pathtrace]. [shade_launches] is
    not in the source: it records the [depth] argument of every launch of
    [kernel_sample_f], latest first. *)
Record LoopState := mkLoopState {
  depth : Z;
  num_paths : nat;
  loop_paths : list PathSegment;
  loop_intersections : list Intersection;
  loop_cached : list Intersection;
  loop_gui : option Z;
  shade_launches : list Z
}.

(** The first part of one pass of [while (!iterationComplete)], up to and
    with the launch of [kernel_sample_f]. *)
Definition bounce_shade (cfg : Toggles) (scene : Scene) (iter : Z) (pixelcount : nat)
    (st : LoopState) : LoopState :=
  let numblocksPathSegmentTracing := blocks_for (num_paths st) blockSize1d in
  let isects :=
    if CACHE_FIRST_INTERSECTION cfg && (depth st =? 0) && (1 <? iter) then
      cudaMemcpy (loop_intersections st) (loop_cached st) pixelcount
    else
      computeIntersections numblocksPathSegmentTracing blockSize1d
        (depth st) (num_paths st) (loop_paths st)
        (geoms scene) (length (geoms scene))
        (tris scene) (length (tris scene))
        (bvhNodes scene) (length (bvhNodes scene))
        (cudaMemset0 zero_intersection (loop_intersections st) pixelcount) in
  let cached :=
    if CACHE_FIRST_INTERSECTION cfg && (depth st =? 0) && (iter =? 1) then
      cudaMemcpy (loop_cached st) isects pixelcount
    else loop_cached st in
  let depth' := depth st + 1 in
  let '(isects, paths) :=
    if SORT_BY_MATERIAL cfg then stable_sort_by_key (num_paths st) isects (loop_paths st)
    else (isects, loop_paths st) in
  let paths :=
    kernel_sample_f numblocksPathSegmentTracing blockSize1d iter depth'
      (num_paths st) isects paths (materials scene) in
  {| depth := depth';
     num_paths := num_paths st;
     loop_paths := paths;
     loop_intersections := isects;
     loop_cached := cached;
     loop_gui := loop_gui st;
     shade_launches := depth' :: shade_launches st |}.

(** One pass of [while (!iterationComplete)]: the state after the pass and
    the value of [iterationComplete]. The pass ends with the stream
    compaction, the test for completion and the update of [guiData]. *)
Definition bounce (cfg : Toggles) (scene : Scene) (iter : Z) (pixelcount : nat)
    (st : LoopState) : LoopState * bool :=
  let st1 := bounce_shade cfg scene iter pixelcount st in
  let '(paths, num_paths') :=
    if STREAM_COMPACT cfg
    then stable_partition (num_paths st1) (notEquals 0) (loop_paths st1)
    else (loop_paths st1, num_paths st1) in
  let iterationComplete :=
    (state_traceDepth scene <=? depth st1) || (num_paths' =? 0)%nat in
  ({| depth := depth st1;
      num_paths := num_paths';
      loop_paths := paths;
      loop_intersections := loop_intersections st1;
      loop_cached := loop_cached st1;
      loop_gui := (fun _ => depth st1) <$> loop_gui st1;
      shade_launches := shade_launches st1 |},
   iterationComplete).

(** The loop, with a bound on the number of passes; [None] when the bound
    is reached before [iterationComplete] holds. *)
Fixpoint trace_loop (fuel : nat) (cfg : Toggles) (scene : Scene) (iter : Z)
    (pixelcount : nat) (st : LoopState) : option LoopState :=
  match fuel with
  | O => None
  | S fuel' =>
      let '(st', iterationComplete) := bounce cfg scene iter pixelcount st in
      if iterationComplete then Some st'
      else trace_loop fuel' cfg scene iter pixelcount st'
  end.

(** The passes the loop can need: [depth] grows by one from 0 and the loop
    stops once it reaches [traceDepth]. *)
Definition trace_fuel (scene : Scene) : nat := Z.to_nat (Z.max 1 (state_traceDepth scene)).

(** The state the loop starts from, after [generateRayFromCamera]. *)
Definition trace_start (cfg : Toggles) (scene : Scene) (iter : Z) (dev : Device)
    : LoopState :=
  let cam := state_camera scene in
  let pixelcount := pixelcount_of cam in
  let blocksPerGrid2d :=
    (blocks_for (resolution cam).1 blockSize2d.1, blocks_for (resolution cam).2 blockSize2d.2) in
  {| depth := 0;
     num_paths := pixelcount;
     loop_paths :=
       generateRayFromCamera cfg blocksPerGrid2d blockSize2d cam iter
         (state_traceDepth scene) (dev_paths dev);
     loop_intersections := dev_intersections dev;
     loop_cached := dev_cached_intersections dev;
     loop_gui := guiData dev;
     shade_launches := [] |}.

(** The states the loop of one call of [pathtrace] goes through: the
    start, and the state after every pass that does not complete the
    iteration. *)
Inductive trace_reach (cfg : Toggles) (scene : Scene) (iter : Z) (dev : Device)
    : LoopState -> Prop :=
  | reach_start : trace_reach cfg scene iter dev (trace_start cfg scene iter dev)
  | reach_bounce st st' :
      trace_reach cfg scene iter dev st ->
      bounce cfg scene iter (pixelcount_of (state_camera scene)) st = (st', false) ->
      trace_reach cfg scene iter dev st'.

(** [pathtrace(pbo, frame, iter)]: the pixel buffer and the device memory
    after the call. *)
Definition pathtrace (cfg : Toggles) (scene : Scene) (dev : Device)
    (pbo : list uchar4) (frame : Z) (iter : Z) : option (list uchar4 * Device) :=
  let cam := state_camera scene in
  let pixelcount := pixelcount_of cam in
  let blocksPerGrid2d :=
    (blocks_for (resolution cam).1 blockSize2d.1, blocks_for (resolution cam).2 blockSize2d.2) in
  st ← trace_loop (trace_fuel scene) cfg scene iter pixelcount
         (trace_start cfg scene iter dev);
  let numBlocksPixels := blocks_for pixelcount blockSize1d in
  let image :=
    finalGather numBlocksPixels blockSize1d pixelcount iter (dev_image dev) (loop_paths st) in
  let '(pbo', image') :=
    sendImageToPBO cfg blocksPerGrid2d blockSize2d pbo (resolution cam) iter image in
  Some (pbo',
        {| dev_image := image';
           dev_paths := loop_paths st;
           dev_intersections := loop_intersections st;
           dev_cached_intersections := loop_cached st;
           hst_image := cudaMemcpy (hst_image dev) image' pixelcount;
           guiData := loop_gui st |}).

End Kernels.


(** ** Reference notions for the intersection kernel *)

Section IntersectionResults.
Context `{E : Externals}.

(** One more intersection test, at index [i]: the results so far, extended
    by the pair of [t] and [tmp_normal] that the test of [geoms[i]] returns,
    and the reference parameters after the call. *)
Definition hits_step (r : Ray) (geoms : list Geom) (tris : list Triangle)
    (bvhNodes : list BVHNode) (acc : list (Q * vec3) * (vec3 * vec3 * bool)) (i : nat)
    : list (Q * vec3) * (vec3 * vec3 * bool) :=
  let '(t, (ti, tn, out)) := intersect_geom (geoms !!! i) r tris bvhNodes acc.2 in
  (acc.1 ++ [(t, tn)], (ti, tn, out)).

(** What the instances [0 .. n-1] yield for the ray [r], in the order and
    with the reference parameters of the loop of [computeIntersections]. *)
Definition intersection_results (r : Ray) (geoms : list Geom) (n : nat)
    (tris : list Triangle) (bvhNodes : list BVHNode) : list (Q * vec3) :=
  (foldl (hits_step r geoms tris bvhNodes) ([], (Vec3.zero, Vec3.zero, true)) (seq 0 n)).1.

(** The instance [k] is the nearest hit among [hits]: its [t] is positive,
    no positive [t] is smaller, and no instance of a lower index has the
    same [t]. *)
Definition nearest_hit (hits : list (Q * vec3)) (k : nat) (t : Q) (n : vec3) : Prop :=
  hits !! k = Some (t, n)
  /\ (0 < t)%Q
  /\ (forall j t' n', hits !! j = Some (t', n') -> (0 < t')%Q -> (t <= t')%Q)
  /\ (forall j t' n', (j < k)%nat -> hits !! j = Some (t', n') -> ~ (t' == t)%Q).

(** What one thread of [computeIntersections] leaves in its slot. *)
Definition computeIntersections_slot (num_paths : nat) (pathSegments : list PathSegment)
    (geoms : list Geom) (geoms_size : nat) (tris : list Triangle)
    (bvhNodes : list BVHNode) (path_index : nat) (old : Intersection) : Intersection :=
  if bool_decide (path_index < num_paths)%nat then
    write_intersection geoms
      (computeIntersections_loop (pathSegments !!! path_index) geoms geoms_size tris bvhNodes)
      old
  else old.

End IntersectionResults.

(** ** Reference notions for the accumulator *)

(** The color estimate of the pixel [p] in one iteration's path pool: the
    [color] of the path whose [pixelIndex] is [p]. *)
Definition pixel_estimate (pool : list PathSegment) (p : nat) : vec3 :=
  match list_find (fun s => pixelIndex s = p) pool with
  | Some (_, s) => path_color s
  | None => Vec3.zero
  end.

(** The sum of a list of colors. *)
Definition vsum (cs : list vec3) : vec3 := foldr Vec3.add Vec3.zero cs.

(** What one thread of [finalGather] leaves in the image slot it writes. *)
Definition finalGather_slot (nPaths : nat) (nIters : Z)
    (iterationPaths : list PathSegment) (index : nat) (old : vec3) : vec3 :=
  if bool_decide (index < nPaths)%nat then
    Vec3.mix old (path_color (iterationPaths !!! index)) (1 / inject_Z nIters)
  else old.

(** Modelled from the spec: the render loop of [main.cpp] is not part of
    the sources; section 4.G runs the iterations [i = 1, 2, ...] and ends
    each with the accumulation. [accumulate pixelcount iter image pools] is
    the image after the launches of [finalGather] that [pathtrace] makes in
    the iterations [iter, iter + 1, ...], where [pools] are the path pools at
    the end of the tracing loops of those iterations. *)
Fixpoint accumulate (pixelcount : nat) (iter : Z) (image : list vec3)
    (pools : list (list PathSegment)) : list vec3 :=
  match pools with
  | [] => image
  | pool :: pools' =>
      accumulate pixelcount (iter + 1)
        (finalGather (blocks_for pixelcount blockSize1d) blockSize1d pixelcount iter
           image pool)
        pools'
  end.

(** ** The accumulator in binary32

  The line [image[i] = glm::mix(image[i], color, 1.0f / nIters)] of
  [finalGather] computes on [float], the binary32 format of IEEE 754: every
  operation returns a value of the format. *)



Section Binary32Accumulator.
(** [mix x y a] is [glm::mix(x, y, a)] on three [float]s and [inv n] is
    [1.0f / n] for the [int] [n]. Which formula glm's version evaluates for
    the interpolation, and whether the compiler fuses a product and a sum,
    is not fixed by the sources. *)
Variables (mix : Q -> Q -> Q -> Q) (inv : Z -> Q).

(** [glm::mix] on [vec3] with a [float] weight works componentwise. *)
Definition mix3 (x y : vec3) (a : Q) : vec3 :=
  mkvec3 (mix (vx x) (vx y) a) (mix (vy x) (vy y) a) (mix (vz x) (vz y) a).

(** One thread of [finalGather]. *)
Definition finalGather_thread_with (nPaths : nat) (nIters : Z)
    (iterationPaths : list PathSegment) (index : nat) (image : list vec3) : list vec3 :=
  if bool_decide (index < nPaths)%nat then
    let iterationPath := iterationPaths !!! index in
    <[pixelIndex iterationPath :=
        mix3 (image !!! pixelIndex iterationPath) (path_color iterationPath)
             (inv nIters)]> image
  else image.

Definition finalGather_with (grid block : nat) (nPaths : nat) (nIters : Z)
    (image : list vec3) (iterationPaths : list PathSegment) : list vec3 :=
  launch1d grid block (finalGather_thread_with nPaths nIters iterationPaths) image.


(** Modelled from the spec: [accumulate], the accumulations of the
    iterations [iter, iter + 1, ...] that section 4.G runs, with these
    operations. *)
Fixpoint accumulate_with (pixelcount : nat) (iter : Z) (image : list vec3)
    (pools : list (list PathSegment)) : list vec3 :=
  match pools with
  | [] => image
  | pool :: pools' =>
      accumulate_with pixelcount (iter + 1)
        (finalGather_with (blocks_for pixelcount blockSize1d) blockSize1d pixelcount iter
           image pool)
        pools'
  end.


End Binary32Accumulator.


(** ** Reference notions for the two-dimensional kernels *)

(** The threads of a two-dimensional launch that pass the guard
    [x < W && y < H], in the order of the launch. *)
Definition pixel_threads (W H : nat) : list (nat * nat) :=
  seq 0 H ≫= fun y => (fun x => (x, y)) <$> seq 0 W.

(** The slot [x + y * W] a pixel's thread works on. *)
Definition pixel_slot (W : nat) (xy : nat * nat) : nat := (xy.1 + xy.2 * W)%nat.

Section PixelSlots.
Context `{E : Externals}.

(** What one thread of [generateRayFromCamera] leaves in its slot. *)
Definition generateRayFromCamera_slot (cfg : Toggles) (cam : Camera)
    (iter traceDepth : Z) (xy : nat * nat) (old : PathSegment) : PathSegment :=
  if bool_decide (xy.1 < (resolution cam).1)%nat
     && bool_decide (xy.2 < (resolution cam).2)%nat
  then camera_segment cfg cam iter traceDepth xy.1 xy.2 else old.

(** The pixel [sendImageToPBO] writes for the image value [pix]. *)
Definition pbo_pixel (cfg : Toggles) (pix : vec3) : uchar4 :=
  let pix := if ENABLE_HDR_GAMMA_CORRECTION cfg then gamma_correct (reinhard pix) else pix in
  mkuchar4 (glm_clamp (float_to_int (vx pix * 255)) 0 255)
           (glm_clamp (float_to_int (vy pix * 255)) 0 255)
           (glm_clamp (float_to_int (vz pix * 255)) 0 255)
           0.

(** What one thread of [sendImageToPBO] leaves in its slot of the pixel
    buffer. *)
Definition sendImageToPBO_slot (cfg : Toggles) (resolution : nat * nat)
    (image : list vec3) (xy : nat * nat) (old : uchar4) : uchar4 :=
  if bool_decide (xy.1 < resolution.1)%nat && bool_decide (xy.2 < resolution.2)%nat
  then pbo_pixel cfg (image !!! pixel_slot resolution.1 xy) else old.

End PixelSlots.

(** ** Invariants of the tracing loop *)

(** Every pool of the loop has one slot for each pixel and the live range
    lies inside the pool. *)
Definition pools_sized (pixelcount : nat) (st : LoopState) : Prop :=
  length (loop_paths st) = pixelcount
  /\ length (loop_intersections st) = pixelcount
  /\ length (loop_cached st) = pixelcount
  /\ (num_paths st <= pixelcount)%nat.

(** The slots from [num_paths] on hold terminated paths. *)
Definition tail_terminated (st : LoopState) : Prop :=
  Forall (fun p => remainingBounces p = 0) (drop (num_paths st) (loop_paths st)).

(** The device pools have the sizes [pathtraceInit] allocates. *)
Definition device_sized (scene : Scene) (dev : Device) : Prop :=
  length (dev_paths dev) = pixelcount_of (state_camera scene)
  /\ length (dev_intersections dev) = pixelcount_of (state_camera scene)
  /\ length (dev_cached_intersections dev) = pixelcount_of (state_camera scene).

(** Every slot of the pool holds the path of the pixel with the slot's
    index: the pool is in the order [generateRayFromCamera] filled it. *)
Definition slots_by_pixel (st : LoopState) : Prop :=
  forall idx p, loop_paths st !! idx = Some p -> pixelIndex p = idx.

(** ** The iterations of a rendering

    Modelled from the spec: the render loop of [main.cpp] is not part of the
    sources; section 4.G calls [pathtrace] for the iterations
    [i = 1, 2, ...], each on the device memory the one before left. *)

Section Render.
Context `{E : Externals}.

(** [n] calls of [pathtrace], for the iterations [iter, iter + 1, ...]. *)
Fixpoint render (cfg : Toggles) (scene : Scene) (n : nat) (iter : Z)
    (dev : Device) (pbo : list uchar4) : option (list uchar4 * Device) :=
  match n with
  | O => Some (pbo, dev)
  | S n' =>
      r ← pathtrace cfg scene dev pbo iter iter;
      render cfg scene n' (iter + 1) r.2 r.1
  end.

(** The path pools those calls leave behind, one for each iteration. *)
Fixpoint render_pools (cfg : Toggles) (scene : Scene) (n : nat) (iter : Z)
    (dev : Device) (pbo : list uchar4) : list (list PathSegment) :=
  match n with
  | O => []
  | S n' =>
      match pathtrace cfg scene dev pbo iter iter with
      | Some r => dev_paths r.2 :: render_pools cfg scene n' (iter + 1) r.2 r.1
      | None => []
      end
  end.

End Render.

(** ** Reference notions for the seeding *)

(** The operand of the first call of [utilhash] in [makeSeededRandomEngine],
    after its conversion to [unsigned int]. *)
Definition seed_operand (iter depth : Z) : Z :=
  to_uint (Z.lor (Z.lor (wrap_int (Z.shiftl 1 31)) (wrap_int (Z.shiftl depth 22))) iter).

(** ** Reference notions for the material sort *)

(** The pairs of an intersection and a path whose material id is [m]. *)
Definition by_material (m : nat) (kv : Intersection * PathSegment) : bool :=
  (materialId kv.1 =? m)%nat.

(** No pair is followed by one of a smaller material id. *)
Fixpoint material_ordered (l : list (Intersection * PathSegment)) : Prop :=
  match l with
  | [] => True
  | kv :: l' =>
      Forall (fun kv' => (materialId kv.1 <= materialId kv'.1)%nat) l'
      /\ material_ordered l'
  end.

(** ** Reference notions for the range of the colors *)

(** No component of the color [v] is negative. *)
Definition color_nonnegative (v : vec3) : Prop :=
  (0 <= vx v /\ 0 <= vy v /\ 0 <= vz v)%Q.

(** ** Reference notions for the whole iteration *)


(** ** [shadeFakeMaterial] *)

Section FakeShader.
Context `{E : Externals}.

(** A segment with another color. *)
Definition with_color (seg : PathSegment) (c : vec3) : PathSegment :=
  {| ray := ray seg;
     path_color := c;
     accum_throughput := accum_throughput seg;
     pixelIndex := pixelIndex seg;
     remainingBounces := remainingBounces seg |}.

(** The body of [shadeFakeMaterial] inside the index guard, on the
    intersection read from [shadeableIntersections[idx]] and the segment
    [pathSegments[idx]]. The constants [0.3f], [0.7f] and [0.02f] are the
    rationals 3/10, 7/10 and 2/100. *)
Definition shadeFakeMaterial_body (iter : Z) (materials : list Material) (idx : nat)
    (intersection : Intersection) (seg : PathSegment) : PathSegment :=
  if Qltb 0 (isect_t intersection) then
    let rng := makeSeededRandomEngine iter (Z.of_nat idx) 0 in
    let material := materials !!! materialId intersection in
    let materialColor := color material in
    if Qltb 0 (emittance material) then
      with_color seg
        (Vec3.mul (path_color seg) (Vec3.scale materialColor (emittance material)))
    else
      let lightTerm := Vec3.dot (surfaceNormal intersection) (mkvec3 0 1 0) in
      let seg1 :=
        with_color seg
          (Vec3.mul (path_color seg)
             (Vec3.add
                (Vec3.scale (Vec3.scale materialColor lightTerm) (3 # 10))
                (Vec3.scale
                   (Vec3.lscale (1 - isect_t intersection * (2 # 100)) materialColor)
                   (7 # 10)))) in
      with_color seg1 (Vec3.scale (path_color seg1) (u01 rng).1)
  else with_color seg (Vec3.splat 0).

(** One thread of [shadeFakeMaterial]. *)
Definition shadeFakeMaterial_thread (iter : Z) (num_paths : nat)
    (shadeableIntersections : list Intersection) (materials : list Material)
    (idx : nat) (pathSegments : list PathSegment) : list PathSegment :=
  if bool_decide (idx < num_paths)%nat then
    let intersection := shadeableIntersections !!! idx in
    <[idx := shadeFakeMaterial_body iter materials idx intersection (pathSegments !!! idx)]>
      pathSegments
  else pathSegments.

(** What one thread of [shadeFakeMaterial] leaves in its slot. *)
Definition shadeFakeMaterial_slot (iter : Z) (num_paths : nat)
    (shadeableIntersections : list Intersection) (materials : list Material)
    (idx : nat) (seg : PathSegment) : PathSegment :=
  if bool_decide (idx < num_paths)%nat then
    shadeFakeMaterial_body iter materials idx (shadeableIntersections !!! idx) seg
  else seg.

Definition shadeFakeMaterial (grid block : nat) (iter : Z) (num_paths : nat)
    (shadeableIntersections : list Intersection) (pathSegments : list PathSegment)
    (materials : list Material) : list PathSegment :=
  launch1d grid block
    (shadeFakeMaterial_thread iter num_paths shadeableIntersections materials)
    pathSegments.

End FakeShader.

(** ** The GUI container *)




(** ** A concrete instance

    The closed examples below evaluate the kernels with these functions: a
    32-bit integer mix as the hash, the minimal standard linear congruential
    generator as the engine, rational stand-ins for the irrational functions,
    intersectors that hit a geometry at the distance stored in the [z]
    component of its translation, a diffuse bounce as [sample_f], and the
    arguments of a call evaluated from the right to the left. *)
Module Sample.

Definition mix32 (a : Z) : Z :=
  let a := to_uint (to_uint (a + 2127912214) + Z.shiftl a 12) in
  let a := Z.lxor (Z.lxor a 3345072700) (Z.shiftr a 19) in
  let a := to_uint (to_uint (a + 374761393) + Z.shiftl a 5) in
  let a := Z.lxor (to_uint (a + 3550635116)) (to_uint (Z.shiftl a 9)) in
  let a := to_uint (to_uint (a + 4251993797) + Z.shiftl a 3) in
  let a := Z.lxor (Z.lxor a 3042594569) (Z.shiftr a 16) in
  to_uint a.

Definition minstd_seed (s : Z) : Z :=
  let x := s mod 2147483647 in if x =? 0 then 1 else x.

Definition minstd_u01 (e : Z) : Q * Z :=
  let e' := (48271 * e) mod 2147483647 in
  ((inject_Z e' / inject_Z 2147483647)%Q, e').

(** A geometry covers the rays whose direction has its [x] component
    within [scale.x] of [translation.x]; it is hit at the distance
    [translation.z]. *)
Definition covers (g : Geom) (r : Ray) : bool :=
  Qle_bool (vx (translation g) - vx (scale g)) (vx (direction r))
  && Qle_bool (vx (direction r)) (vx (translation g) + vx (scale g)).

Definition hit_at_z (g : Geom) (r : Ray) (refs : vec3 * vec3 * bool)
    : Q * (vec3 * vec3 * bool) :=
  if covers g r then
    (vz (translation g),
     (Vec3.add (origin r) (Vec3.lscale (vz (translation g)) (direction r)),
      mkvec3 0 0 1, true))
  else ((-1)%Q, refs).

Definition mesh_hit_at_z (g : Geom) (r : Ray) (refs : vec3 * vec3)
    (ts : list Triangle) (ns : list BVHNode) : Q * (vec3 * vec3) :=
  if covers g r then
    (vz (translation g),
     (Vec3.add (origin r) (Vec3.lscale (vz (translation g)) (direction r)),
      mkvec3 0 0 1))
  else ((-1)%Q, refs).

Definition diffuse_bounce (path : PathSegment) (p n : vec3) (m : Material) (rng : Z)
    : PathSegment :=
  {| ray := mkRay p n;
     path_color := path_color path;
     accum_throughput := Vec3.mul (accum_throughput path) (color m);
     pixelIndex := pixelIndex path;
     remainingBounces := remainingBounces path - 1 |}.

#[export] Instance externals : Externals := {|
  utilhash := mix32;
  utilhash_range := fun a => Z.mod_pos_bound _ (2 ^ 32) eq_refl;
  Engine := Z;
  default_random_engine := minstd_seed;
  u01 := minstd_u01;
  glm_normalize := fun v => v;
  glm_pow := fun x y => x;
  cosf := fun x => (1 - x * x / 2)%Q;
  sinf := fun x => x;
  boxIntersectionTest := hit_at_z;
  sphereIntersectionTest := hit_at_z;
  geomIntersectionTest := mesh_hit_at_z;
  getPointOnRay := fun r t => Vec3.add (origin r) (Vec3.lscale t (direction r));
  sample_f := diffuse_bounce;
  vec2_right_to_left := true
|}.

(** A camera of two pixels side by side, a light that covers the rays of
    the left pixel and a diffuse wall that covers those of the right one. *)
Definition cam (aperture : Q) : Camera :=
  {| resolution := (2, 1)%nat;
     position := mkvec3 0 0 0;
     view := mkvec3 0 0 (-1);
     up := mkvec3 0 1 0;
     right := mkvec3 1 0 0;
     pixelLength := mkvec2 1 1;
     apertureSize := aperture;
     focalLength := 1 |}.

Definition light : Material :=
  mkMaterial (mkvec3 1 1 1) 0 (mkvec3 0 0 0) false false 0 3.
Definition white : Material :=
  mkMaterial (mkvec3 (1 # 2) (1 # 2) (1 # 2)) 0 (mkvec3 0 0 0) false false 0 0.

Definition lamp : Geom :=
  mkGeom CUBE 0 (mkvec3 (1 # 2) 0 2) (mkvec3 0 0 0) (mkvec3 (1 # 2) 0 0) 0 0 0.
Definition wall : Geom :=
  mkGeom SPHERE 1 (mkvec3 (-1 # 2) 0 3) (mkvec3 0 0 0) (mkvec3 (1 # 2) 0 0) 0 0 0.

Definition scene (traceDepth : Z) : Scene :=
  {| geoms := [lamp; wall];
     materials := [light; white];
     tris := [];
     bvhNodes := [];
     state_camera := cam 0;
     state_traceDepth := traceDepth |}.

(** The switches of the header with the stream compaction turned on. *)
Definition compacting : Toggles := mkToggles false true false false.

(** The device memory after [pathtraceInit], without a GUI container. *)
Definition dev (traceDepth : Z) : Device := pathtraceInit (scene traceDepth) None.

(** A path through the pixel [px] with the color [c] and [rb] bounces left. *)
Definition path_of (px : nat) (c : vec3) (rb : Z) : PathSegment :=
  mkPathSegment (mkRay (mkvec3 0 0 0) (mkvec3 (1 # 2) 0 (-1))) c (mkvec3 1 1 1) px rb.

(** A hit of the lamp and a hit of the wall. *)
Definition lamp_hit : Intersection := mkIntersection 2 (mkvec3 0 0 1) 0.
Definition wall_hit : Intersection := mkIntersection 3 (mkvec3 0 0 1) 1.

(** A lamp at the distance [FLT_MAX]. *)
Definition far_lamp : Geom :=
  mkGeom CUBE 0 (mkvec3 (1 # 2) 0 FLT_MAX) (mkvec3 0 0 0) (mkvec3 (1 # 2) 0 0) 0 0 0.

(** The pool after the camera-ray generation of iteration 1, with the
    switches of the header and a trace depth of 2. *)
Definition start_pool : list PathSegment :=
  loop_paths (trace_start compiled (scene 2) 1 (dev 2)).

(** What the two geometries of the scene yield for the ray of the left
    pixel, and what the far lamp yields for a ray it covers. *)
Definition left_hits : list (Q * vec3) :=
  intersection_results (ray (start_pool !!! 0%nat)) [lamp; wall] 2 [] [].
Definition far_hits : list (Q * vec3) :=
  intersection_results (ray (path_of 0 (mkvec3 0 0 0) 2)) [far_lamp] 1 [] [].

(** The state of the tracing loop of iteration 1 after the first pass,
    for a trace depth of 3, and the intersections the second pass computes
    from it. *)
Definition after_first (cfg : Toggles) : LoopState :=
  (bounce cfg (scene 3) 1 2 (trace_start cfg (scene 3) 1 (dev 3))).1.
Definition second_isects (cfg : Toggles) : list Intersection :=
  loop_intersections (bounce_shade cfg (scene 3) 1 2 (after_first cfg)).

(** The same for the first pass and a trace depth of -1. *)
Definition negative_start (cfg : Toggles) : LoopState :=
  trace_start cfg (scene (-1)) 1 (dev (-1)).

(** The intersections the first pass computes from [start_pool]. *)
Definition first_pass_isects : list Intersection :=
  loop_intersections (bounce_shade compiled (scene 2) 1 2
                        (trace_start compiled (scene 2) 1 (dev 2))).

(** The path pools of two iterations, the second in another order. *)
Definition two_pools : list (list PathSegment) :=
  [[path_of 0 (mkvec3 1 0 0) 0; path_of 1 (mkvec3 0 1 0) 0];
   [path_of 1 (mkvec3 0 0 1) 0; path_of 0 (mkvec3 0 1 (1 # 2)) 0]].

(** The path pools of three iterations of an image of one pixel, with the
    estimates (1,0,0), black and black. *)
Definition three_pools : list (list PathSegment) :=
  [[path_of 0 (mkvec3 1 0 0) 0]; [path_of 0 (mkvec3 0 0 0) 0];
   [path_of 0 (mkvec3 0 0 0) 0]].

End Sample.

(** ** An instance of the binary32 operations

    Every operation rounds its exact result to the nearest value of
    binary32, to the one with the even significand when two are as near;
    [glm::mix(x, y, a)] is evaluated as [x * (1 - a) + y * a], glm's
    formula for a floating-point weight, without fused operations. A result
    beyond the largest finite value is an infinity in binary32, which has no
    rational: [round] stops at [FLT_MAX] there. *)
Module Binary32.

(** [q] is [m * 2^e] for an integer [m] of 24 bits. *)
Definition fits (q : Q) (e : Z) : bool :=
  let v := Qred (q * 2 ^ (- e)) in
  (Zpos (Qden v) =? 1) && (Z.abs (Qnum v) <? 2 ^ 24).

(** [q] is a value of binary32. *)
Definition exact32 (q : Q) : bool := existsb (fits q) (seqZ (-149) 254).

(** The integer nearest to [q], the even one of two that are as near. *)
Definition round_even (q : Q) : Z :=
  let f := Qnum q / Zpos (Qden q) in
  match (q - inject_Z f ?= 1 # 2)%Q with
  | Lt => f
  | Gt => f + 1
  | Eq => if Z.even f then f else f + 1
  end.

(** The exponent of the last place of the significand of [q]: 23 below
    the exponent of [q], and -149 for the subnormal numbers. *)
Definition ulp_exponent (q : Q) : Z :=
  let l := Z.log2 (Z.abs (Qnum q)) - Z.log2 (Zpos (Qden q)) in
  let l := if Qle_bool (2 ^ l) (Qabs' q) then l else l - 1 in
  Z.max (-149) (l - 23).

Definition round (q : Q) : Q :=
  if exact32 q then Qred q
  else
    let e := ulp_exponent q in
    let v := (inject_Z (round_even (q * 2 ^ (- e))) * 2 ^ e)%Q in
    if exact32 v then Qred v
    else if Qle_bool 0 q then FLT_MAX else (- FLT_MAX)%Q.

Definition mix (x y a : Q) : Q := round (round (x * round (1 - a)) + round (y * a)).

(** [1.0f / n] for an [n] other than 0: the [int] is converted to [float]
    first. *)
Definition inv (n : Z) : Q := round (1 / round (inject_Z n)).

End Binary32.

(** ** Further sample data *)
Module Cases.
Import Sample.

(** The switches of the header with the first-bounce cache turned on. *)
Definition caching : Toggles := mkToggles false false true false.


(** What the call of [pathtrace] for iteration 1 of the sample scene returns
    with the cache on. *)
Definition first_call : list uchar4 * Device :=
  default ([], dev 2) (pathtrace caching (scene 2) (dev 2) (replicate 2 inhabitant) 0 1).

(** Two pools with the same two paths in different orders. *)
Definition pool_a : list PathSegment :=
  [path_of 0 (mkvec3 1 0 0) 0; path_of 1 (mkvec3 0 1 0) 0].
Definition pool_b : list PathSegment :=
  [path_of 1 (mkvec3 0 1 0) 0; path_of 0 (mkvec3 1 0 0) 0].

End Cases.

(** * Properties *)

(** ** Comparisons and machine integers *)

Lemma Qltb_lt a b : Qltb a b = true <-> (a < b)%Q.
Proof.
  unfold Qltb. rewrite negb_true_iff, <- not_true_iff_false, Qle_bool_iff.
  split; [apply Qnot_le_lt | apply Qlt_not_le].
Qed.

Lemma Qltb_ge a b : Qltb a b = false <-> (b <= a)%Q.
Proof. unfold Qltb. by rewrite negb_false_iff, Qle_bool_iff. Qed.

Lemma to_uint_land z : to_uint z = Z.land z (Z.ones 32).
Proof. unfold to_uint. by rewrite Z.land_ones. Qed.

Lemma to_uint_wrap_int z : to_uint (wrap_int z) = to_uint z.
Proof.
  unfold to_uint, wrap_int. rewrite Zminus_mod_idemp_l. f_equal. lia.
Qed.

Lemma to_uint_lor a b : to_uint (Z.lor a b) = Z.lor (to_uint a) (to_uint b).
Proof. rewrite !to_uint_land. apply Z.land_lor_distr_l. Qed.

Lemma to_uint_idemp z : to_uint (to_uint z) = to_uint z.
Proof. unfold to_uint. apply Z.mod_mod. lia. Qed.

Lemma to_uint_small z : 0 <= z < 2 ^ 32 -> to_uint z = z.
Proof. intros. unfold to_uint. by apply Z.mod_small. Qed.

Lemma lxor_uint_range a b :
  0 <= a < 2 ^ 32 -> 0 <= b < 2 ^ 32 -> 0 <= Z.lxor a b < 2 ^ 32.
Proof.
  intros Ha Hb.
  assert (H0 : 0 <= Z.lxor a b) by (apply Z.lxor_nonneg; lia).
  split; [done|].
  destruct (Z.eq_dec (Z.lxor a b) 0) as [->|Hne]; [lia|].
  apply Z.log2_lt_pow2; [lia|].
  pose proof (Z.log2_lxor a b ltac:(lia) ltac:(lia)) as Hl.
  assert (Z.log2 a < 32).
  { destruct (Z.eq_dec a 0) as [->|]; [simpl; lia|]. apply Z.log2_lt_pow2; lia. }
  assert (Z.log2 b < 32).
  { destruct (Z.eq_dec b 0) as [->|]; [simpl; lia|]. apply Z.log2_lt_pow2; lia. }
  lia.
Qed.

Section Seeding.
Context `{E : Externals}.

Lemma seed_word_range iter index depth : 0 <= seed_word iter index depth < 2 ^ 32.
Proof. apply lxor_uint_range; apply utilhash_range. Qed.

Lemma makeSeededRandomEngine_unfold iter index depth :
  makeSeededRandomEngine iter index depth
  = default_random_engine (seed_word iter index depth).
Proof.
  unfold makeSeededRandomEngine, seed_word.
  rewrite to_uint_wrap_int.
  rewrite (to_uint_small (Z.lxor _ _))
    by (apply lxor_uint_range; apply utilhash_range).
  do 3 f_equal.
  rewrite !to_uint_lor, !to_uint_wrap_int.
  by rewrite (Z.lor_comm (to_uint (Z.shiftl 1 31))).
Qed.

(** C7. For every [(iteration, pixelIndex, depth)] the seed of
    [makeSeededRandomEngine] is the 32-bit word
    [hash((depth << 22) | (1 << 31) | iteration) XOR hash(pixelIndex)], that
    word is what the standard generator is constructed from, and every
    sample sequence drawn from the engine is the sequence of the generator
    seeded with that word, a function of the tuple only. *)
Theorem C7_seed_construction (iter pixelIndex depth : Z) (n : nat) :
  0 <= seed_word iter pixelIndex depth < 2 ^ 32
  /\ makeSeededRandomEngine iter pixelIndex depth
     = default_random_engine (seed_word iter pixelIndex depth)
  /\ draws n (makeSeededRandomEngine iter pixelIndex depth)
     = draws n (default_random_engine (seed_word iter pixelIndex depth)).
Proof.
  split; [apply seed_word_range|].
  by rewrite makeSeededRandomEngine_unfold.
Qed.

End Seeding.

(** ** Kernel launches as slot updates

    A thread that reads and writes one slot of an array is an update of that
    slot; threads on distinct slots do not interfere. *)

Section SlotUpdates.
Context {A B : Type} `{!Inhabited A}.
Variables (slot : B -> nat) (upd : B -> A -> A) (thread : B -> list A -> list A).
Hypothesis thread_spec : forall b l, thread b l = <[slot b := upd b (l !!! slot b)]> l.

Lemma slot_updates_length bs l :
  length (foldl (fun l b => thread b l) l bs) = length l.
Proof.
  revert l. induction bs as [|b bs IH]; intros l; simpl; [done|].
  by rewrite IH, thread_spec, length_insert.
Qed.

Lemma slot_updates_lookup_notin bs l i :
  (forall b, b ∈ bs -> slot b <> i) ->
  foldl (fun l b => thread b l) l bs !! i = l !! i.
Proof.
  revert l. induction bs as [|b bs IH]; intros l Hni; simpl; [done|].
  rewrite IH by (intros b' Hb'; apply Hni; by right).
  rewrite thread_spec. apply list_lookup_insert_ne, Hni. by left.
Qed.

Lemma slot_updates_lookup_in bs l b :
  NoDup (slot <$> bs) -> b ∈ bs ->
  foldl (fun l b => thread b l) l bs !! slot b = upd b <$> l !! slot b.
Proof.
  revert l. induction bs as [|b0 bs IH]; intros l Hnd Hin; [by inversion Hin|].
  simpl in *. apply NoDup_cons in Hnd as [Hb0 Hnd].
  destruct (decide (slot b0 = slot b)) as [Heq|Hne].
  - assert (b = b0) as ->.
    { apply elem_of_cons in Hin as [->|Hin]; [done|].
      exfalso. apply Hb0. rewrite Heq. by apply list_elem_of_fmap_2. }
    rewrite slot_updates_lookup_notin.
    + rewrite thread_spec. destruct (l !! slot b0) as [a|] eqn:Hl.
      * rewrite list_lookup_insert_eq by (by eapply lookup_lt_Some).
        simpl. by rewrite (list_lookup_total_correct _ _ _ Hl).
      * rewrite list_insert_ge by (by apply lookup_ge_None). by rewrite Hl.
    + intros b' Hb' Heq'. apply Hb0. rewrite <- Heq'. by apply list_elem_of_fmap_2.
  - apply elem_of_cons in Hin as [->|Hin]; [done|].
    rewrite IH by done. rewrite thread_spec.
    by rewrite list_lookup_insert_ne.
Qed.

End SlotUpdates.

Lemma blocks_for_covers n b : (0 < b)%nat -> (n <= blocks_for n b * b)%nat.
Proof.
  intros Hb. unfold blocks_for.
  pose proof (Nat.div_mod_eq (n + b - 1) b) as Hdm.
  pose proof (Nat.mod_upper_bound (n + b - 1) b ltac:(lia)) as Hlt.
  nia.
Qed.

Lemma list_insert_lookup_total_id {A} `{!Inhabited A} (l : list A) i :
  <[i := l !!! i]> l = l.
Proof.
  destruct (l !! i) as [a|] eqn:Hl.
  - apply list_insert_id. by rewrite (list_lookup_total_correct _ _ _ Hl).
  - apply list_insert_ge. by apply lookup_ge_None.
Qed.

(** ** The shading kernel *)

Section Shading.
Context `{E : Externals}.

Lemma kernel_sample_f_thread_slot iter depth num_paths isects mats idx paths :
  kernel_sample_f_thread iter depth num_paths isects mats idx paths
  = <[id idx := kernel_sample_f_slot iter depth num_paths isects mats idx
                  (paths !!! id idx)]> paths.
Proof.
  unfold kernel_sample_f_thread, kernel_sample_f_slot, id.
  case_bool_decide; [by rewrite list_insert_lookup_total_id | done].
Qed.

Lemma kernel_sample_f_length grid block iter depth num_paths isects paths mats :
  length (kernel_sample_f grid block iter depth num_paths isects paths mats)
  = length paths.
Proof.
  unfold kernel_sample_f, launch1d.
  apply (slot_updates_length _ _ _
           (kernel_sample_f_thread_slot iter depth num_paths isects mats)).
Qed.

(** A slot the grid covers holds what its thread leaves in it. *)
Lemma kernel_sample_f_lookup_covered grid block iter depth num_paths isects paths mats i :
  (i < grid * block)%nat ->
  kernel_sample_f grid block iter depth num_paths isects paths mats !! i
  = kernel_sample_f_slot iter depth num_paths isects mats i <$> paths !! i.
Proof.
  intros Hg. unfold kernel_sample_f, launch1d.
  apply (slot_updates_lookup_in _ _ _
           (kernel_sample_f_thread_slot iter depth num_paths isects mats)).
  - rewrite list_fmap_id. apply NoDup_seq.
  - apply elem_of_seq. lia.
Qed.

Lemma kernel_sample_f_lookup_uncovered grid block iter depth num_paths isects paths mats i :
  (grid * block <= i)%nat ->
  kernel_sample_f grid block iter depth num_paths isects paths mats !! i = paths !! i.
Proof.
  intros Hg. unfold kernel_sample_f, launch1d.
  apply (slot_updates_lookup_notin _ _ _
           (kernel_sample_f_thread_slot iter depth num_paths isects mats)).
  intros b Hb%elem_of_seq. unfold id. lia.
Qed.

(** A slot in the shaded range that the grid covers holds the value the
    body returns for it. *)
Lemma kernel_sample_f_lookup grid block iter depth num_paths isects paths mats i :
  (i < num_paths)%nat -> (i < grid * block)%nat ->
  kernel_sample_f grid block iter depth num_paths isects paths mats !! i
  = (fun p => (kernel_sample_f_body iter depth mats i (isects !!! i) p).1) <$> paths !! i.
Proof.
  intros Hn Hg. rewrite kernel_sample_f_lookup_covered by done.
  unfold kernel_sample_f_slot. by rewrite bool_decide_eq_false_2 by lia.
Qed.

(** Every slot outside the shaded range keeps its value. *)
Lemma kernel_sample_f_lookup_ge grid block iter depth num_paths isects paths mats i :
  (num_paths <= i)%nat ->
  kernel_sample_f grid block iter depth num_paths isects paths mats !! i = paths !! i.
Proof.
  intros Hn. destruct (decide (i < grid * block)%nat) as [Hg|Hg].
  - rewrite kernel_sample_f_lookup_covered by done.
    unfold kernel_sample_f_slot. rewrite bool_decide_eq_true_2 by lia.
    by destruct (paths !! i).
  - apply kernel_sample_f_lookup_uncovered. lia.
Qed.

Lemma kernel_sample_f_body_dead iter depth mats idx isect path :
  remainingBounces path = 0 ->
  kernel_sample_f_body iter depth mats idx isect path = (path, None).
Proof. intros H. unfold kernel_sample_f_body. by rewrite H. Qed.

(** A terminated segment is not changed by one launch, whatever the
    launch's arguments. *)
Lemma kernel_sample_f_dead grid block iter depth num_paths isects paths mats idx path :
  paths !! idx = Some path -> remainingBounces path = 0 ->
  kernel_sample_f grid block iter depth num_paths isects paths mats !! idx = Some path.
Proof.
  intros Hl Hdead.
  destruct (decide (idx < num_paths)%nat) as [Hn|Hn];
    [destruct (decide (idx < grid * block)%nat) as [Hg|Hg]|].
  - rewrite kernel_sample_f_lookup, Hl by done. simpl.
    by rewrite kernel_sample_f_body_dead.
  - rewrite kernel_sample_f_lookup_uncovered by lia. done.
  - rewrite kernel_sample_f_lookup_ge by lia. done.
Qed.

(** C4. For a live path (remainingBounces not 0, in particular positive) in
    the shaded range whose intersection has [t > 0] and whose material has
    [emittance > 0], the shading launch of [pathtrace] leaves in the path's
    slot the same segment with [color] set to
    materialColor * emittance * accumulated throughput, componentwise, and
    [remainingBounces] set to 0; ray, throughput and pixel index are the old
    ones. *)
Theorem C4_emissive_terminal (iter depth : Z) (num_paths : nat)
    (isects : list Intersection) (paths : list PathSegment) (mats : list Material)
    (idx : nat) (path : PathSegment) :
  paths !! idx = Some path ->
  (idx < num_paths)%nat ->
  remainingBounces path <> 0 ->
  (0 < isect_t (isects !!! idx))%Q ->
  (0 < emittance (mats !!! materialId (isects !!! idx)))%Q ->
  let mat := mats !!! materialId (isects !!! idx) in
  kernel_sample_f (blocks_for num_paths blockSize1d) blockSize1d iter depth
    num_paths isects paths mats !! idx
  = Some {| ray := ray path;
            path_color :=
              mkvec3 (vx (color mat) * emittance mat * vx (accum_throughput path))
                     (vy (color mat) * emittance mat * vy (accum_throughput path))
                     (vz (color mat) * emittance mat * vz (accum_throughput path));
            accum_throughput := accum_throughput path;
            pixelIndex := pixelIndex path;
            remainingBounces := 0 |}.
Proof.
  intros Hl Hn Hlive Ht He mat.
  rewrite kernel_sample_f_lookup, Hl; [|done|].
  - simpl. unfold kernel_sample_f_body.
    apply Z.eqb_neq in Hlive. rewrite Hlive.
    apply Qltb_lt in Ht. rewrite Ht.
    apply Qltb_lt in He. subst mat. rewrite He. done.
  - pose proof (blocks_for_covers num_paths blockSize1d). unfold blockSize1d in *. lia.
Qed.

(** A terminated segment keeps its slot and its value through any sequence
    of shading launches. *)
Lemma kernel_sample_f_launches_dead
    (launches : list (nat * nat * Z * Z * nat * list Intersection * list Material))
    (paths : list PathSegment) (idx : nat) (path : PathSegment) :
  paths !! idx = Some path ->
  remainingBounces path = 0 ->
  foldl (fun ps '(grid, block, iter, depth, num_paths, isects, mats) =>
           kernel_sample_f grid block iter depth num_paths isects ps mats)
        paths launches !! idx
  = Some path.
Proof.
  revert paths. induction launches as [|[[[[[[g b] it] d] n] isc] ms] ls IH];
    intros paths Hl Hdead; simpl; [done|].
  apply IH; [|done]. by apply kernel_sample_f_dead.
Qed.

End Shading.

(** ** The intersection kernel *)

Lemma FLT_MAX_pos : (0 < FLT_MAX)%Q.
Proof. unfold FLT_MAX, Qlt. simpl. lia. Qed.

Section Intersections.
Context `{E : Externals}.
Variables (p : PathSegment) (geoms : list Geom) (tris : list Triangle)
          (bvhNodes : list BVHNode).

(** The loop invariant of [computeIntersections] after [n] passes: the
    reference parameters are those of the [n] tests made, and either nothing
    was recorded, [t_min] is still [FLT_MAX] and no test returned a [t]
    strictly between 0 and [FLT_MAX], or the recorded instance is the first
    one that returned the least positive [t], which is below [FLT_MAX]. *)
Lemma computeIntersections_loop_invariant n :
  let st := foldl (computeIntersections_step p geoms tris bvhNodes)
                  isect_locals_init (seq 0 n) in
  let a := foldl (hits_step (ray p) geoms tris bvhNodes)
                 ([], (Vec3.zero, Vec3.zero, true)) (seq 0 n) in
  length a.1 = n
  /\ (tmp_intersect st, tmp_normal st, outside st) = a.2
  /\ ((hit_geom_index st = -1 /\ t_min st = FLT_MAX
       /\ forall j t n', a.1 !! j = Some (t, n') -> ~ (0 < t /\ t < FLT_MAX)%Q)
      \/ (exists k, hit_geom_index st = Z.of_nat k
          /\ a.1 !! k = Some (t_min st, normal st)
          /\ (0 < t_min st /\ t_min st < FLT_MAX)%Q
          /\ (forall j t n', a.1 !! j = Some (t, n') -> (0 < t)%Q -> (t_min st <= t)%Q)
          /\ (forall j t n', (j < k)%nat -> a.1 !! j = Some (t, n') ->
                (0 < t)%Q -> (t_min st < t)%Q))).
Proof.
  induction n as [|n IH].
  - simpl. split; [done|]. split; [done|]. left. repeat split; try done.
  - rewrite seq_S, !foldl_snoc. simpl in *.
    set (st := foldl _ isect_locals_init (seq 0 n)) in *.
    set (a := foldl _ ([], _) (seq 0 n)) in *.
    destruct IH as (Hlen & Hrefs & IH).
    unfold computeIntersections_step, hits_step. rewrite Hrefs.
    destruct (intersect_geom (geoms !!! n) (ray p) tris bvhNodes a.2)
      as [t [[ti tn] out]] eqn:Hcall.
    assert (Hnew : (a.1 ++ [(t, tn)]) !! n = Some (t, tn)).
    { rewrite lookup_app_r by lia. by rewrite Hlen, Nat.sub_diag. }
    assert (Hlook : forall j t' n', (a.1 ++ [(t, tn)]) !! j = Some (t', n') ->
                      a.1 !! j = Some (t', n') \/ (j = n /\ t' = t /\ n' = tn)).
    { intros j t' n' Hj. destruct (decide (j < n)%nat) as [Hlt|Hge].
      - left. by rewrite lookup_app_l in Hj by lia.
      - right. rewrite lookup_app_r in Hj by lia.
        destruct (j - length a.1)%nat as [|m] eqn:Hm; simpl in Hj; [|done].
        split; [lia|]. by inversion Hj. }
    destruct (Qltb 0 t && Qltb t (t_min st)) eqn:Hcmp; simpl.
    + apply andb_prop in Hcmp as [Hpos Hlt].
      apply Qltb_lt in Hpos. apply Qltb_lt in Hlt.
      split; [rewrite length_app; simpl; lia|]. split; [done|].
      right. exists n. split; [done|]. split; [done|].
      assert (Hmax : (t_min st <= FLT_MAX)%Q).
      { destruct IH as [(_ & -> & _)|(k & _ & _ & [_ Hk] & _)];
          [apply Qle_refl | by apply Qlt_le_weak]. }
      split; [split; [done | by eapply Qlt_le_trans] |].
      assert (Hprev : forall j t' n', a.1 !! j = Some (t', n') -> (0 < t')%Q -> (t < t')%Q).
      { intros j t' n' Hj Hpos'.
        destruct IH as [(_ & Hmin & Hnone)|(k & _ & _ & _ & Hle & _)].
        - destruct (Qlt_le_dec t' FLT_MAX) as [Hin|Hout].
          + exfalso. by apply (Hnone j t' n').
          + rewrite Hmin in Hlt. by eapply Qlt_le_trans.
        - eapply Qlt_le_trans; [done|]. by eapply Hle. }
      split.
      * intros j t' n' Hj Hpos'. apply Hlook in Hj as [Hj|(_ & -> & _)].
        -- apply Qlt_le_weak. by eapply Hprev.
        -- apply Qle_refl.
      * intros j t' n' Hjn Hj Hpos'. apply Hlook in Hj as [Hj|(-> & _)]; [|lia].
        by eapply Hprev.
    + split; [rewrite length_app; simpl; lia|]. split; [done|].
      assert (Hno : (0 < t)%Q -> (t_min st <= t)%Q).
      { intros Hpos. apply Qltb_lt in Hpos. rewrite Hpos in Hcmp. simpl in Hcmp.
        by apply Qltb_ge. }
      destruct IH as [(Hhit & Hmin & Hnone)|(k & Hhit & Hk & Hrange & Hle & Hfirst)].
      * left. split; [done|]. split; [done|].
        intros j t' n' Hj [Hpos' Hin]. apply Hlook in Hj as [Hj|(_ & -> & _)].
        -- by apply (Hnone j t' n').
        -- apply Hno in Hpos'. rewrite Hmin in Hpos'.
           by apply (Qlt_not_le _ _ Hin).
      * right. exists k. split; [done|].
        split; [rewrite lookup_app_l; [done | by eapply lookup_lt_Some]|].
        split; [done|]. split.
        -- intros j t' n' Hj Hpos'. apply Hlook in Hj as [Hj|(_ & -> & _)].
           ++ by eapply Hle.
           ++ by apply Hno.
        -- intros j t' n' Hjk Hj Hpos'. apply Hlook in Hj as [Hj|(-> & _)].
           ++ by eapply Hfirst.
           ++ apply lookup_lt_Some in Hk. lia.
Qed.

End Intersections.

Section IntersectionKernel.
Context `{E : Externals}.

(** The locals after the whole loop, in terms of the tests' results. *)
Lemma computeIntersections_loop_result p geoms n tris bvhNodes :
  let st := computeIntersections_loop p geoms n tris bvhNodes in
  let hits := intersection_results (ray p) geoms n tris bvhNodes in
  (hit_geom_index st = -1
   /\ forall j t n', hits !! j = Some (t, n') -> ~ (0 < t /\ t < FLT_MAX)%Q)
  \/ (exists k, hit_geom_index st = Z.of_nat k
      /\ nearest_hit hits k (t_min st) (normal st)
      /\ (t_min st < FLT_MAX)%Q).
Proof.
  unfold computeIntersections_loop, intersection_results.
  destruct (computeIntersections_loop_invariant p geoms tris bvhNodes n)
    as (_ & _ & [(Hhit & _ & Hnone)|(k & Hhit & Hk & [Hpos Hmax] & Hle & Hfirst)]).
  - left. by split.
  - right. exists k. split; [done|]. split; [|done].
    split; [done|]. split; [done|]. split; [done|].
    intros j t' n' Hjk Hj Heq.
    assert (Hpos' : (0 < t')%Q) by (by rewrite Heq).
    specialize (Hfirst j t' n' Hjk Hj Hpos').
    rewrite Heq in Hfirst. by apply Qlt_irrefl in Hfirst.
Qed.

(** Two nearest hits of the same results are the same instance. *)
Lemma nearest_hit_unique hits k1 t1 n1 k2 t2 n2 :
  nearest_hit hits k1 t1 n1 -> nearest_hit hits k2 t2 n2 ->
  k1 = k2 /\ t1 = t2 /\ n1 = n2.
Proof.
  intros (Hk1 & Hp1 & Hle1 & Hf1) (Hk2 & Hp2 & Hle2 & Hf2).
  assert (Heq : (t1 == t2)%Q).
  { apply Qle_antisym; [by eapply Hle1 | by eapply Hle2]. }
  assert (k1 = k2) as ->.
  { destruct (Nat.lt_trichotomy k1 k2) as [Hlt|[->|Hlt]]; [|done|].
    - exfalso. by apply (Hf2 k1 t1 n1).
    - exfalso. apply (Hf1 k2 t2 n2); [done..|]. by symmetry. }
  rewrite Hk1 in Hk2. by inversion Hk2.
Qed.

Lemma computeIntersections_thread_slot depth num_paths pathSegments geoms geoms_size
    tris tri_size bvhNodes bvhNodes_size path_index intersections :
  computeIntersections_thread depth num_paths pathSegments geoms geoms_size
    tris tri_size bvhNodes bvhNodes_size path_index intersections
  = <[id path_index :=
        computeIntersections_slot num_paths pathSegments geoms geoms_size tris bvhNodes
          path_index (intersections !!! id path_index)]> intersections.
Proof.
  unfold computeIntersections_thread, computeIntersections_slot, id.
  case_bool_decide; [done | by rewrite list_insert_lookup_total_id].
Qed.

Lemma computeIntersections_length grid block depth num_paths pathSegments geoms
    geoms_size tris tri_size bvhNodes bvhNodes_size intersections :
  length (computeIntersections grid block depth num_paths pathSegments geoms geoms_size
            tris tri_size bvhNodes bvhNodes_size intersections)
  = length intersections.
Proof.
  unfold computeIntersections, launch1d.
  apply (slot_updates_length _ _ _
           (computeIntersections_thread_slot depth num_paths pathSegments geoms
              geoms_size tris tri_size bvhNodes bvhNodes_size)).
Qed.

Lemma computeIntersections_lookup grid block depth num_paths pathSegments geoms
    geoms_size tris tri_size bvhNodes bvhNodes_size intersections i :
  (i < num_paths)%nat -> (i < grid * block)%nat ->
  computeIntersections grid block depth num_paths pathSegments geoms geoms_size
    tris tri_size bvhNodes bvhNodes_size intersections !! i
  = write_intersection geoms
      (computeIntersections_loop (pathSegments !!! i) geoms geoms_size tris bvhNodes)
    <$> intersections !! i.
Proof.
  intros Hn Hg. unfold computeIntersections, launch1d.
  pose proof (slot_updates_lookup_in _ _ _
                (computeIntersections_thread_slot depth num_paths pathSegments geoms
                   geoms_size tris tri_size bvhNodes bvhNodes_size)
                (seq 0 (grid * block)) intersections i) as H.
  unfold id in H. rewrite H.
  - unfold computeIntersections_slot. by rewrite bool_decide_eq_true_2 by done.
  - rewrite list_fmap_id. apply NoDup_seq.
  - apply elem_of_seq. lia.
Qed.

(** C3, as the code has it. For the path of a slot in the traced range, let
    [hits] be what the intersection tests of the instances return in index
    order. If the nearest hit (least strictly positive [t], the lower index
    at equal [t]) has [t] below [FLT_MAX], the launch of [pathtrace] writes
    its [t], the normal its test returned and the material id of its
    instance to the slot. If no instance returns a [t] strictly between 0
    and [FLT_MAX], it writes [t = -1] and leaves normal and material id as
    they were. Whenever some instance returns a [t] strictly between 0 and
    [FLT_MAX], a nearest hit below [FLT_MAX] exists. *)
Theorem C3_nearest_hit (depth : Z) (num_paths : nat) (pathSegments : list PathSegment)
    (geoms : list Geom) (tris : list Triangle) (bvhNodes : list BVHNode)
    (intersections : list Intersection) (path_index : nat) (old : Intersection) :
  intersections !! path_index = Some old ->
  (path_index < num_paths)%nat ->
  let hits := intersection_results (ray (pathSegments !!! path_index)) geoms
                (length geoms) tris bvhNodes in
  let out := computeIntersections (blocks_for num_paths blockSize1d) blockSize1d
               depth num_paths pathSegments geoms (length geoms)
               tris (length tris) bvhNodes (length bvhNodes) intersections in
  (forall k t n, nearest_hit hits k t n -> (t < FLT_MAX)%Q ->
     out !! path_index
     = Some {| isect_t := t; surfaceNormal := n; materialId := materialid (geoms !!! k) |})
  /\ ((forall j t n, hits !! j = Some (t, n) -> ~ (0 < t /\ t < FLT_MAX)%Q) ->
      out !! path_index
      = Some {| isect_t := -1; surfaceNormal := surfaceNormal old;
                materialId := materialId old |})
  /\ ((exists j t n, hits !! j = Some (t, n) /\ (0 < t /\ t < FLT_MAX)%Q) ->
      exists k t n, nearest_hit hits k t n /\ (t < FLT_MAX)%Q).
Proof.
  intros Hold Hn hits out.
  assert (Hout : out !! path_index
                 = Some (write_intersection geoms
                           (computeIntersections_loop (pathSegments !!! path_index)
                              geoms (length geoms) tris bvhNodes) old)).
  { unfold out. rewrite computeIntersections_lookup, Hold; [done..|].
    pose proof (blocks_for_covers num_paths blockSize1d). unfold blockSize1d in *. lia. }
  pose proof (computeIntersections_loop_result (pathSegments !!! path_index)
                geoms (length geoms) tris bvhNodes) as Hres.
  simpl in Hres. fold hits in Hres.
  set (st := computeIntersections_loop _ _ _ _ _) in *.
  split; [|split].
  - intros k t n Hnear Hmax. rewrite Hout. f_equal.
    destruct Hres as [[_ Hnone]|(k' & Hhit & Hnear' & _)].
    + exfalso. destruct Hnear as (Hk & Hpos & _). by apply (Hnone k t n).
    + destruct (nearest_hit_unique _ _ _ _ _ _ _ Hnear Hnear') as (-> & -> & ->).
      unfold write_intersection. rewrite Hhit.
      rewrite (proj2 (Z.eqb_neq _ _)) by lia. by rewrite Nat2Z.id.
  - intros Hnone. rewrite Hout. f_equal.
    destruct Hres as [[Hhit _]|(k' & _ & (Hk & Hpos & _) & Hmax)].
    + unfold write_intersection. by rewrite Hhit.
    + exfalso. by apply (Hnone k' _ _ Hk).
  - intros (j & t & n & Hj & Hin).
    destruct Hres as [[_ Hnone]|(k' & _ & Hnear & Hmax)].
    + exfalso. by apply (Hnone j t n).
    + by exists k', (t_min st), (normal st).
Qed.

End IntersectionKernel.

(** ** Launches with an index guard *)

Lemma foldl_guard_id {S : Type} (thread : nat -> S -> S) n (l : list nat) s :
  (forall i s, (n <= i)%nat -> thread i s = s) ->
  Forall (fun i => (n <= i)%nat) l ->
  foldl (fun s i => thread i s) s l = s.
Proof.
  intros Hid Hl. revert s. induction Hl as [|i l Hi Hl IH]; intros s; simpl; [done|].
  by rewrite Hid, IH.
Qed.

(** Threads whose index fails the guard do nothing, so a launch that covers
    [n] indices is the run of the first [n] threads. *)
Lemma launch1d_guarded {S : Type} grid block (thread : nat -> S -> S) n s :
  (forall i s, (n <= i)%nat -> thread i s = s) ->
  (n <= grid * block)%nat ->
  launch1d grid block thread s = foldl (fun s i => thread i s) s (seq 0 n).
Proof.
  intros Hid Hn. unfold launch1d.
  replace (grid * block)%nat with (n + (grid * block - n))%nat by lia.
  rewrite seq_app, foldl_app. apply (foldl_guard_id thread n); [done|].
  apply Forall_forall. intros i Hi%elem_of_seq. lia.
Qed.

Lemma fmap_lookup_total_seq {A B : Type} `{!Inhabited A} (f : A -> B) (l : list A) :
  (fun b => f (l !!! b)) <$> seq 0 (length l) = f <$> l.
Proof.
  apply list_eq. intros i. rewrite !list_lookup_fmap.
  destruct (decide (i < length l)%nat) as [Hi|Hi].
  - rewrite lookup_seq_lt by done. simpl.
    destruct (lookup_lt_is_Some_2 l i Hi) as [x Hx].
    by rewrite Hx, (list_lookup_total_correct _ _ _ Hx).
  - rewrite lookup_seq_ge by lia. by rewrite lookup_ge_None_2 by lia.
Qed.

(** ** The accumulator *)

Lemma finalGather_thread_slot nPaths nIters iterationPaths index image :
  finalGather_thread nPaths nIters iterationPaths index image
  = <[pixelIndex (iterationPaths !!! index) :=
        finalGather_slot nPaths nIters iterationPaths index
          (image !!! pixelIndex (iterationPaths !!! index))]> image.
Proof.
  unfold finalGather_thread, finalGather_slot.
  case_bool_decide; [done | by rewrite list_insert_lookup_total_id].
Qed.

Lemma finalGather_unfold grid block nIters image pool :
  (length pool <= grid * block)%nat ->
  finalGather grid block (length pool) nIters image pool
  = foldl (fun img i => finalGather_thread (length pool) nIters pool i img)
          image (seq 0 (length pool)).
Proof.
  intros Hg. unfold finalGather. apply launch1d_guarded; [|done].
  intros i s Hi. unfold finalGather_thread. by rewrite bool_decide_eq_false_2 by lia.
Qed.

Lemma finalGather_length grid block nPaths nIters image pool :
  length (finalGather grid block nPaths nIters image pool) = length image.
Proof.
  unfold finalGather, launch1d.
  apply (slot_updates_length _ _ _ (finalGather_thread_slot nPaths nIters pool)).
Qed.

Lemma pixel_estimate_at pool b s :
  NoDup (pixelIndex <$> pool) -> pool !! b = Some s ->
  pixel_estimate pool (pixelIndex s) = path_color s.
Proof.
  intros Hnd Hb. unfold pixel_estimate.
  destruct (list_find _ pool) as [[i s']|] eqn:Hf.
  - apply list_find_Some in Hf as (Hi & Hp & _).
    assert (i = b) as ->.
    { eapply NoDup_lookup; [done| |]; rewrite list_lookup_fmap.
      - by rewrite Hi.
      - rewrite Hb. simpl. by rewrite Hp. }
    rewrite Hi in Hb. by inversion Hb.
  - apply list_find_None in Hf. exfalso.
    eapply (proj1 (Forall_lookup _ _) Hf); done.
Qed.

(** One accumulation on a pool that holds one path for each pixel: every
    pixel is mixed once with its estimate. *)
Lemma finalGather_pixel pixelcount nIters image pool p :
  pixelIndex <$> pool ≡ₚ seq 0 pixelcount ->
  (p < pixelcount)%nat ->
  finalGather (blocks_for pixelcount blockSize1d) blockSize1d pixelcount nIters
    image pool !! p
  = (fun old => Vec3.mix old (pixel_estimate pool p) (1 / inject_Z nIters)) <$> image !! p.
Proof.
  intros Hperm Hp.
  assert (Hlen : length pool = pixelcount).
  { apply Permutation_length in Hperm. by rewrite length_fmap, length_seq in Hperm. }
  assert (Hnd : NoDup (pixelIndex <$> pool)) by (rewrite Hperm; apply NoDup_seq).
  assert (Hin : p ∈ pixelIndex <$> pool) by (rewrite Hperm; apply elem_of_seq; lia).
  apply list_elem_of_fmap in Hin as (s & -> & Hs).
  apply list_elem_of_lookup in Hs as [b Hb].
  rewrite <- Hlen. rewrite finalGather_unfold.
  2:{ pose proof (blocks_for_covers (length pool) blockSize1d).
      unfold blockSize1d in *. lia. }
  pose proof (slot_updates_lookup_in _ _ _
                (finalGather_thread_slot (length pool) nIters pool)
                (seq 0 (length pool)) image b) as H.
  simpl in H. rewrite (list_lookup_total_correct _ _ _ Hb) in H.
  rewrite H.
  - unfold finalGather_slot.
    rewrite bool_decide_eq_true_2 by (by eapply lookup_lt_Some).
    rewrite (list_lookup_total_correct _ _ _ Hb).
    by rewrite (pixel_estimate_at pool b s).
  - by rewrite fmap_lookup_total_seq.
  - apply elem_of_seq. apply lookup_lt_Some in Hb. lia.
Qed.

Lemma mix1_step (x e s : Q) (k : nat) :
  (x * inject_Z (Z.of_nat k) == s)%Q ->
  (Vec3.mix1 x e (1 / inject_Z (Z.of_nat k + 1)) * inject_Z (Z.of_nat k + 1) == s + e)%Q.
Proof.
  intros Hs. unfold Vec3.mix1. rewrite <- Hs.
  assert (HK : (inject_Z (Z.of_nat k + 1) == inject_Z (Z.of_nat k) + 1)%Q)
    by (rewrite inject_Z_plus; reflexivity).
  assert (Hne : ~ (inject_Z (Z.of_nat k) + 1 == 0)%Q).
  { rewrite <- HK. unfold Qeq. simpl. lia. }
  rewrite HK. field. exact Hne.
Qed.

Lemma accumulate_length pixelcount iter image pools :
  length (accumulate pixelcount iter image pools) = length image.
Proof.
  revert iter image. induction pools as [|pool pools IH]; intros iter image; simpl; [done|].
  by rewrite IH, finalGather_length.
Qed.

(** The invariant of the accumulation: if every pixel of the image, times
    the number [k] of iterations made, is the sum [sums] of its estimates so
    far, then after the iterations [k + 1, ...] on [pools] every pixel,
    times the number of all iterations, is the sum of all its estimates. *)
Lemma accumulate_invariant pixelcount pools :
  forall (k : nat) (image : list vec3) (sums : nat -> vec3),
  Forall (fun pool => pixelIndex <$> pool ≡ₚ seq 0 pixelcount) pools ->
  length image = pixelcount ->
  (forall p, (p < pixelcount)%nat ->
     Vec3.equiv (Vec3.scale (image !!! p) (inject_Z (Z.of_nat k))) (sums p)) ->
  forall p, (p < pixelcount)%nat ->
    Vec3.equiv
      (Vec3.scale (accumulate pixelcount (Z.of_nat k + 1) image pools !!! p)
                  (inject_Z (Z.of_nat (k + length pools))))
      (Vec3.add (sums p) (vsum ((fun pool => pixel_estimate pool p) <$> pools))).
Proof.
  induction pools as [|pool pools IH]; intros k image sums Hperm Hlen Hinv p Hp.
  - simpl. rewrite Nat.add_0_r. destruct (Hinv p Hp) as (Hx & Hy & Hz).
    unfold Vec3.equiv, Vec3.add, Vec3.scale in *. simpl in *.
    rewrite Hx, Hy, Hz. repeat split; ring.
  - apply Forall_cons in Hperm as [Hpool Hperm]. cbn [accumulate length].
    replace (Z.of_nat k + 1 + 1) with (Z.of_nat (S k) + 1) by lia.
    replace (k + S (length pools))%nat with (S k + length pools)%nat by lia.
    set (image' := finalGather _ _ _ _ image pool).
    specialize (IH (S k) image'
                  (fun q => Vec3.add (sums q) (pixel_estimate pool q)) Hperm).
    assert (Hlen' : length image' = pixelcount)
      by (unfold image'; by rewrite finalGather_length).
    assert (Hinv' : forall q, (q < pixelcount)%nat ->
              Vec3.equiv (Vec3.scale (image' !!! q) (inject_Z (Z.of_nat (S k))))
                         (Vec3.add (sums q) (pixel_estimate pool q))).
    { intros q Hq.
      assert (Hq' : image' !!! q
                    = Vec3.mix (image !!! q) (pixel_estimate pool q)
                               (1 / inject_Z (Z.of_nat k + 1))).
      { apply list_lookup_total_correct. unfold image'.
        rewrite finalGather_pixel by done.
        destruct (lookup_lt_is_Some_2 image q ltac:(lia)) as [v Hv].
        by rewrite Hv, (list_lookup_total_correct _ _ _ Hv). }
      rewrite Hq'. destruct (Hinv q Hq) as (Hx & Hy & Hz).
      replace (Z.of_nat (S k)) with (Z.of_nat k + 1) by lia.
      unfold Vec3.equiv, Vec3.add, Vec3.scale, Vec3.mix in *. simpl in *.
      repeat split; by apply mix1_step. }
    specialize (IH Hlen' Hinv' p Hp).
    destruct IH as (Hx & Hy & Hz).
    unfold Vec3.equiv, Vec3.add, Vec3.scale in *. simpl in *.
    rewrite Hx, Hy, Hz. repeat split; symmetry; apply Qplus_assoc.
Qed.

(** A color whose [N]-fold is a sum is the sum times [1 / N]. *)
Lemma mean_of_scaled (r s : vec3) (N : nat) :
  (0 < N)%nat ->
  Vec3.equiv (Vec3.scale r (inject_Z (Z.of_nat N))) (Vec3.add Vec3.zero s) ->
  Vec3.equiv r (Vec3.scale s (1 / inject_Z (Z.of_nat N))).
Proof.
  intros HN (Hx & Hy & Hz).
  assert (HNz : ~ (inject_Z (Z.of_nat N) == 0)%Q).
  { unfold Qeq. simpl. lia. }
  unfold Vec3.equiv, Vec3.add, Vec3.scale, Vec3.zero in *. simpl in *.
  set (K := inject_Z _) in *.
  repeat split.
  - transitivity (vx r * K * (1 / K))%Q; [field; exact HNz | rewrite Hx; ring].
  - transitivity (vy r * K * (1 / K))%Q; [field; exact HNz | rewrite Hy; ring].
  - transitivity (vz r * K * (1 / K))%Q; [field; exact HNz | rewrite Hz; ring].
Qed.

(** The zeroed image satisfies the invariant before the first iteration. *)
Lemma zero_image_invariant pixelcount q :
  (q < pixelcount)%nat ->
  Vec3.equiv (Vec3.scale (replicate pixelcount Vec3.zero !!! q) (inject_Z (Z.of_nat 0)))
             Vec3.zero.
Proof.
  intros Hq. rewrite lookup_total_replicate_2 by done.
  unfold Vec3.equiv, Vec3.scale, Vec3.zero. simpl. repeat split; ring.
Qed.

(** The recurrence in exact arithmetic: with operations that do not round,
    from the zeroed image, after the accumulations of the iterations
    [1 .. N] (N at least 1), each on a pool that holds one path for each
    pixel, the value of every pixel is the arithmetic mean of its N color
    estimates. The operations of binary32 round, and the values the code
    stores are those of the next section. *)
Lemma running_mean_exact (pixelcount : nat) (pools : list (list PathSegment)) (p : nat) :
  pools <> [] ->
  (p < pixelcount)%nat ->
  Forall (fun pool => pixelIndex <$> pool ≡ₚ seq 0 pixelcount) pools ->
  Vec3.equiv
    (accumulate pixelcount 1 (replicate pixelcount Vec3.zero) pools !!! p)
    (Vec3.scale (vsum ((fun pool => pixel_estimate pool p) <$> pools))
                (1 / inject_Z (Z.of_nat (length pools)))).
Proof.
  intros Hne Hp Hperm.
  apply mean_of_scaled; [destruct pools; [done | simpl; lia]|].
  apply (accumulate_invariant pixelcount pools 0 (replicate pixelcount Vec3.zero)
           (fun _ => Vec3.zero)); [done | apply length_replicate | | done].
  intros q Hq. by apply zero_image_invariant.
Qed.

(** ** The accumulator in binary32 *)

Section Binary32Accumulation.
Variables (mix : Q -> Q -> Q -> Q) (inv : Z -> Q).







End Binary32Accumulation.

(** With the exact operations, these are the accumulator of the kernels. *)
Lemma finalGather_with_exact grid block nPaths nIters image pool :
  finalGather_with Vec3.mix1 (fun n => (1 / inject_Z n)%Q) grid block nPaths nIters image pool
  = finalGather grid block nPaths nIters image pool.
Proof. reflexivity. Qed.

Lemma accumulate_with_exact pixelcount pools : forall iter image,
  accumulate_with Vec3.mix1 (fun n => (1 / inject_Z n)%Q) pixelcount iter image pools
  = accumulate pixelcount iter image pools.
Proof.
  induction pools as [|pool pools IH]; intros iter image; [done|].
  cbn [accumulate_with accumulate]. by rewrite IH, finalGather_with_exact.
Qed.

(** *** The values of binary32 and the rounding *)














(** ** Two-dimensional launches *)

Lemma foldl_ext_in {S B : Type} (f g : S -> B -> S) (l : list B) s :
  (forall s b, b ∈ l -> f s b = g s b) -> foldl f s l = foldl g s l.
Proof.
  revert s. induction l as [|b l IH]; intros s Hfg; simpl; [done|].
  rewrite Hfg by (by left). apply IH. intros s' b' Hb'. apply Hfg. by right.
Qed.

Lemma foldl_bind {S B C : Type} (f : S -> C -> S) (g : B -> list C) (l : list B) s :
  foldl f s (l ≫= g) = foldl (fun s b => foldl f s (g b)) s l.
Proof.
  revert s. induction l as [|b l IH]; intros s; [done|].
  by rewrite bind_cons, foldl_app, IH.
Qed.

(** A two-dimensional launch whose threads do nothing outside the guard
    [x < W && y < H], on a grid that covers the [W] by [H] pixels, is the run
    of the threads of the pixels, row by row. *)
Lemma launch2d_pixels {S : Type} grid block W H (thread : nat -> nat -> S -> S) s :
  (forall x y s, ~ (x < W /\ y < H)%nat -> thread x y s = s) ->
  (W <= grid.1 * block.1)%nat -> (H <= grid.2 * block.2)%nat ->
  launch2d grid block thread s
  = foldl (fun s xy => thread xy.1 xy.2 s) s (pixel_threads W H).
Proof.
  intros Hid HW HH. unfold launch2d, pixel_threads.
  rewrite foldl_bind.
  pose proof (launch1d_guarded (grid.2) (block.2)
                (fun y s => foldl (fun s x => thread x y s) s (seq 0 (grid.1 * block.1)))
                H s) as Hout.
  unfold launch1d in Hout. rewrite Hout; [|  |done].
  - apply foldl_ext_in. intros s' y Hy%elem_of_seq.
    rewrite foldl_fmap. simpl.
    pose proof (launch1d_guarded (grid.1) (block.1) (fun x s => thread x y s) W s') as Hin.
    unfold launch1d in Hin. apply Hin; [|done].
    intros x s'' Hx. apply Hid. lia.
  - intros y s' Hy. apply (foldl_guard_id (fun x s => thread x y s) 0%nat).
    + intros x s'' _. apply Hid. lia.
    + apply Forall_forall. intros; lia.
Qed.

Lemma pixel_slot_threads W H : pixel_slot W <$> pixel_threads W H = seq 0 (H * W).
Proof.
  unfold pixel_threads. induction H as [|H IH]; [done|].
  rewrite seq_S, bind_app, fmap_app, IH, bind_singleton. simpl.
  replace (W + H * W)%nat with (H * W + W)%nat by lia.
  rewrite seq_app. f_equal. simpl.
  rewrite <- list_fmap_compose.
  replace (seq (H * W) W) with (Nat.add (H * W) <$> seq 0 W)
    by (rewrite fmap_add_seq; f_equal; lia).
  apply list_fmap_ext. intros i x _. unfold pixel_slot. simpl. lia.
Qed.

Lemma elem_of_pixel_threads W H x y :
  (x, y) ∈ pixel_threads W H <-> (x < W /\ y < H)%nat.
Proof.
  unfold pixel_threads. rewrite list_elem_of_bind. split.
  - intros (y' & Hx & Hy). apply list_elem_of_fmap in Hx as (x' & Heq & Hx').
    inversion Heq; subst. apply elem_of_seq in Hx', Hy. lia.
  - intros [Hx Hy]. exists y. split; [|apply elem_of_seq; lia].
    apply list_elem_of_fmap. exists x. split; [done|]. apply elem_of_seq. lia.
Qed.

(** ** The display kernel *)


Section Display.
Context `{E : Externals}.

Lemma sendImageToPBO_thread_image cfg res iter x y pbo image :
  (sendImageToPBO_thread cfg res iter x y (pbo, image)).2 = image.
Proof. unfold sendImageToPBO_thread. by destruct (_ && _). Qed.

Lemma sendImageToPBO_thread_slot cfg res iter image xy pbo :
  (sendImageToPBO_thread cfg res iter xy.1 xy.2 (pbo, image)).1
  = <[pixel_slot res.1 xy :=
        sendImageToPBO_slot cfg res image xy (pbo !!! pixel_slot res.1 xy)]> pbo.
Proof.
  unfold sendImageToPBO_thread, sendImageToPBO_slot, pixel_slot, pbo_pixel. simpl.
  destruct (_ && _); simpl; [done | by rewrite list_insert_lookup_total_id].
Qed.

(** The threads pass the image on unchanged, so a run of threads is a run
    of updates of the pixel buffer. *)
Lemma sendImageToPBO_threads_split cfg res iter image (l : list (nat * nat)) pbo :
  foldl (fun mem xy => sendImageToPBO_thread cfg res iter xy.1 xy.2 mem) (pbo, image) l
  = (foldl (fun pbo xy => (sendImageToPBO_thread cfg res iter xy.1 xy.2 (pbo, image)).1)
           pbo l, image).
Proof.
  revert pbo. induction l as [|xy l IH]; intros pbo; [done|].
  cbn [foldl]. rewrite <- IH. f_equal.
  rewrite (surjective_pairing (sendImageToPBO_thread cfg res iter xy.1 xy.2 (pbo, image)))
    at 1.
  by rewrite sendImageToPBO_thread_image.
Qed.

Lemma sendImageToPBO_unfold cfg W H pbo iter image :
  sendImageToPBO cfg (blocks_for W blockSize2d.1, blocks_for H blockSize2d.2)
    blockSize2d pbo (W, H) iter image
  = (foldl (fun pbo xy => (sendImageToPBO_thread cfg (W, H) iter xy.1 xy.2 (pbo, image)).1)
           pbo (pixel_threads W H), image).
Proof.
  unfold sendImageToPBO.
  rewrite (launch2d_pixels _ _ W H).
  - apply sendImageToPBO_threads_split.
  - intros x y [pbo' image'] Hxy. unfold sendImageToPBO_thread. simpl.
    destruct (bool_decide (x < W)%nat) eqn:Hx, (bool_decide (y < H)%nat) eqn:Hy;
      simpl; try done.
    apply bool_decide_eq_true in Hx, Hy. lia.
  - apply (blocks_for_covers W 8). lia.
  - apply (blocks_for_covers H 8). lia.
Qed.


End Display.

(** ** Camera-ray generation *)

Section CameraRays.
Context `{E : Externals}.

Lemma camera_segment_fields cfg cam iter traceDepth x y :
  let seg := camera_segment cfg cam iter traceDepth x y in
  accum_throughput seg = mkvec3 1 1 1
  /\ path_color seg = mkvec3 0 0 0
  /\ remainingBounces seg = traceDepth
  /\ pixelIndex seg = (x + y * (resolution cam).1)%nat.
Proof.
  unfold camera_segment.
  destruct (CACHE_FIRST_INTERSECTION cfg); repeat destruct (u01 _);
    destruct (Qltb 0 (apertureSize cam)); repeat destruct (u01 _); done.
Qed.

Lemma camera_segment_pinhole cfg cam iter traceDepth x y :
  (apertureSize cam <= 0)%Q ->
  origin (ray (camera_segment cfg cam iter traceDepth x y)) = position cam.
Proof.
  intros Ha%Qltb_ge. unfold camera_segment. rewrite Ha.
  destruct (CACHE_FIRST_INTERSECTION cfg); repeat destruct (u01 _); done.
Qed.

Lemma camera_segment_lens cfg cam iter traceDepth x y :
  (0 < apertureSize cam)%Q ->
  let ds := draws 4 (makeSeededRandomEngine iter
                       (Z.of_nat (x + y * (resolution cam).1)) traceDepth) in
  let k := if CACHE_FIRST_INTERSECTION cfg then 0%nat else 2%nat in
  origin (ray (camera_segment cfg cam iter traceDepth x y))
  = cameraToWorld
      (Vec3.lscale (apertureSize cam)
         (squareToDiskConcentric (lens_sample (ds !!! k) (ds !!! S k))))
      cam.
Proof.
  intros Ha%Qltb_lt. unfold camera_segment, generateRayFromCamera_rng, draws. rewrite Ha.
  set (rng := makeSeededRandomEngine _ _ _).
  destruct (CACHE_FIRST_INTERSECTION cfg).
  - destruct (u01 rng) as [a r1]. destruct (u01 r1) as [b r2].
    destruct (u01 r2) as [c r3]. destruct (u01 r3) as [d r4]. done.
  - destruct (u01 rng) as [a r1]. destruct (u01 r1) as [b r2].
    destruct (u01 r2) as [c r3]. destruct (u01 r3) as [d r4]. done.
Qed.

Lemma generateRayFromCamera_thread_slot cfg cam iter traceDepth xy pathSegments :
  generateRayFromCamera_thread cfg cam iter traceDepth xy.1 xy.2 pathSegments
  = <[pixel_slot (resolution cam).1 xy :=
        generateRayFromCamera_slot cfg cam iter traceDepth xy
          (pathSegments !!! pixel_slot (resolution cam).1 xy)]> pathSegments.
Proof.
  unfold generateRayFromCamera_thread, generateRayFromCamera_slot, pixel_slot.
  destruct (_ && _); [done | by rewrite list_insert_lookup_total_id].
Qed.

Lemma generateRayFromCamera_unfold cfg cam iter traceDepth pathSegments :
  generateRayFromCamera cfg
    (blocks_for (resolution cam).1 blockSize2d.1, blocks_for (resolution cam).2 blockSize2d.2)
    blockSize2d cam iter traceDepth pathSegments
  = foldl (fun ps xy => generateRayFromCamera_thread cfg cam iter traceDepth xy.1 xy.2 ps)
          pathSegments (pixel_threads (resolution cam).1 (resolution cam).2).
Proof.
  unfold generateRayFromCamera. apply launch2d_pixels.
  - intros x y ps Hxy. unfold generateRayFromCamera_thread.
    destruct (bool_decide (x < _)%nat) eqn:Hx, (bool_decide (y < _)%nat) eqn:Hy;
      simpl; try done.
    apply bool_decide_eq_true in Hx, Hy. lia.
  - apply (blocks_for_covers _ 8). lia.
  - apply (blocks_for_covers _ 8). lia.
Qed.

Lemma generateRayFromCamera_length cfg cam iter traceDepth pathSegments :
  length (generateRayFromCamera cfg
            (blocks_for (resolution cam).1 blockSize2d.1,
             blocks_for (resolution cam).2 blockSize2d.2)
            blockSize2d cam iter traceDepth pathSegments)
  = length pathSegments.
Proof.
  rewrite generateRayFromCamera_unfold.
  apply (slot_updates_length _ _ _
           (generateRayFromCamera_thread_slot cfg cam iter traceDepth)).
Qed.

(** The slot of a pixel holds the segment its thread builds. *)
Lemma generateRayFromCamera_lookup cfg cam iter traceDepth pathSegments x y :
  (x < (resolution cam).1)%nat -> (y < (resolution cam).2)%nat ->
  (x + y * (resolution cam).1 < length pathSegments)%nat ->
  generateRayFromCamera cfg
    (blocks_for (resolution cam).1 blockSize2d.1, blocks_for (resolution cam).2 blockSize2d.2)
    blockSize2d cam iter traceDepth pathSegments !! (x + y * (resolution cam).1)%nat
  = Some (camera_segment cfg cam iter traceDepth x y).
Proof.
  intros Hx Hy Hlen. rewrite generateRayFromCamera_unfold.
  pose proof (slot_updates_lookup_in _ _ _
                (generateRayFromCamera_thread_slot cfg cam iter traceDepth)
                (pixel_threads (resolution cam).1 (resolution cam).2)
                pathSegments (x, y)) as Hl.
  change (pixel_slot (resolution cam).1 (x, y))
    with (x + y * (resolution cam).1)%nat in Hl.
  rewrite Hl.
  - destruct (lookup_lt_is_Some_2 pathSegments _ Hlen) as [old Hold]. rewrite Hold.
    unfold generateRayFromCamera_slot. cbn [fst snd fmap option_fmap option_map].
    by rewrite !bool_decide_eq_true_2 by done.
  - rewrite pixel_slot_threads. apply NoDup_seq.
  - by apply elem_of_pixel_threads.
Qed.

(** C5, as the code has it. The launch of [generateRayFromCamera] that
    [pathtrace] makes leaves in the slot [x + y * W] of every pixel [(x, y)] a
    segment with throughput (1,1,1), color (0,0,0), [remainingBounces] equal
    to the trace depth and [pixelIndex] equal to [x + y * W]. Its ray origin
    is the camera position when the aperture is not positive (zero or
    negative); when the aperture is positive it is the lens point: the
    concentric disk sample of two consecutive draws of the pixel's engine
    (the third and fourth draw, the first and second when the first-bounce
    cache switches the jitter off), scaled by the aperture and taken to
    world space. The earlier of the two draws is the first coordinate of
    the sample when the compiled code evaluates the arguments of
    [glm::vec2(u01(rng), u01(rng))] from the left, and the second coordinate
    when it evaluates them from the right. *)
Theorem C5_camera_rays (cfg : Toggles) (cam : Camera) (iter traceDepth : Z)
    (pathSegments : list PathSegment) (x y : nat) :
  (x < (resolution cam).1)%nat -> (y < (resolution cam).2)%nat ->
  (x + y * (resolution cam).1 < length pathSegments)%nat ->
  let index := (x + y * (resolution cam).1)%nat in
  let out := generateRayFromCamera cfg
               (blocks_for (resolution cam).1 blockSize2d.1,
                blocks_for (resolution cam).2 blockSize2d.2)
               blockSize2d cam iter traceDepth pathSegments in
  exists seg,
    out !! index = Some seg
    /\ accum_throughput seg = mkvec3 1 1 1
    /\ path_color seg = mkvec3 0 0 0
    /\ remainingBounces seg = traceDepth
    /\ pixelIndex seg = index
    /\ ((apertureSize cam <= 0)%Q -> origin (ray seg) = position cam)
    /\ ((0 < apertureSize cam)%Q ->
        let ds := draws 4 (makeSeededRandomEngine iter (Z.of_nat index) traceDepth) in
        let k := if CACHE_FIRST_INTERSECTION cfg then 0%nat else 2%nat in
        let xi := if vec2_right_to_left
                  then mkvec2 (ds !!! S k) (ds !!! k)
                  else mkvec2 (ds !!! k) (ds !!! S k) in
        origin (ray seg)
        = cameraToWorld
            (Vec3.lscale (apertureSize cam) (squareToDiskConcentric xi)) cam).
Proof.
  intros Hx Hy Hlen index out.
  exists (camera_segment cfg cam iter traceDepth x y).
  split; [by apply generateRayFromCamera_lookup|].
  destruct (camera_segment_fields cfg cam iter traceDepth x y) as (Ht & Hc & Hr & Hp).
  repeat split; try done.
  - apply camera_segment_pinhole.
  - apply camera_segment_lens.
Qed.

End CameraRays.

(** ** The thrust algorithms *)

Lemma insert_by_key_perm kv l : insert_by_key kv l ≡ₚ kv :: l.
Proof.
  induction l as [|kv' l IH]; simpl; [done|].
  destruct (sortByMaterialId _ _); [|done].
  rewrite IH. apply Permutation_swap.
Qed.

Lemma sort_by_key_perm l : foldr insert_by_key [] l ≡ₚ l.
Proof.
  induction l as [|kv l IH]; simpl; [done|].
  by rewrite insert_by_key_perm, IH.
Qed.

Lemma stable_sort_by_key_length n keys values :
  (n <= length keys)%nat -> (n <= length values)%nat ->
  length (stable_sort_by_key n keys values).1 = length keys
  /\ length (stable_sort_by_key n keys values).2 = length values.
Proof.
  intros Hk Hv. unfold stable_sort_by_key. simpl.
  pose proof (Permutation_length (sort_by_key_perm (zip (take n keys) (take n values)))) as Hl.
  rewrite length_zip, !length_take in Hl.
  rewrite !length_app, !length_fmap, !length_drop, Hl. lia.
Qed.

Lemma stable_sort_by_key_drop n keys values :
  (n <= length keys)%nat -> (n <= length values)%nat ->
  drop n (stable_sort_by_key n keys values).2 = drop n values.
Proof.
  intros Hk Hv. unfold stable_sort_by_key. simpl.
  apply drop_app_length'.
  pose proof (Permutation_length (sort_by_key_perm (zip (take n keys) (take n values)))) as Hl.
  rewrite length_zip, !length_take in Hl. rewrite length_fmap, Hl. lia.
Qed.

Lemma stable_sort_by_key_perm n keys values :
  (n <= length keys)%nat -> (n <= length values)%nat ->
  (stable_sort_by_key n keys values).2 ≡ₚ values.
Proof.
  intros Hk Hv. unfold stable_sort_by_key. simpl.
  rewrite sort_by_key_perm, snd_zip by (rewrite !length_take; lia).
  by rewrite take_drop.
Qed.

Lemma filter_all {A : Type} (f : A -> bool) (l : list A) :
  Forall (fun x => f x = true) l -> List.filter f l = l.
Proof.
  induction 1 as [|x l Hx Hl IH]; simpl; [done|]. by rewrite Hx, IH.
Qed.

Lemma filter_none {A : Type} (f : A -> bool) (l : list A) :
  Forall (fun x => f x = false) l -> List.filter f l = [].
Proof.
  induction 1 as [|x l Hx Hl IH]; simpl; [done|]. by rewrite Hx, IH.
Qed.

Lemma Forall_filter_true {A : Type} (f : A -> bool) (l : list A) :
  Forall (fun x => f x = true) (List.filter f l).
Proof.
  apply Forall_forall. intros x Hx%list_elem_of_In%filter_In. tauto.
Qed.

Lemma notEquals_0_true p : notEquals 0 p = true <-> remainingBounces p <> 0.
Proof. unfold notEquals. rewrite negb_true_iff. apply Z.eqb_neq. Qed.

Lemma notEquals_0_false p : notEquals 0 p = false <-> remainingBounces p = 0.
Proof. unfold notEquals. rewrite negb_false_iff. apply Z.eqb_eq. Qed.

(** On a pool whose slots from [n] on are terminated, the partition of the
    first [n] slots is the stable partition of the whole pool. *)
Lemma stable_partition_whole n paths :
  Forall (fun p => remainingBounces p = 0) (drop n paths) ->
  stable_partition n (notEquals 0) paths
  = (List.filter (notEquals 0) paths
       ++ List.filter (fun x => negb (notEquals 0 x)) paths,
     length (List.filter (notEquals 0) paths)).
Proof.
  intros Htail. unfold stable_partition.
  assert (Hf : List.filter (notEquals 0) paths
               = List.filter (notEquals 0) (take n paths)).
  { rewrite <- (take_drop n paths) at 1. rewrite List.filter_app.
    rewrite (filter_none (notEquals 0) (drop n paths)); [by rewrite app_nil_r|].
    eapply Forall_impl; [done|]. intros p Hp. by apply notEquals_0_false. }
  assert (Hg : List.filter (fun x => negb (notEquals 0 x)) paths
               = List.filter (fun x => negb (notEquals 0 x)) (take n paths)
                 ++ drop n paths).
  { rewrite <- (take_drop n paths) at 1. rewrite List.filter_app. f_equal.
    apply filter_all. eapply Forall_impl; [done|]. intros p Hp. simpl.
    apply negb_true_iff. by apply notEquals_0_false. }
  by rewrite Hf, Hg.
Qed.

(** ** The tracing loop *)

Section TraceLoop.
Context `{E : Externals}.

Lemma kernel_sample_f_drop grid block iter depth num_paths isects paths mats :
  drop num_paths (kernel_sample_f grid block iter depth num_paths isects paths mats)
  = drop num_paths paths.
Proof.
  apply list_eq. intros i. rewrite !lookup_drop.
  apply kernel_sample_f_lookup_ge. lia.
Qed.

Lemma cudaMemcpy_length {T : Type} (dst src : list T) n :
  (n <= length src)%nat -> (n <= length dst)%nat ->
  length (cudaMemcpy dst src n) = length dst.
Proof.
  intros Hs Hd. unfold cudaMemcpy. rewrite length_app, length_take, length_drop. lia.
Qed.

Lemma cudaMemset0_length {T : Type} (zero : T) (dst : list T) n :
  length (cudaMemset0 zero dst n) = length dst.
Proof.
  unfold cudaMemset0. rewrite length_app, length_replicate, length_drop. lia.
Qed.

(** The first part of a pass, in one equation: the shading kernel runs on a
    pool [vs] that is the pool of the state up to the order of its first
    [num_paths] slots, with intersections [ks]; all pools keep their sizes. *)
Lemma bounce_shade_paths cfg scene iter pixelcount st :
  pools_sized pixelcount st ->
  exists ks vs cached,
    bounce_shade cfg scene iter pixelcount st
    = {| depth := depth st + 1;
         num_paths := num_paths st;
         loop_paths :=
           kernel_sample_f (blocks_for (num_paths st) blockSize1d) blockSize1d iter
             (depth st + 1) (num_paths st) ks vs (materials scene);
         loop_intersections := ks;
         loop_cached := cached;
         loop_gui := loop_gui st;
         shade_launches := (depth st + 1) :: shade_launches st |}
    /\ vs ≡ₚ loop_paths st
    /\ drop (num_paths st) vs = drop (num_paths st) (loop_paths st)
    /\ length vs = pixelcount /\ length ks = pixelcount /\ length cached = pixelcount.
Proof.
  intros (Hp & Hi & Hc & Hn). unfold bounce_shade. cbv zeta.
  match goal with
  | |- context [stable_sort_by_key (num_paths st) ?i (loop_paths st)] =>
      set (isects0 := i)
  end.
  set (cached := if CACHE_FIRST_INTERSECTION cfg && (depth st =? 0) && (iter =? 1)
                 then cudaMemcpy (loop_cached st) isects0 pixelcount
                 else loop_cached st).
  assert (Hi0 : length isects0 = pixelcount).
  { unfold isects0.
    destruct (CACHE_FIRST_INTERSECTION cfg && (depth st =? 0) && (1 <? iter)).
    - rewrite cudaMemcpy_length; lia.
    - by rewrite computeIntersections_length, cudaMemset0_length. }
  assert (Hc' : length cached = pixelcount).
  { unfold cached.
    destruct (CACHE_FIRST_INTERSECTION cfg && (depth st =? 0) && (iter =? 1)); [|done].
    rewrite cudaMemcpy_length; lia. }
  destruct (SORT_BY_MATERIAL cfg).
  - destruct (stable_sort_by_key_length (num_paths st) isects0 (loop_paths st))
      as [Hl1 Hl2]; [lia..|].
    pose proof (stable_sort_by_key_drop (num_paths st) isects0 (loop_paths st)
                  ltac:(lia) ltac:(lia)) as Hd.
    pose proof (stable_sort_by_key_perm (num_paths st) isects0 (loop_paths st)
                  ltac:(lia) ltac:(lia)) as Hperm.
    destruct (stable_sort_by_key (num_paths st) isects0 (loop_paths st)) as [ks vs].
    simpl in *. exists ks, vs, cached. repeat split; try done; lia.
  - exists isects0, (loop_paths st), cached. repeat split; done.
Qed.

(** The first part of a pass keeps the sizes of the pools, the live range
    and the slots behind it, and launches the shading kernel with the
    incremented depth. *)
Lemma bounce_shade_facts cfg scene iter pixelcount st :
  pools_sized pixelcount st ->
  let st1 := bounce_shade cfg scene iter pixelcount st in
  pools_sized pixelcount st1
  /\ num_paths st1 = num_paths st
  /\ depth st1 = depth st + 1
  /\ shade_launches st1 = (depth st + 1) :: shade_launches st
  /\ drop (num_paths st) (loop_paths st1) = drop (num_paths st) (loop_paths st).
Proof.
  intros Hs.
  destruct (bounce_shade_paths cfg scene iter pixelcount st Hs)
    as (ks & vs & cached & -> & _ & Hd & Hv & Hk & Hc).
  destruct Hs as (_ & _ & _ & Hn).
  unfold pools_sized. simpl.
  rewrite kernel_sample_f_length, kernel_sample_f_drop.
  repeat split; done.
Qed.

Lemma bounce_shade_tail cfg scene iter pixelcount st :
  pools_sized pixelcount st -> tail_terminated st ->
  Forall (fun p => remainingBounces p = 0)
    (drop (num_paths st) (loop_paths (bounce_shade cfg scene iter pixelcount st))).
Proof.
  intros Hs Ht.
  destruct (bounce_shade_facts cfg scene iter pixelcount st Hs) as (_ & _ & _ & _ & Hd).
  by rewrite Hd.
Qed.

(** A pass keeps the sizes of the pools and leaves terminated paths behind
    the live range. *)
Lemma bounce_invariant cfg scene iter pixelcount st :
  pools_sized pixelcount st -> tail_terminated st ->
  let st' := (bounce cfg scene iter pixelcount st).1 in
  pools_sized pixelcount st' /\ tail_terminated st'
  /\ depth st' = depth st + 1
  /\ shade_launches st' = (depth st + 1) :: shade_launches st.
Proof.
  intros Hs Ht.
  pose proof (bounce_shade_tail cfg scene iter pixelcount st Hs Ht) as Htail.
  destruct (bounce_shade_facts cfg scene iter pixelcount st Hs)
    as ((Hp & Hi & Hc & Hn) & Hnum & Hdepth & Hlog & Hd).
  unfold bounce.
  set (st1 := bounce_shade cfg scene iter pixelcount st) in *.
  destruct (STREAM_COMPACT cfg).
  - rewrite Hnum. rewrite stable_partition_whole by done. simpl.
    unfold pools_sized, tail_terminated. simpl.
    pose proof (filter_length (notEquals 0) (loop_paths st1)) as Hfl.
    pose proof (filter_length_le (notEquals 0) (loop_paths st1)) as Hle.
    rewrite !length_app. repeat split; try done; try lia.
    rewrite drop_app_length.
    apply Forall_forall. intros p Hin%list_elem_of_In%filter_In.
    destruct Hin as [_ Hin]. apply negb_true_iff in Hin. by apply notEquals_0_false.
  - simpl. unfold pools_sized, tail_terminated. simpl.
    rewrite Hnum. repeat split; try done; lia.
Qed.

Lemma trace_start_invariant cfg scene iter dev :
  device_sized scene dev ->
  let st := trace_start cfg scene iter dev in
  pools_sized (pixelcount_of (state_camera scene)) st /\ tail_terminated st
  /\ depth st = 0 /\ shade_launches st = [].
Proof.
  intros (Hp & Hi & Hc). unfold trace_start, pools_sized, tail_terminated.
  cbn [loop_paths loop_intersections loop_cached num_paths depth shade_launches].
  rewrite generateRayFromCamera_length.
  repeat split; try done; try lia.
  rewrite drop_ge; [done|]. rewrite generateRayFromCamera_length. lia.
Qed.

Lemma trace_reach_invariant cfg scene iter dev st :
  device_sized scene dev ->
  trace_reach cfg scene iter dev st ->
  pools_sized (pixelcount_of (state_camera scene)) st /\ tail_terminated st.
Proof.
  intros Hdev Hreach. induction Hreach as [|st st' Hreach [IHs IHt] Hb].
  - destruct (trace_start_invariant cfg scene iter dev Hdev) as (? & ? & _). done.
  - destruct (bounce_invariant cfg scene iter _ st IHs IHt) as (Hs & Ht & _).
    rewrite Hb in Hs, Ht. done.
Qed.

End TraceLoop.

(** ** Stream compaction *)

Section Compaction.
Context `{E : Externals}.

Lemma filter_filter_same {A : Type} (f : A -> bool) (l : list A) :
  List.filter f (List.filter f l) = List.filter f l.
Proof. apply filter_all, Forall_filter_true. Qed.

Lemma filter_filter_neg {A : Type} (f : A -> bool) (l : list A) :
  List.filter f (List.filter (fun x => negb (f x)) l) = [].
Proof.
  apply filter_none. apply Forall_forall.
  intros x Hx%list_elem_of_In%filter_In. destruct Hx as [_ Hx].
  by apply negb_true_iff.
Qed.

Lemma filter_neg_filter {A : Type} (f : A -> bool) (l : list A) :
  List.filter (fun x => negb (f x)) (List.filter f l) = [].
Proof.
  apply filter_none. apply Forall_forall.
  intros x Hx%list_elem_of_In%filter_In. destruct Hx as [_ Hx].
  by rewrite Hx.
Qed.

(** C6, as the code has it, with a path counted as live when its
    [remainingBounces] is not 0 (the predicate [notEquals(0)]). With stream
    compaction enabled, in every pass of the tracing loop the pool after the
    pass is the stable partition of the whole pool left by the shading
    kernel: the live paths in their order, then the terminated ones in their
    order. Every live path precedes every terminated one, both groups hold
    the same segments in the same order as before (so every terminated path
    keeps its color), and [num_paths] is the number of live paths. *)
Theorem C6_stream_compaction (cfg : Toggles) (scene : Scene) (iter : Z) (dev : Device)
    (st : LoopState) :
  STREAM_COMPACT cfg = true ->
  device_sized scene dev ->
  trace_reach cfg scene iter dev st ->
  let pixelcount := pixelcount_of (state_camera scene) in
  let pre := loop_paths (bounce_shade cfg scene iter pixelcount st) in
  let st' := (bounce cfg scene iter pixelcount st).1 in
  let post := loop_paths st' in
  let live := notEquals 0 in
  let dead := fun x => negb (notEquals 0 x) in
  post = List.filter live pre ++ List.filter dead pre
  /\ (forall i j p q, post !! i = Some p -> post !! j = Some q ->
        remainingBounces p <> 0 -> remainingBounces q = 0 -> (i < j)%nat)
  /\ List.filter live post = List.filter live pre
  /\ List.filter dead post = List.filter dead pre
  /\ path_color <$> List.filter dead post = path_color <$> List.filter dead pre
  /\ num_paths st' = length (List.filter live post).
Proof.
  intros Hcompact Hdev Hreach pixelcount pre st' post live dead.
  destruct (trace_reach_invariant cfg scene iter dev st Hdev Hreach) as [Hs Ht].
  pose proof (bounce_shade_tail cfg scene iter pixelcount st Hs Ht) as Htail.
  destruct (bounce_shade_facts cfg scene iter pixelcount st Hs)
    as (_ & Hnum & _ & _ & _).
  assert (Hpost : post = List.filter live pre ++ List.filter dead pre
                  /\ num_paths st' = length (List.filter live pre)).
  { unfold post, st', bounce. rewrite Hcompact, Hnum.
    by rewrite stable_partition_whole by done. }
  destruct Hpost as [Hpost Hn].
  assert (Hlive : List.filter live post = List.filter live pre).
  { rewrite Hpost, List.filter_app.
    unfold live, dead. by rewrite filter_filter_same, filter_filter_neg, app_nil_r. }
  assert (Hdead : List.filter dead post = List.filter dead pre).
  { rewrite Hpost, List.filter_app. unfold live, dead.
    rewrite (filter_neg_filter (notEquals 0)).
    by rewrite (filter_filter_same (fun x => negb (notEquals 0 x))). }
  split; [done|]. split; [|by rewrite Hlive, Hdead].
  intros i j p q Hi Hj Hp Hq. rewrite Hpost in Hi, Hj.
  destruct (decide (i < length (List.filter live pre))%nat) as [Hil|Hil].
  - destruct (decide (j < length (List.filter live pre))%nat) as [Hjl|Hjl]; [|lia].
    exfalso. rewrite lookup_app_l in Hj by done.
    apply list_elem_of_lookup_2, list_elem_of_In, filter_In in Hj as [_ Hj].
    apply notEquals_0_true in Hj. done.
  - exfalso. rewrite lookup_app_r in Hi by lia.
    apply list_elem_of_lookup_2, list_elem_of_In, filter_In in Hi as [_ Hi].
    apply negb_true_iff, notEquals_0_false in Hi. done.
Qed.

End Compaction.

(** ** Engines of the shading kernel and the length of the loop *)

Section Streams.
Context `{E : Externals}.

(** The engine a shading thread constructs is the one seeded for the
    launch's iteration and depth and the thread's own index. *)
Lemma kernel_sample_f_rng_seed iter depth num_paths isects mats idx paths e :
  kernel_sample_f_rng iter depth num_paths isects mats idx paths = Some e ->
  (idx < num_paths)%nat /\ e = makeSeededRandomEngine iter (Z.of_nat idx) depth.
Proof.
  unfold kernel_sample_f_rng, kernel_sample_f_body.
  case_bool_decide; [done|].
  destruct (remainingBounces _ =? 0); [done|].
  destruct (Qltb 0 (isect_t _)); [|done].
  destruct (Qltb 0 (emittance _)); intros [= <-]; split; (lia || done).
Qed.

Lemma kernel_sample_f_body_pixelIndex iter depth mats idx isect path :
  (forall path p n m rng, pixelIndex (sample_f path p n m rng) = pixelIndex path) ->
  pixelIndex (kernel_sample_f_body iter depth mats idx isect path).1 = pixelIndex path.
Proof.
  intros Hs. unfold kernel_sample_f_body.
  destruct (remainingBounces _ =? 0); [done|].
  destruct (Qltb 0 (isect_t _)); [|done].
  destruct (Qltb 0 (emittance _)); [done|]. simpl. apply Hs.
Qed.

Lemma kernel_sample_f_pixelIndex grid block iter depth num_paths isects paths mats i p' :
  (forall path p n m rng, pixelIndex (sample_f path p n m rng) = pixelIndex path) ->
  kernel_sample_f grid block iter depth num_paths isects paths mats !! i = Some p' ->
  exists p, paths !! i = Some p /\ pixelIndex p' = pixelIndex p.
Proof.
  intros Hs Hl. destruct (decide (i < grid * block)%nat) as [Hg|Hg].
  - rewrite kernel_sample_f_lookup_covered in Hl by done.
    destruct (paths !! i) as [p|]; [|done]. exists p. split; [done|].
    simpl in Hl. injection Hl as <-. unfold kernel_sample_f_slot.
    case_bool_decide; [done|]. by apply kernel_sample_f_body_pixelIndex.
  - rewrite kernel_sample_f_lookup_uncovered in Hl by lia. by exists p'.
Qed.

Lemma bounce_depth cfg scene iter pixelcount st :
  let st' := (bounce cfg scene iter pixelcount st).1 in
  depth st' = depth st + 1
  /\ shade_launches st' = (depth st + 1) :: shade_launches st
  /\ (bounce cfg scene iter pixelcount st).2
     = (state_traceDepth scene <=? depth st + 1) || (num_paths st' =? 0)%nat
  /\ (STREAM_COMPACT cfg = false -> num_paths st' = num_paths st).
Proof.
  unfold bounce, bounce_shade.
  destruct (SORT_BY_MATERIAL cfg); [destruct (stable_sort_by_key _ _ _)|];
    (destruct (STREAM_COMPACT cfg); [destruct (stable_partition _ _ _)|]); simpl; done.
Qed.

(** The loop of [pathtrace] completes within the passes [trace_fuel]
    allows. *)
Lemma trace_loop_total cfg scene iter pixelcount fuel st :
  (0 < fuel)%nat -> state_traceDepth scene - depth st <= Z.of_nat fuel ->
  exists st', trace_loop fuel cfg scene iter pixelcount st = Some st'.
Proof.
  revert st. induction fuel as [|fuel IH]; intros st Hpos Hfuel; [lia|].
  simpl. destruct (bounce_depth cfg scene iter pixelcount st) as (Hd & _ & Hflag & _).
  destruct (bounce cfg scene iter pixelcount st) as [st1 flag]. simpl in *.
  destruct flag; [by eexists|].
  symmetry in Hflag. apply orb_false_iff in Hflag as [Hlt _].
  apply Z.leb_gt in Hlt. apply IH; lia.
Qed.

(** Without compaction, on a pool with at least one pixel, the loop makes
    exactly [traceDepth] passes when [traceDepth] is at least 1, and
    launches the shading kernel with the depths 1, 2, ..., [traceDepth]. *)
Lemma trace_loop_no_compaction cfg scene iter pixelcount n : forall st,
  STREAM_COMPACT cfg = false -> (0 < num_paths st)%nat ->
  depth st + Z.of_nat (S n) = state_traceDepth scene ->
  exists st', trace_loop (S n) cfg scene iter pixelcount st = Some st'
    /\ depth st' = state_traceDepth scene
    /\ num_paths st' = num_paths st
    /\ shade_launches st'
       = reverse (seqZ (depth st + 1) (Z.of_nat (S n))) ++ shade_launches st.
Proof.
  induction n as [|n IH]; intros st Hc Hn Hd.
  - simpl. destruct (bounce_depth cfg scene iter pixelcount st) as (Hd' & Hl & Hflag & Hnum).
    destruct (bounce cfg scene iter pixelcount st) as [st1 flag]. simpl in *.
    assert (flag = true) as ->.
    { rewrite Hflag. apply orb_true_iff. left. apply Z.leb_le. lia. }
    exists st1. rewrite Hl. repeat split; try done; [lia | by apply Hnum].
  - cbn [trace_loop].
    destruct (bounce_depth cfg scene iter pixelcount st) as (Hd' & Hl & Hflag & Hnum).
    destruct (bounce cfg scene iter pixelcount st) as [st1 flag]. cbn [fst snd] in *.
    specialize (Hnum Hc).
    assert (flag = false) as ->.
    { rewrite Hflag. apply orb_false_iff. split; [apply Z.leb_gt; lia|].
      apply Nat.eqb_neq. lia. }
    destruct (IH st1 Hc ltac:(lia) ltac:(lia)) as (st' & Hrun & Hdep & Hnp & Hlog).
    exists st'. split; [done|]. split; [done|]. split; [lia|].
    rewrite Hlog, Hl, Hd'.
    rewrite (seqZ_cons (depth st + 1) (Z.of_nat (S (S n)))) by lia.
    rewrite reverse_cons, <- app_assoc. simpl.
    do 3 f_equal; lia.
Qed.

End Streams.

Section UnpermutedPool.
Context `{E : Externals}.
Hypothesis sample_f_pixelIndex :
  forall path p n m rng, pixelIndex (sample_f path p n m rng) = pixelIndex path.

Lemma trace_start_slots_by_pixel cfg scene iter dev :
  device_sized scene dev -> slots_by_pixel (trace_start cfg scene iter dev).
Proof.
  intros (Hp & _ & _) idx p Hl. unfold trace_start in Hl. cbn [loop_paths] in Hl.
  set (cam := state_camera scene) in *.
  assert (Hidx : (idx < (resolution cam).1 * (resolution cam).2)%nat).
  { apply lookup_lt_Some in Hl. rewrite generateRayFromCamera_length in Hl.
    unfold pixelcount_of in Hp. fold cam in Hp. lia. }
  set (W := (resolution cam).1) in *. set (H := (resolution cam).2) in *.
  assert (HW : (0 < W)%nat) by (destruct W; lia).
  pose proof (Nat.div_mod_eq idx W) as Hdm.
  pose proof (Nat.mod_upper_bound idx W ltac:(lia)) as Hmod.
  assert (Hy : (idx / W < H)%nat) by (apply Nat.Div0.div_lt_upper_bound; lia).
  assert (Heq : idx = (idx mod W + idx / W * W)%nat) by lia.
  pose proof (generateRayFromCamera_lookup cfg cam iter (state_traceDepth scene)
                (dev_paths dev) (idx mod W) (idx / W) Hmod Hy) as Hgen.
  fold W H in Hgen. rewrite <- Heq in Hgen.
  rewrite Hgen in Hl.
  2:{ unfold pixelcount_of in Hp. fold cam W H in Hp. lia. }
  injection Hl as <-.
  destruct (camera_segment_fields cfg cam iter (state_traceDepth scene)
              (idx mod W) (idx / W)) as (_ & _ & _ & Hpi).
  rewrite Hpi. fold W. lia.
Qed.

Lemma bounce_slots_by_pixel cfg scene iter pixelcount st :
  SORT_BY_MATERIAL cfg = false -> STREAM_COMPACT cfg = false ->
  slots_by_pixel st -> slots_by_pixel (bounce cfg scene iter pixelcount st).1.
Proof.
  intros Hsort Hcompact Hinv idx p' Hl.
  unfold bounce, bounce_shade in Hl. rewrite Hsort, Hcompact in Hl.
  cbn [fst loop_paths] in Hl.
  apply kernel_sample_f_pixelIndex in Hl as (p & Hp & ->); [|done].
  by apply Hinv.
Qed.

Lemma trace_reach_slots_by_pixel cfg scene iter dev st :
  SORT_BY_MATERIAL cfg = false -> STREAM_COMPACT cfg = false ->
  device_sized scene dev -> trace_reach cfg scene iter dev st -> slots_by_pixel st.
Proof.
  intros Hsort Hcompact Hdev Hreach. induction Hreach as [|st st' Hreach IH Hb].
  - by apply trace_start_slots_by_pixel.
  - pose proof (bounce_slots_by_pixel cfg scene iter
                  (pixelcount_of (state_camera scene)) st Hsort Hcompact IH) as H.
    by rewrite Hb in H.
Qed.

End UnpermutedPool.

Section StreamClaims.
Context `{E : Externals}.


(** C1, as the code has it. The engine a shading thread constructs is
    seeded from the iteration, the thread's slot index and the depth of the
    launch, and from nothing else: any other shading invocation with the same
    iteration, slot and depth, on whatever pool, intersections and materials,
    constructs the same engine and draws the same samples, those of the
    generator seeded with the word of (iteration, slot, depth). With sorting
    and compaction disabled (the values the header defines) and a [sample_f]
    that leaves [pixelIndex] alone, every state of the tracing loop holds the
    path of pixel [i] in slot [i], so there the engine is the one seeded by
    [(iteration, pixelIndex, depth)]. *)
Theorem C1_stream_keyed_by_slot (iter depth : Z) (live : nat)
    (isects : list Intersection) (mats : list Material) (idx : nat)
    (paths : list PathSegment) (e : Engine) (n : nat) :
  kernel_sample_f_rng iter depth live isects mats idx paths = Some e ->
  e = makeSeededRandomEngine iter (Z.of_nat idx) depth
  /\ draws n e = draws n (default_random_engine (seed_word iter (Z.of_nat idx) depth))
  /\ (forall live' isects' mats' paths' e',
        kernel_sample_f_rng iter depth live' isects' mats' idx paths' = Some e' ->
        e' = e /\ draws n e' = draws n e)
  /\ (forall cfg scene dev st,
        SORT_BY_MATERIAL cfg = false ->
        STREAM_COMPACT cfg = false ->
        (forall path p n m rng, pixelIndex (sample_f path p n m rng) = pixelIndex path) ->
        device_sized scene dev ->
        trace_reach cfg scene iter dev st ->
        paths = loop_paths st -> live = num_paths st ->
        exists path,
          paths !! idx = Some path
          /\ pixelIndex path = idx
          /\ e = makeSeededRandomEngine iter (Z.of_nat (pixelIndex path)) depth).
Proof.
  intros Hrng. apply kernel_sample_f_rng_seed in Hrng as [Hidx ->].
  split; [done|]. split; [by rewrite makeSeededRandomEngine_unfold|]. split.
  - intros np' isects' mats' paths' e' Hrng'.
    by apply kernel_sample_f_rng_seed in Hrng' as [_ ->].
  - intros cfg scene dev st Hsort Hcompact Hsample Hdev Hreach -> ->.
    destruct (trace_reach_invariant cfg scene iter dev st Hdev Hreach)
      as [(Hlen & _ & _ & Hn) _].
    destruct (lookup_lt_is_Some_2 (loop_paths st) idx ltac:(lia)) as [path Hpath].
    pose proof (trace_reach_slots_by_pixel Hsample cfg scene iter dev st
                  Hsort Hcompact Hdev Hreach idx path Hpath) as Hpi.
    exists path. by rewrite Hpi.
Qed.


End StreamClaims.

(** ** Terminated paths and pixel indices through the whole loop *)

Lemma filter_partition_perm {A : Type} (f : A -> bool) (l : list A) :
  List.filter f l ++ List.filter (fun x => negb (f x)) l ≡ₚ l.
Proof.
  induction l as [|x l IH]; simpl; [done|].
  destruct (f x); simpl.
  - by rewrite IH.
  - rewrite <- Permutation_middle. by rewrite IH.
Qed.

Lemma stable_partition_perm n pred paths :
  (stable_partition n pred paths).1 ≡ₚ paths.
Proof.
  unfold stable_partition. simpl. rewrite app_assoc, filter_partition_perm.
  by rewrite take_drop.
Qed.

Section WholeLoop.
Context `{E : Externals}.

Lemma kernel_sample_f_keeps_terminated grid block iter depth num_paths isects paths
    mats path :
  path ∈ paths -> remainingBounces path = 0 ->
  path ∈ kernel_sample_f grid block iter depth num_paths isects paths mats.
Proof.
  intros [i Hi]%list_elem_of_lookup Hdead.
  apply list_elem_of_lookup. exists i. by apply kernel_sample_f_dead.
Qed.

(** The pixel indices of the pool are the same after a shading launch,
    slot by slot, when [sample_f] leaves [pixelIndex] alone. *)
Lemma kernel_sample_f_pixelIndices grid block iter depth num_paths isects paths mats :
  (forall path p n m rng, pixelIndex (sample_f path p n m rng) = pixelIndex path) ->
  pixelIndex <$> kernel_sample_f grid block iter depth num_paths isects paths mats
  = pixelIndex <$> paths.
Proof.
  intros Hs. apply list_eq. intros i. rewrite !list_lookup_fmap.
  destruct (kernel_sample_f _ _ _ _ _ _ _ _ !! i) as [p'|] eqn:Hl.
  - destruct (kernel_sample_f_pixelIndex _ _ _ _ _ _ _ _ _ _ Hs Hl) as (p & -> & Hp).
    simpl. by rewrite Hp.
  - apply lookup_ge_None in Hl. rewrite kernel_sample_f_length in Hl.
    by rewrite lookup_ge_None_2.
Qed.

(** One pass permutes the pool and shades it: a terminated path is still
    in the pool, with all its fields, after the pass. *)
Lemma bounce_keeps_terminated cfg scene iter pixelcount st path :
  pools_sized pixelcount st ->
  path ∈ loop_paths st -> remainingBounces path = 0 ->
  path ∈ loop_paths (bounce cfg scene iter pixelcount st).1.
Proof.
  intros Hs Hin Hdead.
  assert (Hshade : path ∈ loop_paths (bounce_shade cfg scene iter pixelcount st)).
  { destruct (bounce_shade_paths cfg scene iter pixelcount st Hs)
      as (ks & vs & cached & -> & Hperm & _).
    cbn [loop_paths]. apply kernel_sample_f_keeps_terminated; [|done].
    by rewrite Hperm. }
  unfold bounce. destruct (STREAM_COMPACT cfg).
  - pose proof (stable_partition_perm
                  (num_paths (bounce_shade cfg scene iter pixelcount st)) (notEquals 0)
                  (loop_paths (bounce_shade cfg scene iter pixelcount st))) as Hperm.
    destruct (stable_partition _ _ _) as [ps np]. simpl in *. by rewrite Hperm.
  - done.
Qed.

Lemma trace_loop_keeps_terminated cfg scene iter pixelcount fuel : forall st st' path,
  pools_sized pixelcount st -> tail_terminated st ->
  trace_loop fuel cfg scene iter pixelcount st = Some st' ->
  path ∈ loop_paths st -> remainingBounces path = 0 ->
  path ∈ loop_paths st'.
Proof.
  induction fuel as [|fuel IH]; intros st st' path Hs Ht Hrun Hin Hdead; [done|].
  simpl in Hrun.
  pose proof (bounce_keeps_terminated cfg scene iter pixelcount st path Hs Hin Hdead) as Hk.
  destruct (bounce_invariant cfg scene iter pixelcount st Hs Ht) as (Hs' & Ht' & _).
  destruct (bounce cfg scene iter pixelcount st) as [st1 flag]. simpl in *.
  destruct flag.
  - by injection Hrun as <-.
  - by eapply IH.
Qed.

(** One pass keeps the pixel indices of the pool up to their order. *)
Lemma bounce_pixelIndices cfg scene iter pixelcount st :
  (forall path p n m rng, pixelIndex (sample_f path p n m rng) = pixelIndex path) ->
  pools_sized pixelcount st ->
  pixelIndex <$> loop_paths (bounce cfg scene iter pixelcount st).1
  ≡ₚ pixelIndex <$> loop_paths st.
Proof.
  intros Hsample Hs.
  assert (Hshade : pixelIndex <$> loop_paths (bounce_shade cfg scene iter pixelcount st)
                   ≡ₚ pixelIndex <$> loop_paths st).
  { destruct (bounce_shade_paths cfg scene iter pixelcount st Hs)
      as (ks & vs & cached & -> & Hperm & _).
    cbn [loop_paths]. rewrite kernel_sample_f_pixelIndices by done. by rewrite Hperm. }
  unfold bounce. destruct (STREAM_COMPACT cfg).
  - pose proof (stable_partition_perm
                  (num_paths (bounce_shade cfg scene iter pixelcount st)) (notEquals 0)
                  (loop_paths (bounce_shade cfg scene iter pixelcount st))) as Hperm.
    destruct (stable_partition _ _ _) as [ps np]. simpl in *. by rewrite Hperm.
  - done.
Qed.

(** The pool the accumulator reads holds one path for each pixel, whatever
    the switches, when [sample_f] leaves [pixelIndex] alone. *)
Lemma trace_loop_pixelIndices cfg scene iter dev st :
  (forall path p n m rng, pixelIndex (sample_f path p n m rng) = pixelIndex path) ->
  device_sized scene dev ->
  trace_loop (trace_fuel scene) cfg scene iter (pixelcount_of (state_camera scene))
    (trace_start cfg scene iter dev) = Some st ->
  pixelIndex <$> loop_paths st ≡ₚ seq 0 (pixelcount_of (state_camera scene)).
Proof.
  intros Hsample Hdev.
  destruct (trace_start_invariant cfg scene iter dev Hdev) as (Hs0 & Ht0 & _).
  assert (H0 : pixelIndex <$> loop_paths (trace_start cfg scene iter dev)
               = seq 0 (pixelcount_of (state_camera scene))).
  { destruct Hs0 as (Hlen & _). apply list_eq. intros i. rewrite list_lookup_fmap.
    destruct (loop_paths (trace_start cfg scene iter dev) !! i) as [p|] eqn:Hl.
    - simpl. rewrite (trace_start_slots_by_pixel cfg scene iter dev Hdev i p Hl).
      apply lookup_lt_Some in Hl. symmetry. apply lookup_seq. lia.
    - simpl. apply lookup_ge_None in Hl. symmetry. apply lookup_seq_ge. lia. }
  rewrite <- H0. clear H0.
  generalize (trace_start cfg scene iter dev) Hs0 Ht0. clear Hs0 Ht0.
  induction (trace_fuel scene) as [|fuel IH]; intros st0 Hs Ht Hrun; [done|].
  simpl in Hrun.
  pose proof (bounce_pixelIndices cfg scene iter _ st0 Hsample Hs) as Hperm.
  destruct (bounce_invariant cfg scene iter _ st0 Hs Ht) as (Hs' & Ht' & _).
  destruct (bounce cfg scene iter _ st0) as [st1 flag]. simpl in *.
  destruct flag.
  - by injection Hrun as <-.
  - rewrite <- Hperm. by apply IH.
Qed.

(** [pathtrace] returns: its loop completes within the bound of the model,
    and its image is one accumulation of the loop's pool into the image it
    was given, which the display kernel does not change. *)
Lemma pathtrace_total cfg scene dev pbo frame iter :
  exists st pbo' dev',
    trace_loop (trace_fuel scene) cfg scene iter (pixelcount_of (state_camera scene))
      (trace_start cfg scene iter dev) = Some st
    /\ pathtrace cfg scene dev pbo frame iter = Some (pbo', dev')
    /\ dev_paths dev' = loop_paths st
    /\ dev_image dev'
       = finalGather (blocks_for (pixelcount_of (state_camera scene)) blockSize1d)
           blockSize1d (pixelcount_of (state_camera scene)) iter (dev_image dev)
           (loop_paths st).
Proof.
  destruct (trace_loop_total cfg scene iter (pixelcount_of (state_camera scene))
              (trace_fuel scene) (trace_start cfg scene iter dev)) as [st Hst].
  { unfold trace_fuel. lia. }
  { unfold trace_fuel, trace_start. cbn [depth]. lia. }
  unfold pathtrace. cbv zeta. rewrite Hst. cbn [mbind option_bind].
  destruct (sendImageToPBO _ _ _ _ _ _ _) as [pbo' image'] eqn:Hsend.
  exists st, pbo'. eexists. split; [done|]. split; [done|]. cbn [dev_paths dev_image].
  split; [done|].
  destruct (state_camera scene) as [[W H] ? ? ? ? ? ? ?] eqn:Hcam. cbn [resolution] in *.
  rewrite sendImageToPBO_unfold in Hsend. by injection Hsend as _ <-.
Qed.

(** C8. A segment with [remainingBounces = 0] keeps its value (ray,
    throughput, color, pixel index and remaining bounces) through every
    later launch of the shading kernel, whatever the arguments of the
    launches: after any sequence of launches its slot holds the same segment.
    Through the rest of the tracing loop, where sorting and compaction may
    move it, the pool still holds the segment with all its fields when the
    loop ends, so the accumulator reads the color it had at termination. *)
Theorem C8_terminated_immutable
    (launches : list (nat * nat * Z * Z * nat * list Intersection * list Material))
    (paths : list PathSegment) (idx : nat) (path : PathSegment) :
  paths !! idx = Some path ->
  remainingBounces path = 0 ->
  foldl (fun ps '(grid, block, iter, depth, num_paths, isects, mats) =>
           kernel_sample_f grid block iter depth num_paths isects ps mats)
        paths launches !! idx
  = Some path
  /\ forall cfg scene iter pixelcount fuel st st',
       loop_paths st = paths ->
       pools_sized pixelcount st -> tail_terminated st ->
       trace_loop fuel cfg scene iter pixelcount st = Some st' ->
       path ∈ loop_paths st'.
Proof.
  intros Hl Hdead. split; [by apply kernel_sample_f_launches_dead|].
  intros cfg scene iter pixelcount fuel st st' Hpaths Hs Ht Hrun.
  eapply trace_loop_keeps_terminated; [done..| |done].
  rewrite Hpaths. by eapply list_elem_of_lookup_2.
Qed.

End WholeLoop.

(** ** The accumulation over the calls of [pathtrace] *)

Section Rendering.
Context `{E : Externals}.
Hypothesis sample_f_pixelIndex :
  forall path p n m rng, pixelIndex (sample_f path p n m rng) = pixelIndex path.

Lemma trace_loop_sized cfg scene iter pixelcount fuel : forall st st',
  pools_sized pixelcount st -> tail_terminated st ->
  trace_loop fuel cfg scene iter pixelcount st = Some st' ->
  pools_sized pixelcount st'.
Proof.
  induction fuel as [|fuel IH]; intros st st' Hs Ht Hrun; [done|].
  simpl in Hrun.
  destruct (bounce_invariant cfg scene iter pixelcount st Hs Ht) as (Hs' & Ht' & _).
  destruct (bounce cfg scene iter pixelcount st) as [st1 flag]. simpl in *.
  destruct flag; [by injection Hrun as <- | by eapply IH].
Qed.

(** A call of [pathtrace] on pools of the allocated sizes returns, leaves
    pools of those sizes and a pool with one path for each pixel, and
    accumulates that pool into the image. *)
Lemma pathtrace_step cfg scene dev pbo frame iter :
  device_sized scene dev ->
  exists pbo' dev',
    pathtrace cfg scene dev pbo frame iter = Some (pbo', dev')
    /\ device_sized scene dev'
    /\ pixelIndex <$> dev_paths dev' ≡ₚ seq 0 (pixelcount_of (state_camera scene))
    /\ dev_image dev'
       = finalGather (blocks_for (pixelcount_of (state_camera scene)) blockSize1d)
           blockSize1d (pixelcount_of (state_camera scene)) iter (dev_image dev)
           (dev_paths dev').
Proof.
  intros Hdev.
  destruct (pathtrace_total cfg scene dev pbo frame iter)
    as (st & pbo' & dev' & Hrun & Hpt & Hpaths & Himage).
  exists pbo', dev'. split; [done|].
  destruct (trace_start_invariant cfg scene iter dev Hdev) as (Hs0 & Ht0 & _).
  pose proof (trace_loop_sized _ _ _ _ _ _ _ Hs0 Ht0 Hrun) as (Hp & Hi & Hc & _).
  split; [|split].
  - unfold pathtrace in Hpt. cbv zeta in Hpt. rewrite Hrun in Hpt.
    cbn [mbind option_bind] in Hpt.
    destruct (sendImageToPBO _ _ _ _ _ _ _) as [pbo1 image1].
    injection Hpt as _ <-. unfold device_sized. by cbn.
  - rewrite Hpaths. by eapply trace_loop_pixelIndices.
  - by rewrite Himage, Hpaths.
Qed.

(** [n] calls of [pathtrace] return, and their image is the accumulation
    of the pools they leave behind. *)
Lemma render_accumulate cfg scene n : forall iter dev pbo,
  device_sized scene dev ->
  exists pbo' dev',
    render cfg scene n iter dev pbo = Some (pbo', dev')
    /\ dev_image dev'
       = accumulate (pixelcount_of (state_camera scene)) iter (dev_image dev)
           (render_pools cfg scene n iter dev pbo)
    /\ length (render_pools cfg scene n iter dev pbo) = n
    /\ Forall (fun pool => pixelIndex <$> pool ≡ₚ seq 0 (pixelcount_of (state_camera scene)))
         (render_pools cfg scene n iter dev pbo).
Proof.
  induction n as [|n IH]; intros iter dev pbo Hdev.
  - exists pbo, dev. by repeat split.
  - destruct (pathtrace_step cfg scene dev pbo iter iter Hdev)
      as (pbo1 & dev1 & Hpt & Hdev1 & Hperm & Himage).
    destruct (IH (iter + 1) dev1 pbo1 Hdev1) as (pbo' & dev' & Hr & Hacc & Hlen & Hall).
    exists pbo', dev'. cbn [render render_pools]. rewrite Hpt.
    cbn [mbind option_bind fst snd accumulate length].
    rewrite <- Himage. repeat split; try done; [lia | by constructor].
Qed.

(** With operations that do not round: after [N] calls of [pathtrace] from
    the memory [pathtraceInit] sets up, the image value of every pixel is the
    mean of the [N] colors the pixel's path held at the end of the calls. *)
Lemma render_running_mean cfg scene gui N pbo p :
  (0 < N)%nat -> (p < pixelcount_of (state_camera scene))%nat ->
  exists pbo' dev',
    render cfg scene N 1 (pathtraceInit scene gui) pbo = Some (pbo', dev')
    /\ Vec3.equiv (dev_image dev' !!! p)
         (Vec3.scale
            (vsum ((fun pool => pixel_estimate pool p)
                     <$> render_pools cfg scene N 1 (pathtraceInit scene gui) pbo))
            (1 / inject_Z (Z.of_nat N))).
Proof.
  intros HN Hp.
  assert (Hdev : device_sized scene (pathtraceInit scene gui)).
  { unfold device_sized, pathtraceInit. cbn. by rewrite !length_replicate. }
  destruct (render_accumulate cfg scene N 1 (pathtraceInit scene gui) pbo Hdev)
    as (pbo' & dev' & Hr & Hacc & Hlen & Hall).
  exists pbo', dev'. split; [done|]. rewrite Hacc.
  apply mean_of_scaled; [done|].
  pose proof (accumulate_invariant (pixelcount_of (state_camera scene)) _ 0
                (replicate (pixelcount_of (state_camera scene)) Vec3.zero)
                (fun _ => Vec3.zero) Hall (length_replicate _ _)
                (zero_image_invariant _) p Hp) as Hinv.
  cbn [Nat.add] in Hinv. by rewrite Hlen in Hinv.
Qed.

End Rendering.

(** * Further properties of the code *)

(** ** The fields of the seed *)

Lemma land_shiftl_low a b n : 0 <= n -> 0 <= b < 2 ^ n -> Z.land (Z.shiftl a n) b = 0.
Proof.
  intros Hn Hb. apply Z.bits_inj'. intros m Hm.
  rewrite Z.land_spec, Z.bits_0.
  destruct (Z.lt_ge_cases m n) as [Hlt|Hge].
  - by rewrite Z.shiftl_spec_low.
  - destruct (Z.eq_dec b 0) as [->|Hb0]; [by rewrite Z.bits_0, andb_false_r|].
    rewrite (Z.bits_above_log2 b m); [apply andb_false_r | lia |].
    assert (Z.log2 b < n) by (apply Z.log2_lt_pow2; lia). lia.
Qed.

Lemma lor_disjoint a b : Z.land a b = 0 -> Z.lor a b = a + b.
Proof. intros H. by rewrite Z.add_nocarry_lxor, Z.lxor_lor. Qed.

Lemma lor_shiftl_low a b n : 0 <= n -> 0 <= b < 2 ^ n -> Z.lor (Z.shiftl a n) b = a * 2 ^ n + b.
Proof.
  intros Hn Hb. rewrite lor_disjoint by (by apply land_shiftl_low).
  by rewrite Z.shiftl_mul_pow2.
Qed.

Section SeedFields.
Context `{E : Externals}.

Lemma makeSeededRandomEngine_operand iter index depth :
  makeSeededRandomEngine iter index depth
  = default_random_engine
      (Z.lxor (utilhash (seed_operand iter depth)) (utilhash (to_uint index))).
Proof.
  unfold makeSeededRandomEngine, seed_operand.
  rewrite to_uint_wrap_int.
  by rewrite (to_uint_small (Z.lxor _ _))
    by (apply lxor_uint_range; apply utilhash_range).
Qed.

Lemma seed_operand_bits iter depth :
  seed_operand iter depth
  = to_uint (Z.lor (Z.lor (Z.shiftl 1 31) (Z.shiftl depth 22)) iter).
Proof.
  unfold seed_operand.
  by rewrite !to_uint_lor, !to_uint_wrap_int.
Qed.

Lemma seed_operand_sum iter depth :
  0 <= iter < 2 ^ 22 -> 0 <= depth < 2 ^ 9 ->
  seed_operand iter depth = 2 ^ 31 + depth * 2 ^ 22 + iter.
Proof.
  intros Hi Hd. rewrite seed_operand_bits.
  replace (Z.shiftl 1 31) with (Z.shiftl (2 ^ 9) 22) by done.
  rewrite <- Z.shiftl_lor.
  replace (Z.lor (2 ^ 9) depth) with (2 ^ 9 + depth).
  2:{ pose proof (lor_shiftl_low 1 depth 9 ltac:(lia) Hd) as H.
      change (Z.shiftl 1 9) with (2 ^ 9) in H. lia. }
  rewrite lor_shiftl_low by lia.
  rewrite to_uint_small by lia. lia.
Qed.

(** X1. Within the range the packing provides for (iterations below 2^22,
    depths below 2^9) the operand of the first hash is the number
    [2^31 + depth * 2^22 + iter]: the marker bit, the depth and the iteration
    occupy disjoint bits, so two pairs of iteration and depth with the same
    operand are the same pair. The engine is constructed from the exclusive
    or of the hash of this operand and the hash of the index. *)
Theorem seed_fields_disjoint (iter depth iter' depth' index : Z) :
  0 <= iter < 2 ^ 22 -> 0 <= depth < 2 ^ 9 ->
  0 <= iter' < 2 ^ 22 -> 0 <= depth' < 2 ^ 9 ->
  makeSeededRandomEngine iter index depth
  = default_random_engine
      (Z.lxor (utilhash (2 ^ 31 + depth * 2 ^ 22 + iter)) (utilhash (to_uint index)))
  /\ seed_operand iter depth = 2 ^ 31 + depth * 2 ^ 22 + iter
  /\ (seed_operand iter depth = seed_operand iter' depth' ->
      iter = iter' /\ depth = depth').
Proof.
  intros Hi Hd Hi' Hd'.
  rewrite makeSeededRandomEngine_operand, !seed_operand_sum by done.
  split; [done|]. split; [done|]. lia.
Qed.

(** X2. Beyond that range the fields overlap: at an even depth the iteration
    [iter + 2^22] constructs the engine that the iteration [iter] constructs
    at the next depth, for every index. *)
Theorem seed_iteration_alias (iter depth index : Z) :
  0 <= iter < 2 ^ 22 -> Z.even depth = true ->
  makeSeededRandomEngine (iter + 2 ^ 22) index depth
  = makeSeededRandomEngine iter index (depth + 1).
Proof.
  intros Hi Hd. rewrite !makeSeededRandomEngine_operand, !seed_operand_bits.
  do 4 f_equal.
  assert (H1 : depth + 1 = Z.lor depth 1).
  { symmetry. apply lor_disjoint.
    change 1 with (Z.ones 1) at 1. rewrite Z.land_ones by lia.
    apply Z.even_spec in Hd as [k ->]. change (2 ^ 1) with 2.
    rewrite Z.mul_comm. apply Z.mod_mul. lia. }
  assert (H2 : iter + 2 ^ 22 = Z.lor (Z.shiftl 1 22) iter).
  { rewrite lor_shiftl_low by lia. lia. }
  rewrite H1, H2, Z.shiftl_lor.
  rewrite <- !Z.lor_assoc. done.
Qed.

End SeedFields.

(** ** The material sort *)

(** X3. [sortByMaterialId] is a strict weak ordering, as
    [thrust::stable_sort_by_key] requires of its comparison: it is
    irreflexive, transitive and asymmetric,
    and two intersections that it orders in neither direction are those with
    the same material id, so that being unordered is transitive too. *)
Theorem sortByMaterialId_strict_weak_order :
  (forall a, sortByMaterialId a a = false)
  /\ (forall a b c, sortByMaterialId a b = true -> sortByMaterialId b c = true ->
        sortByMaterialId a c = true)
  /\ (forall a b, sortByMaterialId a b = true -> sortByMaterialId b a = false)
  /\ (forall a b, sortByMaterialId a b = false /\ sortByMaterialId b a = false
                  <-> materialId a = materialId b)
  /\ (forall a b c,
        sortByMaterialId a b = false -> sortByMaterialId b a = false ->
        sortByMaterialId b c = false -> sortByMaterialId c b = false ->
        sortByMaterialId a c = false /\ sortByMaterialId c a = false).
Proof.
  unfold sortByMaterialId. split; [|split; [|split; [|split]]].
  - intros a. apply Nat.ltb_irrefl.
  - intros a b c Hab%Nat.ltb_lt Hbc%Nat.ltb_lt. apply Nat.ltb_lt. lia.
  - intros a b Hab%Nat.ltb_lt. apply Nat.ltb_ge. lia.
  - intros a b. rewrite !Nat.ltb_ge. lia.
  - intros a b c. rewrite !Nat.ltb_ge. lia.
Qed.

Lemma insert_by_key_filter m kv l :
  List.filter (by_material m) (insert_by_key kv l)
  = List.filter (by_material m) (kv :: l).
Proof.
  induction l as [|kv' l IH]; [done|].
  cbn [insert_by_key]. unfold sortByMaterialId.
  destruct (materialId kv'.1 <? materialId kv.1)%nat eqn:Hlt; [|done].
  apply Nat.ltb_lt in Hlt. cbn [List.filter] in *. rewrite IH.
  unfold by_material.
  destruct (materialId kv.1 =? m)%nat eqn:Hk; [|done].
  apply Nat.eqb_eq in Hk.
  by rewrite (proj2 (Nat.eqb_neq (materialId kv'.1) m)) by lia.
Qed.

Lemma sort_by_key_filter m l :
  List.filter (by_material m) (foldr insert_by_key [] l) = List.filter (by_material m) l.
Proof.
  induction l as [|kv l IH]; [done|].
  cbn [foldr]. rewrite insert_by_key_filter. cbn [List.filter]. by rewrite IH.
Qed.

Lemma insert_by_key_ordered kv l :
  material_ordered l -> material_ordered (insert_by_key kv l).
Proof.
  induction l as [|kv' l IH]; cbn [insert_by_key material_ordered].
  - by repeat constructor.
  - intros [Hall Hs]. unfold sortByMaterialId.
    destruct (materialId kv'.1 <? materialId kv.1)%nat eqn:Hlt;
      cbn [material_ordered].
    + apply Nat.ltb_lt in Hlt. split; [|by apply IH].
      rewrite insert_by_key_perm. constructor; [lia | done].
    + apply Nat.ltb_ge in Hlt. split; [|done].
      constructor; [done|]. eapply Forall_impl; [done|]. simpl. intros; lia.
Qed.

Lemma sort_by_key_ordered l : material_ordered (foldr insert_by_key [] l).
Proof.
  induction l as [|kv l IH]; [done|]. by apply insert_by_key_ordered.
Qed.

Lemma material_ordered_lookup l : forall i j a b,
  material_ordered l -> (i <= j)%nat -> l !! i = Some a -> l !! j = Some b ->
  (materialId a.1 <= materialId b.1)%nat.
Proof.
  induction l as [|kv l IH]; intros i j a b Hs Hij Ha Hb; [done|].
  destruct Hs as [Hall Hs].
  destruct i as [|i], j as [|j]; simpl in *; try lia.
  - injection Ha as <-. injection Hb as <-. lia.
  - injection Ha as <-.
    by apply (proj1 (Forall_lookup _ _) Hall j b).
  - apply (IH i j a b); [done | lia | done | done].
Qed.

(** X4. The material sort of [pathtrace], on the first [n] slots of the two
    pools: both pools keep their lengths and their slots from [n] on, every
    path stays paired with its intersection, the sorted intersections are in
    nondecreasing order of their material ids, and the pairs of one material
    keep the order they had. *)
Theorem material_sort_stable (n : nat) (keys : list Intersection)
    (values : list PathSegment) :
  (n <= length keys)%nat -> (n <= length values)%nat ->
  let ks := (stable_sort_by_key n keys values).1 in
  let vs := (stable_sort_by_key n keys values).2 in
  length ks = length keys /\ length vs = length values
  /\ drop n ks = drop n keys /\ drop n vs = drop n values
  /\ zip (take n ks) (take n vs) ≡ₚ zip (take n keys) (take n values)
  /\ (forall i j ki kj, (i <= j < n)%nat -> ks !! i = Some ki -> ks !! j = Some kj ->
        (materialId ki <= materialId kj)%nat)
  /\ (forall m, List.filter (by_material m) (zip (take n ks) (take n vs))
                = List.filter (by_material m) (zip (take n keys) (take n values))).
Proof.
  intros Hk Hv ks vs.
  destruct (stable_sort_by_key_length n keys values Hk Hv) as [Hlk Hlv].
  pose proof (stable_sort_by_key_drop n keys values Hk Hv) as Hdv.
  unfold ks, vs, stable_sort_by_key in *. cbn [fst snd] in *.
  set (sorted := foldr insert_by_key [] (zip (take n keys) (take n values))) in *.
  assert (Hperm : sorted ≡ₚ zip (take n keys) (take n values)) by apply sort_by_key_perm.
  assert (Hlen : length sorted = n).
  { rewrite (Permutation_length Hperm), length_zip, !length_take. lia. }
  assert (Htk : take n (sorted.*1 ++ drop n keys) = sorted.*1).
  { apply take_app_length'. by rewrite length_fmap. }
  assert (Htv : take n (sorted.*2 ++ drop n values) = sorted.*2).
  { apply take_app_length'. by rewrite length_fmap. }
  rewrite Htk, Htv, zip_fst_snd.
  repeat split; try done.
  - apply drop_app_length'. by rewrite length_fmap.
  - intros i j ki kj Hij Hi Hj.
    rewrite lookup_app_l in Hi by (rewrite length_fmap; lia).
    rewrite lookup_app_l in Hj by (rewrite length_fmap; lia).
    rewrite list_lookup_fmap in Hi, Hj.
    destruct (sorted !! i) as [a|] eqn:Ha; [|done].
    destruct (sorted !! j) as [b|] eqn:Hb; [|done].
    simpl in Hi, Hj. injection Hi as <-. injection Hj as <-.
    apply (material_ordered_lookup sorted i j a b); [|lia|done|done].
    apply sort_by_key_ordered.
  - intros m. apply sort_by_key_filter.
Qed.

(** ** The lens samples *)

Lemma Qabs'_nonneg a : (0 <= Qabs' a)%Q.
Proof.
  unfold Qabs'. destruct (Qle_bool 0 a) eqn:H.
  - by apply Qle_bool_iff.
  - assert (~ (0 <= a)%Q) by (rewrite <- Qle_bool_iff; congruence). lra.
Qed.

Lemma Qabs'_le_0 a : (Qabs' a <= 0)%Q -> (a == 0)%Q.
Proof.
  unfold Qabs'. destruct (Qle_bool 0 a) eqn:H; intros Ha.
  - apply Qle_bool_iff in H. lra.
  - assert (~ (0 <= a)%Q) by (rewrite <- Qle_bool_iff; congruence). lra.
Qed.

Lemma Qabs'_zero a : (a == 0)%Q -> (Qabs' a == 0)%Q.
Proof. intros H. unfold Qabs'. destruct (Qle_bool 0 a); lra. Qed.

Section Lens.
Context `{E : Externals}.

(** X5. [squareToDiskConcentric] never divides by zero. The sample lies in
    the plane [z = 0]. When both coordinates of [2 xi - 1] are zero it is the
    origin; otherwise the coordinate the other one is divided by, the one of
    the larger absolute value and the second one when the two are as large,
    is not zero, and it is the radius of the sample. *)
Theorem squareToDiskConcentric_divisor (xi : vec2) :
  let sx := (2 * v2x xi - 1)%Q in
  let sy := (2 * v2y xi - 1)%Q in
  let d := squareToDiskConcentric xi in
  vz d = 0%Q
  /\ ((sx == 0)%Q -> (sy == 0)%Q -> d = mkvec3 0 0 0)
  /\ (~ ((sx == 0)%Q /\ (sy == 0)%Q) ->
      ((Qabs' sy < Qabs' sx)%Q /\ ~ (sx == 0)%Q
       /\ d = mkvec3 (cosf (PI_OVER_4 * (sy / sx)) * sx)
                     (sinf (PI_OVER_4 * (sy / sx)) * sx) 0)
      \/ ((Qabs' sx <= Qabs' sy)%Q /\ ~ (sy == 0)%Q
          /\ d = mkvec3 (cosf (PI_OVER_2 - PI_OVER_4 * (sx / sy)) * sy)
                        (sinf (PI_OVER_2 - PI_OVER_4 * (sx / sy)) * sy) 0)).
Proof.
  intros sx sy d. unfold d, squareToDiskConcentric. fold sx sy.
  destruct (Qeqb sx 0 && Qeqb sy 0) eqn:Hz.
  - split; [done|]. split; [done|].
    apply andb_prop in Hz as [Hx%Qeq_bool_iff Hy%Qeq_bool_iff]. intros []. by split.
  - assert (Hnz : ~ ((sx == 0)%Q /\ (sy == 0)%Q)).
    { intros [Hx Hy]. unfold Qeqb in Hz.
      rewrite (proj2 (Qeq_bool_iff sx 0) Hx), (proj2 (Qeq_bool_iff sy 0) Hy) in Hz.
      discriminate. }
    destruct (Qltb (Qabs' sy) (Qabs' sx)) eqn:Hlt.
    + split; [done|]. split; [intros Hx Hy; by destruct Hnz|].
      intros _. left. apply Qltb_lt in Hlt. split; [done|]. split; [|done].
      intros Hx. pose proof (Qabs'_zero sx Hx). pose proof (Qabs'_nonneg sy). lra.
    + split; [done|]. split; [intros Hx Hy; by destruct Hnz|].
      intros _. right. apply Qltb_ge in Hlt. split; [done|]. split; [|done].
      intros Hy. apply Hnz. split; [|done].
      apply Qabs'_le_0. pose proof (Qabs'_zero sy Hy). lra.
Qed.

End Lens.

(** ** Launches, slot by slot *)

(** X8. The grid of [pathtrace]: [(n + b - 1) / b] blocks of [b] threads cover
    the [n] indices with less than one block to spare, and an empty range
    launches no thread. *)
Theorem blocks_for_tight (n b : nat) :
  (0 < b)%nat ->
  (n <= blocks_for n b * b)%nat
  /\ (blocks_for n b * b < n + b)%nat
  /\ (n = 0%nat -> blocks_for n b = 0%nat)
  /\ (0 < n -> 0 < blocks_for n b)%nat.
Proof.
  intros Hb. unfold blocks_for.
  pose proof (Nat.div_mod_eq (n + b - 1) b) as Hdm.
  pose proof (Nat.mod_upper_bound (n + b - 1) b ltac:(lia)) as Hlt.
  split; [nia|]. split; [nia|]. split.
  - intros ->. apply Nat.div_small. lia.
  - intros Hn. apply Nat.div_str_pos. lia.
Qed.

(** A one-dimensional launch of threads that each update their own slot:
    the slots the grid covers are updated once, the others are left. *)
Lemma launch1d_slots {A : Type} `{!Inhabited A} (upd : nat -> A -> A)
    (thread : nat -> list A -> list A) grid block (l : list A) :
  (forall b l, thread b l = <[id b := upd b (l !!! id b)]> l) ->
  length (launch1d grid block thread l) = length l
  /\ forall i,
       launch1d grid block thread l !! i
       = if decide (i < grid * block)%nat then upd i <$> l !! i else l !! i.
Proof.
  intros Hspec. unfold launch1d. split.
  - apply (slot_updates_length _ _ _ Hspec).
  - intros i. destruct (decide (i < grid * block)%nat) as [Hi|Hi].
    + apply (slot_updates_lookup_in id upd thread Hspec (seq 0 (grid * block)) l i).
      * rewrite list_fmap_id. apply NoDup_seq.
      * apply elem_of_seq. lia.
    + apply (slot_updates_lookup_notin id upd thread Hspec).
      intros b Hb%elem_of_seq. unfold id. lia.
Qed.

(** ** Camera-ray generation, slot by slot *)

Section CameraPool.
Context `{E : Externals}.

(** The slot [i] of the pool after the launch of [pathtrace]: the segment of
    the pixel [(i mod W, i / W)] inside the image, the old value outside. *)
Lemma generateRayFromCamera_lookup_index cfg cam iter traceDepth pathSegments i :
  generateRayFromCamera cfg
    (blocks_for (resolution cam).1 blockSize2d.1, blocks_for (resolution cam).2 blockSize2d.2)
    blockSize2d cam iter traceDepth pathSegments !! i
  = if decide (i < (resolution cam).1 * (resolution cam).2)%nat then
      (fun _ => camera_segment cfg cam iter traceDepth
                  (i mod (resolution cam).1) (i / (resolution cam).1))
      <$> pathSegments !! i
    else pathSegments !! i.
Proof.
  set (W := (resolution cam).1). set (H := (resolution cam).2).
  destruct (decide (i < W * H)%nat) as [Hi|Hi].
  - assert (HW : (0 < W)%nat) by (destruct W; lia).
    pose proof (Nat.div_mod_eq i W) as Hdm.
    pose proof (Nat.mod_upper_bound i W ltac:(lia)) as Hmod.
    assert (Hy : (i / W < H)%nat) by (apply Nat.Div0.div_lt_upper_bound; lia).
    assert (Heq : i = (i mod W + i / W * W)%nat) by lia.
    destruct (pathSegments !! i) as [old|] eqn:Hold.
    + pose proof (generateRayFromCamera_lookup cfg cam iter traceDepth pathSegments
                    (i mod W) (i / W) Hmod Hy) as Hgen.
      fold W H in Hgen. rewrite <- Heq in Hgen. apply Hgen.
      by eapply lookup_lt_Some.
    + cbn [fmap option_fmap option_map]. apply lookup_ge_None. subst W H.
      rewrite generateRayFromCamera_length.
      by apply lookup_ge_None.
  - subst W H. rewrite generateRayFromCamera_unfold.
    set (W := (resolution cam).1) in *. set (H := (resolution cam).2) in *.
    apply (slot_updates_lookup_notin _ _ _
             (generateRayFromCamera_thread_slot cfg cam iter traceDepth)).
    intros b Hb Hslot.
    assert (Hin : i ∈ pixel_slot W <$> pixel_threads W H).
    { rewrite <- Hslot. by apply list_elem_of_fmap_2. }
    rewrite pixel_slot_threads in Hin. apply elem_of_seq in Hin. lia.
Qed.

(** X9. The launch of [generateRayFromCamera] overwrites the slots of the
    image and nothing else: what the first [W * H] slots hold afterwards does
    not depend on what the pool held before, which [pathtraceInit] leaves
    uninitialised, and the slots behind them and the length of the pool are
    kept. *)
Theorem generateRayFromCamera_overwrites (cfg : Toggles) (cam : Camera)
    (iter traceDepth : Z) (p1 p2 : list PathSegment) :
  length p1 = length p2 ->
  let W := (resolution cam).1 in
  let H := (resolution cam).2 in
  let gen := generateRayFromCamera cfg
               (blocks_for W blockSize2d.1, blocks_for H blockSize2d.2)
               blockSize2d cam iter traceDepth in
  length (gen p1) = length p1
  /\ (forall i, (i < W * H)%nat -> gen p1 !! i = gen p2 !! i)
  /\ (forall i, (W * H <= i)%nat -> gen p1 !! i = p1 !! i)
  /\ (length p1 = (W * H)%nat -> gen p1 = gen p2).
Proof.
  intros Hlen. cbv zeta.
  pose proof (generateRayFromCamera_lookup_index cfg cam iter traceDepth) as Hlook.
  pose proof (generateRayFromCamera_length cfg cam iter traceDepth) as Hgl.
  set (gen := generateRayFromCamera cfg _ blockSize2d cam iter traceDepth) in *.
  set (W := (resolution cam).1) in *. set (H := (resolution cam).2) in *.
  assert (Hin : forall i, (i < W * H)%nat -> gen p1 !! i = gen p2 !! i).
  { intros i Hi. rewrite !Hlook, !decide_True by done.
    destruct (p1 !! i) as [a|] eqn:H1, (p2 !! i) as [b|] eqn:H2; try done.
    - apply lookup_lt_Some in H1. apply lookup_ge_None in H2. lia.
    - apply lookup_lt_Some in H2. apply lookup_ge_None in H1. lia. }
  split; [apply Hgl|]. split; [done|]. split.
  - intros i Hi. by rewrite Hlook, decide_False by lia.
  - intros Hfull. apply list_eq. intros i.
    destruct (decide (i < W * H)%nat) as [Hi|Hi]; [by apply Hin|].
    rewrite !lookup_ge_None_2; [done | |]; rewrite Hgl; lia.
Qed.

Lemma camera_segment_cached cfg cam iter iter' traceDepth x y :
  CACHE_FIRST_INTERSECTION cfg = true -> (apertureSize cam <= 0)%Q ->
  camera_segment cfg cam iter traceDepth x y = camera_segment cfg cam iter' traceDepth x y.
Proof.
  intros Hc Ha%Qltb_ge. unfold camera_segment. by rewrite Hc, Ha.
Qed.

(** X10. With the first-bounce cache switched on and a pinhole camera (an
    aperture that is not positive) no sample is drawn: every launch of
    [generateRayFromCamera] fills the pool with the same segments, whatever
    the iteration. *)
Theorem cached_camera_rays_repeat (cfg : Toggles) (grid block : nat * nat) (cam : Camera)
    (iter iter' traceDepth : Z) (pathSegments : list PathSegment) :
  CACHE_FIRST_INTERSECTION cfg = true -> (apertureSize cam <= 0)%Q ->
  generateRayFromCamera cfg grid block cam iter traceDepth pathSegments
  = generateRayFromCamera cfg grid block cam iter' traceDepth pathSegments.
Proof.
  intros Hc Ha. unfold generateRayFromCamera, launch2d.
  apply foldl_ext_in. intros s y _. apply foldl_ext_in. intros s' x _.
  unfold generateRayFromCamera_thread.
  by rewrite (camera_segment_cached cfg cam iter iter' traceDepth x y Hc Ha).
Qed.

End CameraPool.

(** ** The intersection kernel, slot by slot *)

Section IntersectionFrame.
Context `{E : Externals}.

Lemma computeIntersections_loop_ray p p' geoms n tris bvhNodes :
  ray p = ray p' ->
  computeIntersections_loop p geoms n tris bvhNodes
  = computeIntersections_loop p' geoms n tris bvhNodes.
Proof.
  intros Hray. unfold computeIntersections_loop.
  apply foldl_ext_in. intros st i _. unfold computeIntersections_step. by rewrite Hray.
Qed.

(** X11. What the launch of [pathtrace] leaves in a slot of the traced range is
    either a miss, with [t = -1] and the normal and the material id the slot
    held, or a hit, with [t] strictly between 0 and [FLT_MAX] and the
    material id of one of the instances: the test [t > 0] of the shading
    kernel tells the two apart. *)
Theorem computeIntersections_range (depth : Z) (num_paths : nat)
    (pathSegments : list PathSegment) (geoms : list Geom) (tris : list Triangle)
    (bvhNodes : list BVHNode) (intersections : list Intersection)
    (path_index : nat) (old : Intersection) :
  intersections !! path_index = Some old ->
  (path_index < num_paths)%nat ->
  exists r,
    computeIntersections (blocks_for num_paths blockSize1d) blockSize1d
      depth num_paths pathSegments geoms (length geoms)
      tris (length tris) bvhNodes (length bvhNodes) intersections !! path_index = Some r
    /\ ((isect_t r = (-1)%Q /\ surfaceNormal r = surfaceNormal old
         /\ materialId r = materialId old)
        \/ ((0 < isect_t r)%Q /\ (isect_t r < FLT_MAX)%Q
            /\ exists k, (k < length geoms)%nat
                 /\ materialId r = materialid (geoms !!! k))).
Proof.
  intros Hold Hn.
  rewrite computeIntersections_lookup, Hold; [|done|].
  2:{ pose proof (blocks_for_covers num_paths blockSize1d). unfold blockSize1d in *. lia. }
  eexists. split; [done|].
  unfold write_intersection, computeIntersections_loop.
  destruct (computeIntersections_loop_invariant (pathSegments !!! path_index)
              geoms tris bvhNodes (length geoms))
    as (Hlen & _ & [(Hhit & _)|(k & Hhit & Hk & [Hpos Hmax] & _)]).
  - rewrite Hhit. simpl. by left.
  - rewrite Hhit. rewrite (proj2 (Z.eqb_neq _ _)) by lia. simpl. right.
    split; [done|]. split; [done|]. exists k. rewrite Nat2Z.id. split; [|done].
    apply lookup_lt_Some in Hk. lia.
Qed.

(** X12. A launch of [computeIntersections] keeps the length of the intersection
    pool and every slot outside the traced range, and what it writes depends
    on the rays of the traced paths only: two path pools whose first
    [num_paths] rays agree give the same intersections. *)
Theorem computeIntersections_frame (grid block : nat) (depth : Z) (num_paths : nat)
    (pathSegments : list PathSegment) (geoms : list Geom) (geoms_size : nat)
    (tris : list Triangle) (tri_size : nat) (bvhNodes : list BVHNode)
    (bvhNodes_size : nat) (intersections : list Intersection) :
  let out := computeIntersections grid block depth num_paths pathSegments geoms
               geoms_size tris tri_size bvhNodes bvhNodes_size intersections in
  length out = length intersections
  /\ (forall i, (num_paths <= i)%nat -> out !! i = intersections !! i)
  /\ (forall pathSegments',
        (forall i, (i < num_paths)%nat ->
           ray (pathSegments !!! i) = ray (pathSegments' !!! i)) ->
        out = computeIntersections grid block depth num_paths pathSegments' geoms
                geoms_size tris tri_size bvhNodes bvhNodes_size intersections).
Proof.
  intros out.
  assert (Hl : forall ps,
            length (computeIntersections grid block depth num_paths ps geoms
                      geoms_size tris tri_size bvhNodes bvhNodes_size intersections)
            = length intersections
            /\ forall i,
                 computeIntersections grid block depth num_paths ps geoms
                   geoms_size tris tri_size bvhNodes bvhNodes_size intersections !! i
                 = if decide (i < grid * block)%nat
                   then computeIntersections_slot num_paths ps geoms geoms_size
                          tris bvhNodes i <$> intersections !! i
                   else intersections !! i).
  { intros ps. apply launch1d_slots. apply computeIntersections_thread_slot. }
  destruct (Hl pathSegments) as [Hlen Hlook]. fold out in Hlen, Hlook.
  split; [done|]. split.
  - intros i Hi. rewrite Hlook. destruct (decide _); [|done].
    unfold computeIntersections_slot. rewrite bool_decide_eq_false_2 by lia.
    by destruct (intersections !! i).
  - intros ps' Hrays. destruct (Hl ps') as [_ Hlook'].
    apply list_eq. intros i. rewrite Hlook, Hlook'.
    destruct (decide _); [|done].
    destruct (intersections !! i) as [old|]; [|done]. simpl. f_equal.
    unfold computeIntersections_slot. case_bool_decide; [|done].
    by rewrite (computeIntersections_loop_ray _ _ _ _ _ _ (Hrays i ltac:(done))).
Qed.

End IntersectionFrame.

(** ** The shading kernel, branch by branch *)

Section ShadingBranches.
Context `{E : Externals}.

(** X13. The two branches of [kernel_sample_f] beside the emissive one, for a
    live path in the shaded range. Without an intersection ([t] not
    positive) the path is terminated with the color black; ray, throughput
    and pixel index stay. With an intersection on a material that does not
    emit, the slot holds what [sample_f] makes of the path, called with the
    point at [t] on the ray, the normal and the material of the intersection
    and the engine seeded by the iteration, the slot index and the depth. *)
Theorem kernel_sample_f_miss_or_bounce (iter depth : Z) (num_paths : nat)
    (isects : list Intersection) (paths : list PathSegment) (mats : list Material)
    (idx : nat) (path : PathSegment) :
  paths !! idx = Some path ->
  (idx < num_paths)%nat ->
  remainingBounces path <> 0 ->
  let isect := isects !!! idx in
  let mat := mats !!! materialId isect in
  let out := kernel_sample_f (blocks_for num_paths blockSize1d) blockSize1d iter depth
               num_paths isects paths mats in
  ((isect_t isect <= 0)%Q ->
   out !! idx = Some {| ray := ray path;
                        path_color := mkvec3 0 0 0;
                        accum_throughput := accum_throughput path;
                        pixelIndex := pixelIndex path;
                        remainingBounces := 0 |})
  /\ ((0 < isect_t isect)%Q -> (emittance mat <= 0)%Q ->
      out !! idx
      = Some (sample_f path (getPointOnRay (ray path) (isect_t isect))
                (surfaceNormal isect) mat
                (makeSeededRandomEngine iter (Z.of_nat idx) depth))).
Proof.
  intros Hl Hn Hlive isect mat out.
  assert (Hout : out !! idx
                 = Some (kernel_sample_f_body iter depth mats idx isect path).1).
  { unfold out. rewrite kernel_sample_f_lookup, Hl; [done..|].
    pose proof (blocks_for_covers num_paths blockSize1d). unfold blockSize1d in *. lia. }
  rewrite Hout. unfold kernel_sample_f_body.
  apply Z.eqb_neq in Hlive. rewrite Hlive. fold mat. split.
  - intros Ht%Qltb_ge. by rewrite Ht.
  - intros Ht%Qltb_lt He%Qltb_ge. by rewrite Ht, He.
Qed.

(** X14. What a launch of [kernel_sample_f] can do to a slot, on any grid: it
    keeps the length of the pool, and a slot afterwards holds the segment it
    held, or that segment terminated ([remainingBounces = 0], with ray,
    throughput and pixel index kept), or a segment [sample_f] returned for it.
    Slots outside the shaded range are kept. *)
Theorem kernel_sample_f_frame (grid block : nat) (iter depth : Z) (num_paths : nat)
    (isects : list Intersection) (paths : list PathSegment) (mats : list Material) :
  let out := kernel_sample_f grid block iter depth num_paths isects paths mats in
  length out = length paths
  /\ (forall i, (num_paths <= i)%nat -> out !! i = paths !! i)
  /\ (forall i p, paths !! i = Some p ->
        exists p', out !! i = Some p'
          /\ (p' = p
              \/ (remainingBounces p' = 0 /\ ray p' = ray p
                  /\ accum_throughput p' = accum_throughput p
                  /\ pixelIndex p' = pixelIndex p)
              \/ exists pt n m rng, p' = sample_f p pt n m rng)).
Proof.
  intros out. split; [apply kernel_sample_f_length|]. split.
  - intros i Hi. by apply kernel_sample_f_lookup_ge.
  - intros i p Hp. destruct (decide (i < grid * block)%nat) as [Hg|Hg].
    + unfold out. rewrite kernel_sample_f_lookup_covered, Hp by done.
      eexists. split; [done|].
      unfold kernel_sample_f_slot. case_bool_decide; [by left|].
      unfold kernel_sample_f_body.
      destruct (remainingBounces p =? 0); [by left|].
      destruct (Qltb 0 (isect_t _)); [|right; left; done].
      destruct (Qltb 0 (emittance _)); [right; left; done|].
      right. right. by eexists _, _, _, _.
    + exists p. split; [|by left].
      unfold out. rewrite kernel_sample_f_lookup_uncovered by lia. done.
Qed.

End ShadingBranches.

(** ** The fake shader *)

Section FakeShading.
Context `{E : Externals}.

Lemma shadeFakeMaterial_thread_slot iter num_paths isects mats idx paths :
  shadeFakeMaterial_thread iter num_paths isects mats idx paths
  = <[id idx := shadeFakeMaterial_slot iter num_paths isects mats idx
                  (paths !!! id idx)]> paths.
Proof.
  unfold shadeFakeMaterial_thread, shadeFakeMaterial_slot, id.
  case_bool_decide; [done | by rewrite list_insert_lookup_total_id].
Qed.

Lemma shadeFakeMaterial_body_fields iter mats idx isect seg :
  let seg' := shadeFakeMaterial_body iter mats idx isect seg in
  ray seg' = ray seg /\ accum_throughput seg' = accum_throughput seg
  /\ pixelIndex seg' = pixelIndex seg /\ remainingBounces seg' = remainingBounces seg.
Proof.
  unfold shadeFakeMaterial_body.
  destruct (Qltb 0 (isect_t isect)); [destruct (Qltb 0 (emittance _))|]; done.
Qed.

(** X15. [shadeFakeMaterial] writes colors only: on any grid, the pool keeps its
    length, every slot keeps its ray, throughput, pixel index and remaining
    bounces, so that the kernel never terminates a path, and the slots
    outside the shaded range keep their color too. *)
Theorem shadeFakeMaterial_writes_color_only (grid block : nat) (iter : Z)
    (num_paths : nat) (shadeableIntersections : list Intersection)
    (pathSegments : list PathSegment) (materials : list Material) :
  let out := shadeFakeMaterial grid block iter num_paths shadeableIntersections
               pathSegments materials in
  length out = length pathSegments
  /\ (forall i, (num_paths <= i)%nat -> out !! i = pathSegments !! i)
  /\ (forall i seg, pathSegments !! i = Some seg ->
        exists seg', out !! i = Some seg'
          /\ ray seg' = ray seg /\ accum_throughput seg' = accum_throughput seg
          /\ pixelIndex seg' = pixelIndex seg
          /\ remainingBounces seg' = remainingBounces seg).
Proof.
  intros out.
  destruct (launch1d_slots
              (shadeFakeMaterial_slot iter num_paths shadeableIntersections materials)
              (shadeFakeMaterial_thread iter num_paths shadeableIntersections materials)
              grid block pathSegments
              (shadeFakeMaterial_thread_slot iter num_paths shadeableIntersections
                 materials)) as [Hlen Hlook].
  fold (shadeFakeMaterial grid block iter num_paths shadeableIntersections
          pathSegments materials) in Hlen, Hlook. fold out in Hlen, Hlook.
  split; [done|]. split.
  - intros i Hi. rewrite Hlook. destruct (decide _); [|done].
    unfold shadeFakeMaterial_slot. rewrite bool_decide_eq_false_2 by lia.
    by destruct (pathSegments !! i).
  - intros i seg Hseg. rewrite Hlook, Hseg. destruct (decide _); [|by exists seg].
    eexists. split; [done|]. unfold shadeFakeMaterial_slot.
    case_bool_decide; [|done]. apply shadeFakeMaterial_body_fields.
Qed.

(** X16. The colors [shadeFakeMaterial] leaves in a slot of the shaded range,
    launched on a grid that covers the range. Without an intersection the
    color is black. On an emissive material the color is multiplied by the
    material color times the emittance. On any other material the color is
    multiplied by the shade of the material and then by the first sample of
    the engine seeded with the iteration, the slot index and the depth 0. In
    both cases with an intersection a black path stays black. *)
Theorem shadeFakeMaterial_colors (iter : Z) (num_paths : nat)
    (shadeableIntersections : list Intersection) (pathSegments : list PathSegment)
    (materials : list Material) (idx : nat) (seg : PathSegment) :
  pathSegments !! idx = Some seg ->
  (idx < num_paths)%nat ->
  let isect := shadeableIntersections !!! idx in
  let mat := materials !!! materialId isect in
  let shade :=
    Vec3.add
      (Vec3.scale (Vec3.scale (color mat)
                     (Vec3.dot (surfaceNormal isect) (mkvec3 0 1 0))) (3 # 10))
      (Vec3.scale (Vec3.lscale (1 - isect_t isect * (2 # 100)) (color mat)) (7 # 10)) in
  let u := (u01 (makeSeededRandomEngine iter (Z.of_nat idx) 0)).1 in
  exists seg',
    shadeFakeMaterial (blocks_for num_paths blockSize1d) blockSize1d iter num_paths
      shadeableIntersections pathSegments materials !! idx = Some seg'
    /\ ((isect_t isect <= 0)%Q -> path_color seg' = mkvec3 0 0 0)
    /\ ((0 < isect_t isect)%Q -> (0 < emittance mat)%Q ->
        path_color seg'
        = Vec3.mul (path_color seg) (Vec3.scale (color mat) (emittance mat)))
    /\ ((0 < isect_t isect)%Q -> (emittance mat <= 0)%Q ->
        path_color seg' = Vec3.scale (Vec3.mul (path_color seg) shade) u)
    /\ ((0 < isect_t isect)%Q -> Vec3.equiv (path_color seg) Vec3.zero ->
        Vec3.equiv (path_color seg') Vec3.zero).
Proof.
  intros Hseg Hn isect mat shade u.
  destruct (launch1d_slots
              (shadeFakeMaterial_slot iter num_paths shadeableIntersections materials)
              (shadeFakeMaterial_thread iter num_paths shadeableIntersections materials)
              (blocks_for num_paths blockSize1d) blockSize1d pathSegments
              (shadeFakeMaterial_thread_slot iter num_paths shadeableIntersections
                 materials)) as [_ Hlook].
  fold (shadeFakeMaterial (blocks_for num_paths blockSize1d) blockSize1d iter num_paths
          shadeableIntersections pathSegments materials) in Hlook.
  rewrite Hlook, Hseg. rewrite decide_True.
  2:{ pose proof (blocks_for_covers num_paths blockSize1d). unfold blockSize1d in *. lia. }
  eexists. split; [done|].
  unfold shadeFakeMaterial_slot. rewrite bool_decide_eq_true_2 by done.
  unfold shadeFakeMaterial_body. fold isect mat.
  split; [|split; [|split]].
  - intros Ht%Qltb_ge. by rewrite Ht.
  - intros Ht%Qltb_lt He%Qltb_lt. by rewrite Ht, He.
  - intros Ht%Qltb_lt He%Qltb_ge. by rewrite Ht, He.
  - intros Ht%Qltb_lt (Hx & Hy & Hz). rewrite Ht.
    destruct (Qltb 0 (emittance mat));
      unfold Vec3.equiv, Vec3.mul, Vec3.scale, Vec3.zero in *; simpl in *;
      rewrite Hx, Hy, Hz; repeat split; ring.
Qed.

End FakeShading.

(** ** The accumulator, pixel by pixel *)

Lemma Qinv_unit (n : Z) :
  1 <= n -> (0 < 1 / inject_Z n)%Q /\ (1 / inject_Z n <= 1)%Q.
Proof.
  intros Hn. destruct n as [|n|n]; try lia.
  unfold Qdiv, Qinv, Qmult, Qlt, Qle, inject_Z. simpl. lia.
Qed.

Lemma mix1_nonnegative (x y a : Q) :
  (0 < a)%Q -> (a <= 1)%Q -> (0 <= x)%Q -> (0 <= y)%Q -> (0 <= Vec3.mix1 x y a)%Q.
Proof. intros. unfold Vec3.mix1. nra. Qed.

(** The pixels behind the image of the pool are not written. *)
Lemma finalGather_outside pixelcount nIters image pool p :
  pixelIndex <$> pool ≡ₚ seq 0 pixelcount ->
  (pixelcount <= p)%nat ->
  finalGather (blocks_for pixelcount blockSize1d) blockSize1d pixelcount nIters
    image pool !! p
  = image !! p.
Proof.
  intros Hperm Hp.
  assert (Hlen : length pool = pixelcount).
  { apply Permutation_length in Hperm. by rewrite length_fmap, length_seq in Hperm. }
  rewrite <- Hlen. rewrite finalGather_unfold.
  2:{ pose proof (blocks_for_covers (length pool) blockSize1d).
      unfold blockSize1d in *. lia. }
  apply (slot_updates_lookup_notin _ _ _
           (finalGather_thread_slot (length pool) nIters pool)).
  intros b Hb%elem_of_seq Heq.
  destruct (lookup_lt_is_Some_2 pool b ltac:(lia)) as [s Hs].
  rewrite (list_lookup_total_correct _ _ _ Hs) in Heq.
  assert (Hin : pixelIndex s ∈ seq 0 pixelcount).
  { rewrite <- Hperm. apply list_elem_of_fmap_2. by eapply list_elem_of_lookup_2. }
  apply elem_of_seq in Hin. lia.
Qed.

Lemma pixel_estimate_perm pixelcount pool1 pool2 p :
  pool1 ≡ₚ pool2 -> pixelIndex <$> pool1 ≡ₚ seq 0 pixelcount ->
  (p < pixelcount)%nat ->
  pixel_estimate pool1 p = pixel_estimate pool2 p.
Proof.
  intros Hperm Hidx Hp.
  assert (Hnd1 : NoDup (pixelIndex <$> pool1)) by (rewrite Hidx; apply NoDup_seq).
  assert (Hnd2 : NoDup (pixelIndex <$> pool2)) by (by rewrite <- Hperm).
  assert (Hin : p ∈ pixelIndex <$> pool1) by (rewrite Hidx; apply elem_of_seq; lia).
  apply list_elem_of_fmap in Hin as (s & -> & Hs).
  assert (Hs2 : s ∈ pool2) by (by rewrite <- Hperm).
  apply list_elem_of_lookup in Hs as [b1 Hb1].
  apply list_elem_of_lookup in Hs2 as [b2 Hb2].
  by rewrite (pixel_estimate_at pool1 b1 s), (pixel_estimate_at pool2 b2 s).
Qed.

(** X17. The accumulation does not depend on the order of the pool: two pools
    with the same paths, one for each pixel, leave the same image, so the
    sorting and the compaction, which permute the pool, do not change what
    is accumulated. *)
Theorem finalGather_order_independent (pixelcount : nat) (nIters : Z)
    (image : list vec3) (pool1 pool2 : list PathSegment) :
  pool1 ≡ₚ pool2 ->
  pixelIndex <$> pool1 ≡ₚ seq 0 pixelcount ->
  finalGather (blocks_for pixelcount blockSize1d) blockSize1d pixelcount nIters image pool1
  = finalGather (blocks_for pixelcount blockSize1d) blockSize1d pixelcount nIters image pool2.
Proof.
  intros Hperm Hidx.
  assert (Hidx2 : pixelIndex <$> pool2 ≡ₚ seq 0 pixelcount) by (by rewrite <- Hperm).
  apply list_eq. intros p. destruct (decide (p < pixelcount)%nat) as [Hp|Hp].
  - rewrite !finalGather_pixel by done.
    by rewrite (pixel_estimate_perm pixelcount pool1 pool2 p).
  - by rewrite !finalGather_outside by (done || lia).
Qed.

(** X18. The accumulation keeps the image free of negative values: from
    iteration 1 on, a pixel whose old value and whose estimate have no
    negative component has no negative component afterwards. *)
Theorem finalGather_nonnegative (pixelcount : nat) (nIters : Z) (image : list vec3)
    (pool : list PathSegment) (p : nat) (old : vec3) :
  1 <= nIters ->
  pixelIndex <$> pool ≡ₚ seq 0 pixelcount ->
  (p < pixelcount)%nat ->
  image !! p = Some old ->
  color_nonnegative old ->
  color_nonnegative (pixel_estimate pool p) ->
  exists new,
    finalGather (blocks_for pixelcount blockSize1d) blockSize1d pixelcount nIters
      image pool !! p = Some new
    /\ color_nonnegative new.
Proof.
  intros Hn Hperm Hp Hold (Hx & Hy & Hz) (Ex & Ey & Ez).
  rewrite finalGather_pixel, Hold by done. eexists. split; [done|].
  destruct (Qinv_unit nIters Hn) as [Ha0 Ha1].
  unfold color_nonnegative, Vec3.mix. simpl.
  repeat split; by apply mix1_nonnegative.
Qed.

(** ** The display kernel, slot by slot *)

Section DisplayFrame.
Context `{E : Externals}.

(** X20. The launch of [sendImageToPBO] overwrites the pixels of the image and
    nothing else: what the first [W * H] slots of the pixel buffer hold
    afterwards depends on the image only, not on what the buffer held nor on
    the iteration, and the slots behind them are kept. *)
Theorem sendImageToPBO_overwrites (cfg : Toggles) (W H : nat) (pbo1 pbo2 : list uchar4)
    (iter iter' : Z) (image : list vec3) :
  length pbo1 = length pbo2 ->
  let send := fun pbo it =>
    (sendImageToPBO cfg (blocks_for W blockSize2d.1, blocks_for H blockSize2d.2)
       blockSize2d pbo (W, H) it image).1 in
  (forall i, (i < W * H)%nat -> send pbo1 iter !! i = send pbo2 iter' !! i)
  /\ (forall i, (W * H <= i)%nat -> send pbo1 iter !! i = pbo1 !! i)
  /\ (length pbo1 = (W * H)%nat -> send pbo1 iter = send pbo2 iter').
Proof.
  intros Hlen send.
  assert (Hlook : forall pbo it i,
            send pbo it !! i
            = if decide (i < W * H)%nat
              then (fun _ => pbo_pixel cfg (image !!! i)) <$> pbo !! i
              else pbo !! i).
  { intros pbo it i. unfold send. rewrite sendImageToPBO_unfold. cbn [fst].
    pose proof (sendImageToPBO_thread_slot cfg (W, H) it image) as Hslot.
    destruct (decide (i < W * H)%nat) as [Hi|Hi].
    - assert (HW : (0 < W)%nat) by (destruct W; lia).
      pose proof (Nat.div_mod_eq i W) as Hdm.
      pose proof (Nat.mod_upper_bound i W ltac:(lia)) as Hmod.
      assert (Hy : (i / W < H)%nat) by (apply Nat.Div0.div_lt_upper_bound; lia).
      assert (Heq : pixel_slot W (i mod W, i / W)%nat = i) by (unfold pixel_slot; simpl; lia).
      pose proof (slot_updates_lookup_in _ _ _ Hslot (pixel_threads W H) pbo
                    (i mod W, i / W)%nat) as Hl.
      cbn [fst] in Hl. rewrite Heq in Hl. rewrite Hl.
      + destruct (pbo !! i) as [old|]; [|done]. simpl. f_equal.
        unfold sendImageToPBO_slot. cbn [fst snd]. rewrite Heq.
        by rewrite !bool_decide_eq_true_2 by done.
      + rewrite pixel_slot_threads. apply NoDup_seq.
      + by apply elem_of_pixel_threads.
    - apply (slot_updates_lookup_notin _ _ _ Hslot).
      intros b Hb Hs.
      assert (Hin : i ∈ pixel_slot W <$> pixel_threads W H).
      { rewrite <- Hs. by apply list_elem_of_fmap_2. }
      rewrite pixel_slot_threads in Hin. apply elem_of_seq in Hin. lia. }
  assert (Hin : forall i, (i < W * H)%nat -> send pbo1 iter !! i = send pbo2 iter' !! i).
  { intros i Hi. rewrite !Hlook, !decide_True by done.
    destruct (pbo1 !! i) as [a|] eqn:H1, (pbo2 !! i) as [b|] eqn:H2; try done.
    - apply lookup_lt_Some in H1. apply lookup_ge_None in H2. lia.
    - apply lookup_lt_Some in H2. apply lookup_ge_None in H1. lia. }
  split; [done|]. split.
  - intros i Hi. by rewrite Hlook, decide_False by lia.
  - intros Hfull. apply list_eq. intros i.
    destruct (decide (i < W * H)%nat) as [Hi|Hi]; [by apply Hin|].
    rewrite !Hlook, !decide_False by done.
    rewrite !lookup_ge_None_2 by lia. done.
Qed.

End DisplayFrame.

(** ** The host loop: passes, sizes and the GUI container *)

Lemma cudaMemcpy_full {T : Type} (dst src : list T) n :
  length dst = n -> length src = n -> cudaMemcpy dst src n = src.
Proof.
  intros Hd Hs. unfold cudaMemcpy.
  rewrite take_ge by lia. rewrite drop_ge by lia. apply app_nil_r.
Qed.

Lemma cudaMemset0_full {T : Type} (zero : T) (dst : list T) n :
  length dst = n -> cudaMemset0 zero dst n = replicate n zero.
Proof.
  intros Hd. unfold cudaMemset0.
  rewrite drop_ge by lia. rewrite app_nil_r. f_equal. lia.
Qed.

Section HostLoop.
Context `{E : Externals}.

Lemma bounce_gui cfg scene iter pixelcount st :
  loop_gui (bounce cfg scene iter pixelcount st).1
  = (fun _ => depth st + 1) <$> loop_gui st.
Proof.
  unfold bounce, bounce_shade.
  destruct (SORT_BY_MATERIAL cfg); [destruct (stable_sort_by_key _ _ _)|];
    (destruct (STREAM_COMPACT cfg); [destruct (stable_partition _ _ _)|]); simpl; done.
Qed.

(** A run of the loop ends at most at the depth [traceDepth], after one pass
    at least, with as many shading launches as passes, and with the depth
    reported to the GUI container, if there is one. *)
Lemma trace_loop_end cfg scene iter pixelcount fuel : forall st st',
  trace_loop fuel cfg scene iter pixelcount st = Some st' ->
  depth st < depth st' <= Z.max (depth st + 1) (state_traceDepth scene)
  /\ loop_gui st' = (fun _ => depth st') <$> loop_gui st
  /\ length (shade_launches st')
     = (Z.to_nat (depth st' - depth st) + length (shade_launches st))%nat.
Proof.
  induction fuel as [|fuel IH]; intros st st' Hrun; [done|].
  simpl in Hrun.
  destruct (bounce_depth cfg scene iter pixelcount st) as (Hd & Hl & Hflag & _).
  pose proof (bounce_gui cfg scene iter pixelcount st) as Hgui.
  destruct (bounce cfg scene iter pixelcount st) as [st1 flag]. simpl in *.
  destruct flag.
  - injection Hrun as <-. rewrite Hd, Hl, Hgui. simpl. split; [lia|]. split; [done|]. lia.
  - symmetry in Hflag. apply orb_false_iff in Hflag as [Hlt _]. apply Z.leb_gt in Hlt.
    destruct (IH st1 st' Hrun) as (Hdep & Hg & Hlen). split; [lia|]. split.
    + rewrite Hg, Hgui. by destruct (loop_gui st).
    + rewrite Hlen, Hl. simpl. lia.
Qed.

Lemma trace_loop_one_pass cfg scene iter pixelcount fuel st :
  (bounce cfg scene iter pixelcount st).2 = true ->
  trace_loop (S fuel) cfg scene iter pixelcount st
  = Some (bounce cfg scene iter pixelcount st).1.
Proof.
  intros Hflag. simpl. destruct (bounce cfg scene iter pixelcount st) as [st1 flag].
  simpl in Hflag. by rewrite Hflag.
Qed.

Lemma trace_loop_runs cfg scene iter dev :
  exists st,
    trace_loop (trace_fuel scene) cfg scene iter (pixelcount_of (state_camera scene))
      (trace_start cfg scene iter dev) = Some st.
Proof.
  apply trace_loop_total.
  - unfold trace_fuel. lia.
  - unfold trace_fuel, trace_start. cbn [depth]. lia.
Qed.

(** X21. The passes of the tracing loop of one call of [pathtrace] on an
    image of one pixel at least (with no pixel the first launch has an empty
    grid, which the CUDA runtime rejects). The loop ends; it makes one pass
    at least, also for a trace depth of 0 or below, and [max(1, traceDepth)]
    passes at most, each with one shading launch. Without compaction it
    makes exactly [max(1, traceDepth)] passes. *)
Theorem trace_loop_passes (cfg : Toggles) (scene : Scene) (iter : Z) (dev : Device) :
  let D := state_traceDepth scene in
  let pixelcount := pixelcount_of (state_camera scene) in
  (0 < pixelcount)%nat ->
  exists st,
    trace_loop (trace_fuel scene) cfg scene iter pixelcount
      (trace_start cfg scene iter dev) = Some st
    /\ 1 <= depth st <= Z.max 1 D
    /\ length (shade_launches st) = Z.to_nat (depth st)
    /\ (STREAM_COMPACT cfg = false -> depth st = Z.max 1 D).
Proof.
  intros D pixelcount Hpix.
  destruct (trace_loop_runs cfg scene iter dev) as [st Hst]. fold pixelcount in Hst.
  exists st. split; [done|].
  destruct (trace_loop_end _ _ _ _ _ _ _ Hst) as (Hdep & _ & Hlen).
  unfold trace_start in Hdep, Hlen. cbn [depth shade_launches length] in Hdep, Hlen.
  fold D in Hdep. split; [lia|]. split; [rewrite Hlen; lia|].
  intros Hcompact.
  destruct (bounce_depth cfg scene iter pixelcount (trace_start cfg scene iter dev))
    as (Hd1 & _ & Hflag & Hnum).
  destruct (decide (D <= 1)) as [HD|HD].
  - assert (Hfuel : trace_fuel scene = 1%nat) by (unfold trace_fuel; fold D; lia).
    rewrite Hfuel, trace_loop_one_pass in Hst.
    + injection Hst as <-. rewrite Hd1. unfold trace_start. cbn [depth]. lia.
    + rewrite Hflag. apply orb_true_iff. left. apply Z.leb_le.
      unfold trace_start. cbn [depth]. fold D. lia.
  - destruct (trace_loop_no_compaction cfg scene iter pixelcount
                (Z.to_nat (D - 1)) (trace_start cfg scene iter dev) Hcompact)
      as (st2 & Hrun & Hdepth & _).
    { unfold trace_start. cbn [num_paths]. done. }
    { unfold trace_start. cbn [depth]. fold D. lia. }
    assert (Hfuel : trace_fuel scene = S (Z.to_nat (D - 1))).
    { unfold trace_fuel. fold D. lia. }
    rewrite Hfuel, Hrun in Hst. injection Hst as <-. fold D in Hdepth. lia.
Qed.





(** X24. The invariant of the tracing loop. In every state the loop of a call of
    [pathtrace] goes through, on pools of the allocated sizes, the three
    pools have one slot for each pixel, the live range lies inside them, so
    that every slot the kernels index below [num_paths] exists, and all slots
    behind the live range hold terminated paths. A state after a pass that
    did not complete the iteration has a depth below [traceDepth] and a live
    path. *)
Theorem tracing_loop_invariant (cfg : Toggles) (scene : Scene) (iter : Z) (dev : Device)
    (st : LoopState) :
  device_sized scene dev ->
  trace_reach cfg scene iter dev st ->
  pools_sized (pixelcount_of (state_camera scene)) st
  /\ tail_terminated st
  /\ (forall idx, (idx < num_paths st)%nat ->
        is_Some (loop_paths st !! idx) /\ is_Some (loop_intersections st !! idx))
  /\ 0 <= depth st
  /\ (depth st = 0 \/ (depth st < state_traceDepth scene /\ (0 < num_paths st)%nat)).
Proof.
  intros Hdev Hreach.
  destruct (trace_reach_invariant cfg scene iter dev st Hdev Hreach) as [Hs Ht].
  split; [done|]. split; [done|]. split.
  - destruct Hs as (Hp & Hi & _ & Hn). intros idx Hidx.
    split; apply lookup_lt_is_Some_2; lia.
  - induction Hreach as [|st0 st' Hreach IH Hb].
    + split; [done|]. by left.
    + destruct (trace_reach_invariant cfg scene iter dev st0 Hdev Hreach) as [Hs0 Ht0].
      destruct (IH Hs0 Ht0) as [Hd0 _].
      destruct (bounce_depth cfg scene iter (pixelcount_of (state_camera scene)) st0)
        as (Hd & _ & Hflag & _).
      rewrite Hb in Hd, Hflag. simpl in Hd, Hflag.
      symmetry in Hflag. apply orb_false_iff in Hflag as [Hlt Hnum].
      apply Z.leb_gt in Hlt. apply Nat.eqb_neq in Hnum.
      split; [lia|]. right. split; lia.
Qed.

End HostLoop.

(** ** Iterations that render black *)



Section BlackIterations.
Context `{E : Externals}.











End BlackIterations.

(** ** The cache of first intersections *)

Section FirstBounceCache.
Context `{E : Externals}.

(** With the cache on and a pinhole camera the pool of camera rays is the
    same in every iteration and from every device memory of the allocated
    sizes. *)
Lemma trace_start_cached cfg scene iter iter' dev dev' :
  CACHE_FIRST_INTERSECTION cfg = true ->
  (apertureSize (state_camera scene) <= 0)%Q ->
  device_sized scene dev -> device_sized scene dev' ->
  loop_paths (trace_start cfg scene iter dev)
  = loop_paths (trace_start cfg scene iter' dev').
Proof.
  intros Hc Ha (Hp & _) (Hp' & _). unfold trace_start. cbn [loop_paths].
  apply list_eq. intros i. rewrite !generateRayFromCamera_lookup_index.
  unfold pixelcount_of in Hp, Hp'.
  destruct (decide _) as [Hi|Hi].
  - rewrite (camera_segment_cached cfg _ iter iter' _ _ _ Hc Ha).
    destruct (lookup_lt_is_Some_2 (dev_paths dev) i ltac:(lia)) as [a ->].
    by destruct (lookup_lt_is_Some_2 (dev_paths dev') i ltac:(lia)) as [b ->].
  - rewrite !lookup_ge_None_2 by lia. done.
Qed.

Lemma bounce_cached cfg scene iter pixelcount st :
  loop_cached (bounce cfg scene iter pixelcount st).1
  = loop_cached (bounce_shade cfg scene iter pixelcount st).
Proof.
  unfold bounce. by destruct (STREAM_COMPACT cfg); [destruct (stable_partition _ _ _)|].
Qed.

Lemma bounce_shade_cached_later cfg scene iter pixelcount st :
  depth st <> 0 ->
  loop_cached (bounce_shade cfg scene iter pixelcount st) = loop_cached st.
Proof.
  intros Hd%Z.eqb_neq. unfold bounce_shade. rewrite Hd, !andb_false_r. simpl.
  by destruct (SORT_BY_MATERIAL cfg); [destruct (stable_sort_by_key _ _ _)|].
Qed.

Lemma trace_loop_cached_later cfg scene iter pixelcount fuel : forall st st',
  1 <= depth st ->
  trace_loop fuel cfg scene iter pixelcount st = Some st' ->
  loop_cached st' = loop_cached st.
Proof.
  induction fuel as [|fuel IH]; intros st st' Hd Hrun; [done|].
  simpl in Hrun.
  pose proof (bounce_cached cfg scene iter pixelcount st) as Hb.
  rewrite bounce_shade_cached_later in Hb by lia.
  destruct (bounce_depth cfg scene iter pixelcount st) as (Hd1 & _).
  destruct (bounce cfg scene iter pixelcount st) as [st1 flag]. simpl in *.
  destruct flag; [by injection Hrun as <-|].
  rewrite <- Hb. apply IH; [lia | done].
Qed.

(** The intersections the first pass computes when it does not read the
    cache. *)
Lemma bounce_shade_first_cached cfg scene dev :
  CACHE_FIRST_INTERSECTION cfg = true ->
  device_sized scene dev ->
  let pixelcount := pixelcount_of (state_camera scene) in
  let st := trace_start cfg scene 1 dev in
  loop_cached (bounce_shade cfg scene 1 pixelcount st)
  = computeIntersections (blocks_for pixelcount blockSize1d) blockSize1d 0 pixelcount
      (loop_paths st) (geoms scene) (length (geoms scene))
      (tris scene) (length (tris scene)) (bvhNodes scene) (length (bvhNodes scene))
      (replicate pixelcount zero_intersection).
Proof.
  intros Hc Hdev pixelcount st.
  destruct (trace_start_invariant cfg scene 1 dev Hdev) as ((Hp & Hi & Hcl & _) & _).
  fold st pixelcount in Hp, Hi, Hcl.
  unfold bounce_shade. cbv zeta. rewrite Hc.
  change (depth st) with 0. change (num_paths st) with pixelcount.
  cbn [Z.eqb Z.ltb Z.compare Pos.compare andb].
  rewrite (cudaMemset0_full zero_intersection (loop_intersections st) pixelcount Hi).
  set (isects := computeIntersections _ _ _ _ _ _ _ _ _ _ _ _).
  assert (Hlen : length isects = pixelcount).
  { unfold isects. by rewrite computeIntersections_length, length_replicate. }
  destruct (SORT_BY_MATERIAL cfg); [destruct (stable_sort_by_key _ _ _)|];
    cbn [loop_cached]; by apply cudaMemcpy_full.
Qed.

(** X27. The first-bounce cache is sound for a pinhole camera. With the cache on
    and an aperture that is not positive, let a call of [pathtrace] for
    iteration 1 have filled the cache. In every later iteration on a memory
    that holds this cache, the copy from the cache that the first pass makes
    is what the launch of [computeIntersections] it replaces would have
    written for the camera rays of that iteration. *)
Theorem first_bounce_cache_sound (cfg : Toggles) (scene : Scene)
    (dev1 : Device) (pbo1 : list uchar4) (frame1 : Z) (pboA : list uchar4) (devA : Device)
    (dev : Device) (iter : Z) :
  CACHE_FIRST_INTERSECTION cfg = true ->
  (apertureSize (state_camera scene) <= 0)%Q ->
  device_sized scene dev1 ->
  pathtrace cfg scene dev1 pbo1 frame1 1 = Some (pboA, devA) ->
  device_sized scene dev ->
  dev_cached_intersections dev = dev_cached_intersections devA ->
  1 < iter ->
  let pixelcount := pixelcount_of (state_camera scene) in
  let st := trace_start cfg scene iter dev in
  cudaMemcpy (loop_intersections st) (loop_cached st) pixelcount
  = computeIntersections (blocks_for (num_paths st) blockSize1d) blockSize1d
      (depth st) (num_paths st) (loop_paths st)
      (geoms scene) (length (geoms scene))
      (tris scene) (length (tris scene))
      (bvhNodes scene) (length (bvhNodes scene))
      (cudaMemset0 zero_intersection (loop_intersections st) pixelcount).
Proof.
  intros Hc Ha Hdev1 Hpt Hdev Hcache Hiter pixelcount st.
  destruct (trace_start_invariant cfg scene iter dev Hdev) as ((Hp & Hi & Hcl & _) & _).
  fold st pixelcount in Hp, Hi, Hcl.
  (* what iteration 1 left in the cache *)
  assert (HA : dev_cached_intersections devA
               = loop_cached (bounce_shade cfg scene 1 pixelcount
                                (trace_start cfg scene 1 dev1))).
  { destruct (pathtrace_total cfg scene dev1 pbo1 frame1 1)
      as (stA & pbo' & dev' & Hrun & Hpt' & _).
    rewrite Hpt in Hpt'. injection Hpt' as _ <-.
    assert (HdA : dev_cached_intersections devA = loop_cached stA).
    { unfold pathtrace in Hpt. cbv zeta in Hpt. rewrite Hrun in Hpt.
      cbn [mbind option_bind] in Hpt.
      destruct (sendImageToPBO _ _ _ _ _ _ _) as [pbo2 image2].
      by injection Hpt as _ <-. }
    rewrite HdA.
    assert (Hfuel : exists n, trace_fuel scene = S n).
    { exists (Z.to_nat (Z.max 1 (state_traceDepth scene)) - 1)%nat. unfold trace_fuel. lia. }
    destruct Hfuel as [n Hfuel]. rewrite Hfuel in Hrun. simpl in Hrun.
    pose proof (bounce_cached cfg scene 1 pixelcount (trace_start cfg scene 1 dev1)) as Hb.
    destruct (bounce_depth cfg scene 1 pixelcount (trace_start cfg scene 1 dev1))
      as (Hd1 & _).
    fold pixelcount in Hrun.
    destruct (bounce cfg scene 1 pixelcount (trace_start cfg scene 1 dev1))
      as [s1 flag]. simpl in *.
    destruct flag; [by injection Hrun as <-|].
    rewrite <- Hb. apply (trace_loop_cached_later cfg scene 1 pixelcount n); [|done].
    rewrite Hd1. unfold trace_start. cbn [depth]. lia. }
  assert (Hd0 : depth st = 0) by done.
  assert (Hn0 : num_paths st = pixelcount) by done.
  assert (Hc0 : loop_cached st = dev_cached_intersections dev) by done.
  rewrite Hd0, Hn0.
  rewrite (cudaMemcpy_full _ _ pixelcount Hi Hcl), Hc0, Hcache, HA.
  rewrite (cudaMemset0_full zero_intersection (loop_intersections st) pixelcount Hi).
  pose proof (bounce_shade_first_cached cfg scene dev1 Hc Hdev1) as Hfirst.
  cbv zeta in Hfirst. fold pixelcount in Hfirst. rewrite Hfirst.
  unfold st.
  by rewrite (trace_start_cached cfg scene 1 iter dev1 dev Hc Ha Hdev1 Hdev).
Qed.

End FirstBounceCache.

(** ** The range of the displayed channels *)

Lemma float_to_int_scaled_ge (c : Q) : (1 <= c)%Q -> 255 <= float_to_int (c * 255).
Proof.
  intros Hc. unfold float_to_int. destruct c as [n d].
  unfold Qle in Hc. simpl in *.
  rewrite Z.quot_div_nonneg by lia.
  apply Z.div_le_lower_bound; lia.
Qed.

Lemma float_to_int_scaled_le (c : Q) : (c <= 0)%Q -> float_to_int (c * 255) <= 0.
Proof.
  intros Hc. unfold float_to_int. destruct c as [n d].
  unfold Qle in Hc. simpl in *.
  assert (Hn : n <= 0) by lia.
  rewrite <- (Z.opp_involutive (n * 255)), Z.quot_opp_l by lia.
  rewrite Z.quot_div_nonneg by lia.
  pose proof (Z.div_pos (- (n * 255)) (Z.pos (d * 1)) ltac:(lia) ltac:(lia)). lia.
Qed.

Lemma float_to_int_scaled_mid (c : Q) :
  (0 <= c)%Q -> (c <= 1)%Q ->
  0 <= float_to_int (c * 255) <= 255
  /\ (inject_Z (float_to_int (c * 255)) <= c * 255)%Q
  /\ (c * 255 < inject_Z (float_to_int (c * 255)) + 1)%Q.
Proof.
  intros H0 H1. unfold float_to_int. destruct c as [n d].
  unfold Qle, Qlt in *. simpl in *.
  rewrite Z.quot_div_nonneg by lia.
  assert (Hd : Z.pos (d * 1) = Z.pos d) by lia. rewrite Hd.
  pose proof (Z.div_mod (n * 255) (Z.pos d) ltac:(lia)) as Hdm.
  pose proof (Z.mod_pos_bound (n * 255) (Z.pos d) ltac:(lia)) as Hmod.
  assert (Hq : 0 <= n * 255 / Z.pos d) by (apply Z.div_pos; lia).
  assert (Hq' : n * 255 / Z.pos d <= 255).
  { apply Z.div_le_upper_bound; lia. }
  repeat split; try lia; nia.
Qed.

Section DisplayRange.
Context `{E : Externals}.

(** X28. The channels of a displayed pixel without the HDR correction: for each
    of the three channels, an image value of 1 or more is shown as 255, a
    value of 0 or less as 0, and a value [c] in between as the integer part of
    [255 * c]. *)
Theorem sendImageToPBO_saturates (cfg : Toggles) (W H : nat) (pbo : list uchar4)
    (iter : Z) (image : list vec3) (x y : nat) :
  ENABLE_HDR_GAMMA_CORRECTION cfg = false ->
  (x < W)%nat -> (y < H)%nat -> (x + y * W < length pbo)%nat ->
  let pix := image !!! (x + y * W)%nat in
  exists px,
    (sendImageToPBO cfg (blocks_for W blockSize2d.1, blocks_for H blockSize2d.2)
       blockSize2d pbo (W, H) iter image).1 !! (x + y * W)%nat = Some px
    /\ Forall (fun cv : Q * Z =>
                 ((1 <= cv.1)%Q -> cv.2 = 255)
                 /\ ((cv.1 <= 0)%Q -> cv.2 = 0)
                 /\ ((0 <= cv.1)%Q -> (cv.1 <= 1)%Q ->
                     (inject_Z cv.2 <= cv.1 * 255)%Q
                     /\ (cv.1 * 255 < inject_Z cv.2 + 1)%Q))
         [(vx pix, pbo_x px); (vy pix, pbo_y px); (vz pix, pbo_z px)].
Proof.
  intros Hhdr Hx Hy Hlen pix.
  rewrite sendImageToPBO_unfold. cbn [fst].
  pose proof (sendImageToPBO_thread_slot cfg (W, H) iter image) as Hslot.
  pose proof (slot_updates_lookup_in _ _ _ Hslot (pixel_threads W H) pbo (x, y)) as Hl.
  change (pixel_slot (W, H).1 (x, y)) with (x + y * W)%nat in Hl.
  cbn [fst snd] in Hl. rewrite Hl.
  2:{ rewrite pixel_slot_threads. apply NoDup_seq. }
  2:{ by apply elem_of_pixel_threads. }
  destruct (lookup_lt_is_Some_2 pbo _ Hlen) as [old Hold]. rewrite Hold.
  unfold sendImageToPBO_slot, pixel_slot. cbn [fst snd fmap option_fmap option_map].
  rewrite !bool_decide_eq_true_2 by done. cbn [andb].
  eexists. split; [done|]. unfold pbo_pixel. rewrite Hhdr.
  cbn [pbo_x pbo_y pbo_z]. fold pix.
  assert (Hch : forall c : Q,
            ((1 <= c)%Q -> glm_clamp (float_to_int (c * 255)) 0 255 = 255)
            /\ ((c <= 0)%Q -> glm_clamp (float_to_int (c * 255)) 0 255 = 0)
            /\ ((0 <= c)%Q -> (c <= 1)%Q ->
                (inject_Z (glm_clamp (float_to_int (c * 255)) 0 255) <= c * 255)%Q
                /\ (c * 255 < inject_Z (glm_clamp (float_to_int (c * 255)) 0 255) + 1)%Q)).
  { intros c. unfold glm_clamp. split; [|split].
    - intros Hc%float_to_int_scaled_ge. lia.
    - intros Hc%float_to_int_scaled_le. lia.
    - intros H0 H1. destruct (float_to_int_scaled_mid c H0 H1) as (Hr & Hlo & Hhi).
      rewrite Z.max_l, Z.min_l by lia. by split. }
  do 3 (constructor; [apply Hch|]). constructor.
Qed.

End DisplayRange.

(** ** The end of the loop *)

Section EarlyExit.
Context `{E : Externals}.

Lemma trace_loop_final cfg scene iter pixelcount fuel : forall st st',
  pools_sized pixelcount st -> tail_terminated st ->
  trace_loop fuel cfg scene iter pixelcount st = Some st' ->
  pools_sized pixelcount st' /\ tail_terminated st'
  /\ (state_traceDepth scene <= depth st' \/ num_paths st' = 0%nat).
Proof.
  induction fuel as [|fuel IH]; intros st st' Hs Ht Hrun; [done|].
  simpl in Hrun.
  destruct (bounce_invariant cfg scene iter pixelcount st Hs Ht) as (Hs' & Ht' & Hd & _).
  destruct (bounce_depth cfg scene iter pixelcount st) as (_ & _ & Hflag & _).
  destruct (bounce cfg scene iter pixelcount st) as [st1 flag]. simpl in *.
  destruct flag; [|by eapply IH].
  injection Hrun as <-. split; [done|]. split; [done|].
  symmetry in Hflag. apply orb_true_iff in Hflag as [Hle%Z.leb_le | Hz%Nat.eqb_eq].
  - left. lia.
  - by right.
Qed.

(** X29. The loop leaves early only when nothing is left to trace: if the
    tracing loop of a call of [pathtrace] ends at a depth below [traceDepth],
    the live range is empty and every path of the pool is terminated. *)
Theorem trace_loop_early_exit (cfg : Toggles) (scene : Scene) (iter : Z) (dev : Device)
    (st : LoopState) :
  device_sized scene dev ->
  trace_loop (trace_fuel scene) cfg scene iter (pixelcount_of (state_camera scene))
    (trace_start cfg scene iter dev) = Some st ->
  depth st < state_traceDepth scene ->
  num_paths st = 0%nat
  /\ Forall (fun p => remainingBounces p = 0) (loop_paths st).
Proof.
  intros Hdev Hrun Hdepth.
  destruct (trace_start_invariant cfg scene iter dev Hdev) as (Hs0 & Ht0 & _).
  destruct (trace_loop_final _ _ _ _ _ _ _ Hs0 Ht0 Hrun) as (_ & Ht & [Hd | Hn]); [lia|].
  split; [done|]. unfold tail_terminated in Ht. by rewrite Hn, drop_0 in Ht.
Qed.

End EarlyExit.

(** * The claims on concrete inputs *)

Import Sample.

(** The seed word of a tuple is a number that can be computed. *)
Example seed_word_sample : seed_word 1 0 2 = 1664898229 /\ seed_word 1 1 2 = 3170110500.
Proof. vm_compute. done. Qed.

(** C4 on the pool of two fresh paths, the first of which hit the lamp. *)
Lemma C4_witness :
  (0 < isect_t ([lamp_hit; wall_hit] !!! 0%nat))%Q
  /\ kernel_sample_f (blocks_for 2 blockSize1d) blockSize1d 1 1 2
       [lamp_hit; wall_hit]
       [path_of 0 (mkvec3 0 0 0) 2; path_of 1 (mkvec3 0 0 0) 2]
       [light; white] !! 0%nat
     = Some {| ray := ray (path_of 0 (mkvec3 0 0 0) 2);
               path_color := mkvec3 (1 * 3 * 1) (1 * 3 * 1) (1 * 3 * 1);
               accum_throughput := mkvec3 1 1 1;
               pixelIndex := 0;
               remainingBounces := 0 |}.
Proof.
  split; [reflexivity|].
  apply (C4_emissive_terminal 1 1 2 [lamp_hit; wall_hit]
           [path_of 0 (mkvec3 0 0 0) 2; path_of 1 (mkvec3 0 0 0) 2]
           [light; white] 0 (path_of 0 (mkvec3 0 0 0) 2)).
  - reflexivity.
  - lia.
  - simpl. lia.
  - reflexivity.
  - reflexivity.
Defined.

(** C8 on the pool after the first pass of the sample scene with the
    compaction on: the path of the left pixel, terminated on the lamp, sits in
    slot 1. It stays there through two launches, and it is in the pool when
    the loop ends. *)
Lemma C8_witness :
  remainingBounces (loop_paths (after_first compacting) !!! 1%nat) = 0
  /\ foldl (fun ps '(grid, block, iter, depth, num_paths, isects, mats) =>
              kernel_sample_f grid block iter depth num_paths isects ps mats)
       (loop_paths (after_first compacting))
       [(1%nat, 128%nat, 1, 2, 2%nat, [lamp_hit; wall_hit], [light; white]);
        (1%nat, 128%nat, 1, 3, 2%nat, [wall_hit; lamp_hit], [light; white])]
       !! 1%nat
     = Some (loop_paths (after_first compacting) !!! 1%nat)
  /\ loop_paths (after_first compacting) !!! 1%nat
     ∈ loop_paths (bounce compacting (scene 3) 1 2 (after_first compacting)).1.
Proof.
  split; [reflexivity|].
  pose proof (C8_terminated_immutable
                [(1%nat, 128%nat, 1, 2, 2%nat, [lamp_hit; wall_hit], [light; white]);
                 (1%nat, 128%nat, 1, 3, 2%nat, [wall_hit; lamp_hit], [light; white])]
                (loop_paths (after_first compacting)) 1
                (loop_paths (after_first compacting) !!! 1%nat)) as H.
  destruct H as [Hslot Hloop]; [reflexivity | reflexivity |].
  split; [exact Hslot|].
  apply (Hloop compacting (scene 3) 1 2%nat 1%nat (after_first compacting)).
  - reflexivity.
  - repeat split; vm_compute; lia.
  - vm_compute. repeat constructor.
  - vm_compute. reflexivity.
Defined.


(** The values of the witness: the estimate (1,0,0) after the first
    iteration, and 0.33333331 in the first component after the third, where
    the mean is 1/3. *)
Example C2_sample :
  accumulate_with Binary32.mix Binary32.inv 1 1 (replicate 1 Vec3.zero)
    (take 1 three_pools) !!! 0%nat = mkvec3 1 0 0
  /\ accumulate_with Binary32.mix Binary32.inv 1 1 (replicate 1 Vec3.zero)
       three_pools !!! 0%nat = mkvec3 (5592405 # 16777216) 0 0
  /\ Binary32.inv 3 = 11184811 # 33554432.
Proof. vm_compute. by repeat split. Qed.


(** C3 on the two geometries of the sample scene and the pool after camera
    generation. *)
Lemma C3_witness :
  (0 < 2)%nat
  /\ (forall k t n, nearest_hit left_hits k t n -> (t < FLT_MAX)%Q ->
        computeIntersections (blocks_for 2 blockSize1d) blockSize1d 0 2 start_pool
          [lamp; wall] 2 [] 0 [] 0 (replicate 2 zero_intersection) !! 0%nat
        = Some {| isect_t := t; surfaceNormal := n;
                  materialId := materialid ([lamp; wall] !!! k) |})
  /\ ((forall j t n, left_hits !! j = Some (t, n) -> ~ (0 < t /\ t < FLT_MAX)%Q) ->
      computeIntersections (blocks_for 2 blockSize1d) blockSize1d 0 2 start_pool
        [lamp; wall] 2 [] 0 [] 0 (replicate 2 zero_intersection) !! 0%nat
      = Some {| isect_t := -1; surfaceNormal := surfaceNormal zero_intersection;
                materialId := materialId zero_intersection |})
  /\ ((exists j t n, left_hits !! j = Some (t, n) /\ (0 < t /\ t < FLT_MAX)%Q) ->
      exists k t n, nearest_hit left_hits k t n /\ (t < FLT_MAX)%Q).
Proof.
  split; [lia|].
  apply (C3_nearest_hit 0 2 start_pool [lamp; wall] [] []
           (replicate 2 zero_intersection) 0 zero_intersection).
  - reflexivity.
  - lia.
Defined.

(** On that input the left pixel's ray hits the lamp at distance 2. *)
Example C3_sample :
  computeIntersections (blocks_for 2 blockSize1d) blockSize1d 0 2 start_pool
    [lamp; wall] 2 [] 0 [] 0 (replicate 2 zero_intersection)
  = [lamp_hit; wall_hit].
Proof. vm_compute. reflexivity. Qed.

(** C3 as the specification states it fails on a lamp at the distance
    [FLT_MAX]: the lamp is the nearest hit of the ray, with a strictly
    positive [t], and the kernel writes [t = -1] instead of the lamp's [t],
    normal and material. *)
Lemma C3_counterexample :
  nearest_hit far_hits 0 FLT_MAX (mkvec3 0 0 1)
  /\ computeIntersections (blocks_for 1 blockSize1d) blockSize1d 0 1
       [path_of 0 (mkvec3 0 0 0) 2] [far_lamp] 1 [] 0 [] 0 [zero_intersection] !! 0%nat
     = Some {| isect_t := -1; surfaceNormal := Vec3.zero; materialId := 0 |}
  /\ computeIntersections (blocks_for 1 blockSize1d) blockSize1d 0 1
       [path_of 0 (mkvec3 0 0 0) 2] [far_lamp] 1 [] 0 [] 0 [zero_intersection] !! 0%nat
     <> Some {| isect_t := FLT_MAX; surfaceNormal := mkvec3 0 0 1;
                materialId := materialid far_lamp |}.
Proof.
  split; [|split].
  - assert (Hhits : far_hits = [(FLT_MAX, mkvec3 0 0 1)]) by (vm_compute; reflexivity).
    rewrite Hhits. split; [reflexivity|]. split; [apply FLT_MAX_pos|]. split.
    + intros [|j] t' n' Hj Hpos; [|done]. injection Hj as <- <-. apply Qle_refl.
    + intros j t' n' Hj. lia.
  - vm_compute. reflexivity.
  - vm_compute. discriminate.
Qed.

(** C5 on the right pixel of the two-pixel camera with a lens of aperture
    1/4. *)
Lemma C5_witness :
  (0 < apertureSize (cam (1 # 4)))%Q
  /\ exists seg,
       generateRayFromCamera compiled
         (blocks_for (resolution (cam (1 # 4))).1 blockSize2d.1,
          blocks_for (resolution (cam (1 # 4))).2 blockSize2d.2)
         blockSize2d (cam (1 # 4)) 1 2 (replicate 2 inhabitant)
         !! (1 + 0 * (resolution (cam (1 # 4))).1)%nat = Some seg
       /\ accum_throughput seg = mkvec3 1 1 1
       /\ path_color seg = mkvec3 0 0 0
       /\ remainingBounces seg = 2
       /\ pixelIndex seg = (1 + 0 * (resolution (cam (1 # 4))).1)%nat
       /\ ((apertureSize (cam (1 # 4)) <= 0)%Q ->
           origin (ray seg) = position (cam (1 # 4)))
       /\ ((0 < apertureSize (cam (1 # 4)))%Q ->
           let ds := draws 4 (makeSeededRandomEngine 1
                        (Z.of_nat (1 + 0 * (resolution (cam (1 # 4))).1)) 2) in
           let k := if CACHE_FIRST_INTERSECTION compiled then 0%nat else 2%nat in
           let xi := if vec2_right_to_left
                     then mkvec2 (ds !!! S k) (ds !!! k)
                     else mkvec2 (ds !!! k) (ds !!! S k) in
           origin (ray seg)
           = cameraToWorld
               (Vec3.lscale (apertureSize (cam (1 # 4))) (squareToDiskConcentric xi))
               (cam (1 # 4))).
Proof.
  split; [reflexivity|].
  apply (C5_camera_rays compiled (cam (1 # 4)) 1 2 (replicate 2 inhabitant) 1 0).
  - simpl. lia.
  - simpl. lia.
  - simpl. lia.
Defined.

(** C5 as the specification states it fails on a camera whose aperture is
    -1: the aperture is not 0, yet the ray origin is the camera position and
    not the lens point of the pixel's draws, in whichever order the two
    draws are taken. *)
Lemma C5_counterexample :
  ~ (apertureSize (cam (-1)) == 0)%Q
  /\ origin <$> (ray <$> generateRayFromCamera compiled
                   (blocks_for 2 blockSize2d.1, blocks_for 1 blockSize2d.2)
                   blockSize2d (cam (-1)) 1 2 (replicate 2 inhabitant) !! 0%nat)
     = Some (position (cam (-1)))
  /\ position (cam (-1))
     <> cameraToWorld
          (Vec3.lscale (apertureSize (cam (-1)))
             (squareToDiskConcentric
                (mkvec2 (draws 4 (makeSeededRandomEngine 1 0 2) !!! 2%nat)
                        (draws 4 (makeSeededRandomEngine 1 0 2) !!! 3%nat))))
          (cam (-1))
  /\ position (cam (-1))
     <> cameraToWorld
          (Vec3.lscale (apertureSize (cam (-1)))
             (squareToDiskConcentric
                (mkvec2 (draws 4 (makeSeededRandomEngine 1 0 2) !!! 3%nat)
                        (draws 4 (makeSeededRandomEngine 1 0 2) !!! 2%nat))))
          (cam (-1)).
Proof.
  split; [|split; [|split]].
  - vm_compute. discriminate.
  - vm_compute. reflexivity.
  - vm_compute. discriminate.
  - vm_compute. discriminate.
Qed.


(** The pixels of that buffer, with the HDR switch on and off. *)
Example C9_sample :
  (sendImageToPBO (mkToggles false false false true)
     (blocks_for 2 blockSize2d.1, blocks_for 1 blockSize2d.2) blockSize2d
     (replicate 2 (mkuchar4 9 9 9 9)) (2, 1)%nat 1
     [mkvec3 (1 # 2) 2 (-1 # 3); mkvec3 0 0 0]).1
  = [mkuchar4 85 170 0 0; mkuchar4 0 0 0 0]
  /\ (sendImageToPBO compiled
        (blocks_for 2 blockSize2d.1, blocks_for 1 blockSize2d.2) blockSize2d
        (replicate 2 (mkuchar4 9 9 9 9)) (2, 1)%nat 1
        [mkvec3 (1 # 2) 2 (-1 # 3); mkvec3 0 0 0]).1
     = [mkuchar4 127 255 0 0; mkuchar4 0 0 0 0].
Proof. vm_compute. done. Qed.

(** C6 on the first pass of the sample scene with the compaction on. *)
Lemma C6_witness :
  STREAM_COMPACT compacting = true
  /\ loop_paths (bounce compacting (scene 3) 1 (pixelcount_of (state_camera (scene 3)))
                   (trace_start compacting (scene 3) 1 (dev 3))).1
     = List.filter (notEquals 0)
         (loop_paths (bounce_shade compacting (scene 3) 1
                        (pixelcount_of (state_camera (scene 3)))
                        (trace_start compacting (scene 3) 1 (dev 3))))
       ++ List.filter (fun x => negb (notEquals 0 x))
            (loop_paths (bounce_shade compacting (scene 3) 1
                           (pixelcount_of (state_camera (scene 3)))
                           (trace_start compacting (scene 3) 1 (dev 3)))).
Proof.
  split; [reflexivity|].
  pose proof (C6_stream_compaction compacting (scene 3) 1 (dev 3)
                (trace_start compacting (scene 3) 1 (dev 3))) as H.
  cbv zeta in H. apply H.
  - reflexivity.
  - repeat split; reflexivity.
  - apply reach_start.
Defined.

(** In that pass the path of the right pixel moves in front of the
    terminated path of the left pixel, which keeps its color. *)
Example C6_sample :
  (fun p => (pixelIndex p, remainingBounces p, path_color p))
    <$> loop_paths (after_first compacting)
  = [(1%nat, 2, mkvec3 0 0 0); (0%nat, 0, mkvec3 3 3 3)]
  /\ num_paths (after_first compacting) = 1%nat.
Proof. vm_compute. done. Qed.

(** C6 as the specification states it, with "live" read as
    [remainingBounces > 0], fails for a trace depth of -1: after the first
    pass the pool holds no path with a positive count, and [num_paths] is 1,
    because the path with the count -2 is kept in the live range. *)
Lemma C6_counterexample :
  remainingBounces
    <$> loop_paths (bounce compacting (scene (-1)) 1 2 (negative_start compacting)).1
  = [-2; 0]
  /\ length (List.filter (fun p => 0 <? remainingBounces p)
               (loop_paths (bounce compacting (scene (-1)) 1 2
                              (negative_start compacting)).1))
     = 0%nat
  /\ num_paths (bounce compacting (scene (-1)) 1 2 (negative_start compacting)).1 = 1%nat.
Proof. vm_compute. done. Qed.

(** C1 on the first pass of the sample scene with the switches of the
    header: the thread of slot 1 shades the path of pixel 1. *)
Lemma C1_witness :
  kernel_sample_f_rng 1 1 2 first_pass_isects [light; white] 1 start_pool
  = Some (makeSeededRandomEngine 1 1 1)
  /\ draws 2 (makeSeededRandomEngine 1 1 1)
     = draws 2 (default_random_engine (seed_word 1 (Z.of_nat 1) 1))
  /\ exists path,
       start_pool !! 1%nat = Some path
       /\ pixelIndex path = 1%nat
       /\ makeSeededRandomEngine 1 1 1
          = makeSeededRandomEngine 1 (Z.of_nat (pixelIndex path)) 1.
Proof.
  split; [vm_compute; reflexivity|].
  pose proof (C1_stream_keyed_by_slot 1 1 2 first_pass_isects [light; white] 1
                start_pool (makeSeededRandomEngine 1 1 1) 2) as H.
  destruct H as (_ & Hdraws & _ & Hpixel); [vm_compute; reflexivity|].
  split; [exact Hdraws|].
  apply (Hpixel compiled (scene 2) (dev 2) (trace_start compiled (scene 2) 1 (dev 2))).
  - reflexivity.
  - reflexivity.
  - intros. reflexivity.
  - repeat split; reflexivity.
  - apply reach_start.
  - reflexivity.
  - reflexivity.
Defined.

(** C1 as the specification states it fails once the pool is permuted. Two
    runs of iteration 1 on the same scene, one with the compaction on and one
    with the switches of the header, both go on to a second pass, at depth 2.
    With the compaction the path of pixel 1 sits in slot 0, without it in
    slot 1; the two runs agree on (iteration, pixelIndex, depth) = (1, 1, 2)
    for this path, and the engines its shading constructs yield different
    first samples. *)
Lemma C1_counterexample :
  (bounce compacting (scene 3) 1 2 (trace_start compacting (scene 3) 1 (dev 3))).2 = false
  /\ (bounce compiled (scene 3) 1 2 (trace_start compiled (scene 3) 1 (dev 3))).2 = false
  /\ pixelIndex <$> loop_paths (after_first compacting) !! 0%nat = Some 1%nat
  /\ pixelIndex <$> loop_paths (after_first compiled) !! 1%nat = Some 1%nat
  /\ depth (after_first compacting) + 1 = 2
  /\ depth (after_first compiled) + 1 = 2
  /\ draws 1 <$> kernel_sample_f_rng 1 2 (num_paths (after_first compacting))
                   (second_isects compacting) (materials (scene 3)) 0
                   (loop_paths (after_first compacting))
     = Some [1021890378 # 2147483647]
  /\ draws 1 <$> kernel_sample_f_rng 1 2 (num_paths (after_first compiled))
                   (second_isects compiled) (materials (scene 3)) 1
                   (loop_paths (after_first compiled))
     = Some [1161711221 # 2147483647].
Proof. vm_compute. done. Qed.



(** * The further properties on concrete inputs *)

(** X1: the operand of iteration 1 at depth 2, and that it differs from the one
    of iteration 3 at depth 5. *)
Lemma seed_fields_disjoint_witness :
  makeSeededRandomEngine 1 7 2
  = default_random_engine
      (Z.lxor (utilhash (2 ^ 31 + 2 * 2 ^ 22 + 1)) (utilhash (to_uint 7)))
  /\ seed_operand 1 2 = 2 ^ 31 + 2 * 2 ^ 22 + 1
  /\ (seed_operand 1 2 = seed_operand 3 5 -> 1 = 3 /\ 2 = 5).
Proof. apply (seed_fields_disjoint 1 2 3 5 7); lia. Defined.

(** X2: iteration [5 + 2^22] at depth 2 and iteration 5 at depth 3. *)
Lemma seed_iteration_alias_witness :
  makeSeededRandomEngine (5 + 2 ^ 22) 7 2 = makeSeededRandomEngine 5 7 (2 + 1).
Proof. apply (seed_iteration_alias 5 2 7); [lia | reflexivity]. Defined.

(** X4: the sort of a pool of three paths by the materials 1, 0, 1 of their
    intersections. *)
Lemma material_sort_stable_witness :
  let keys := [wall_hit; lamp_hit; wall_hit] in
  let values := [path_of 0 (mkvec3 0 0 0) 2; path_of 1 (mkvec3 0 0 0) 2;
                 path_of 2 (mkvec3 0 0 0) 2] in
  pixelIndex <$> (stable_sort_by_key 3 keys values).2 = [1; 0; 2]%nat
  /\ materialId <$> (stable_sort_by_key 3 keys values).1 = [0; 1; 1]%nat
  /\ List.filter (by_material 1)
       (zip (take 3 (stable_sort_by_key 3 keys values).1)
            (take 3 (stable_sort_by_key 3 keys values).2))
     = List.filter (by_material 1) (zip (take 3 keys) (take 3 values)).
Proof.
  intros keys values. split; [reflexivity|]. split; [reflexivity|].
  apply (material_sort_stable 3 keys values); simpl; lia.
Defined.

Import Cases.

(** X8: the grid for the two paths of the sample scene. *)
Lemma blocks_for_tight_witness :
  (2 <= blocks_for 2 128 * 128)%nat /\ (blocks_for 2 128 * 128 < 2 + 128)%nat.
Proof.
  destruct (blocks_for_tight 2 128 ltac:(lia)) as (H1 & H2 & _). by split.
Defined.

(** X9: the camera rays of the sample scene from an uninitialised pool and
    from a pool of other paths. *)
Lemma generateRayFromCamera_overwrites_witness :
  generateRayFromCamera compiled (blocks_for 2 blockSize2d.1, blocks_for 1 blockSize2d.2)
    blockSize2d (cam 0) 1 2 (replicate 2 inhabitant)
  = generateRayFromCamera compiled (blocks_for 2 blockSize2d.1, blocks_for 1 blockSize2d.2)
      blockSize2d (cam 0) 1 2 pool_b.
Proof.
  destruct (generateRayFromCamera_overwrites compiled (cam 0) 1 2
              (replicate 2 inhabitant) pool_b eq_refl) as (_ & _ & _ & H).
  apply H. reflexivity.
Defined.

(** X10: the camera rays of the iterations 1 and 7 with the cache on. *)
Lemma cached_camera_rays_repeat_witness :
  generateRayFromCamera caching (1, 1)%nat blockSize2d (cam 0) 1 2 (replicate 2 inhabitant)
  = generateRayFromCamera caching (1, 1)%nat blockSize2d (cam 0) 7 2 (replicate 2 inhabitant).
Proof.
  apply (cached_camera_rays_repeat caching (1, 1)%nat blockSize2d (cam 0) 1 7 2
           (replicate 2 inhabitant)).
  - reflexivity.
  - by vm_compute.
Defined.

(** X11: the intersection of the left pixel's ray with the sample scene. *)
Lemma computeIntersections_range_witness :
  exists r,
    computeIntersections (blocks_for 2 blockSize1d) blockSize1d 0 2 start_pool
      [lamp; wall] (length [lamp; wall]) [] (length (@nil Triangle)) []
      (length (@nil BVHNode)) (replicate 2 zero_intersection) !! 0%nat = Some r
    /\ ((isect_t r = (-1)%Q /\ surfaceNormal r = surfaceNormal zero_intersection
         /\ materialId r = materialId zero_intersection)
        \/ ((0 < isect_t r)%Q /\ (isect_t r < FLT_MAX)%Q
            /\ exists k, (k < length [lamp; wall])%nat
                 /\ materialId r = materialid ([lamp; wall] !!! k))).
Proof.
  apply (computeIntersections_range 0 2 start_pool [lamp; wall] [] []
           (replicate 2 zero_intersection) 0 zero_intersection).
  - reflexivity.
  - lia.
Defined.

(** X13: the path of the right pixel, which hit the wall, is handed to
    [sample_f]. *)
Lemma kernel_sample_f_miss_or_bounce_witness :
  kernel_sample_f (blocks_for 2 blockSize1d) blockSize1d 1 1 2
    [lamp_hit; wall_hit]
    [path_of 0 (mkvec3 0 0 0) 2; path_of 1 (mkvec3 0 0 0) 2]
    [light; white] !! 1%nat
  = Some (sample_f (path_of 1 (mkvec3 0 0 0) 2)
            (getPointOnRay (ray (path_of 1 (mkvec3 0 0 0) 2)) 3)
            (mkvec3 0 0 1) white (makeSeededRandomEngine 1 (Z.of_nat 1) 1)).
Proof.
  destruct (kernel_sample_f_miss_or_bounce 1 1 2 [lamp_hit; wall_hit]
              [path_of 0 (mkvec3 0 0 0) 2; path_of 1 (mkvec3 0 0 0) 2]
              [light; white] 1 (path_of 1 (mkvec3 0 0 0) 2)) as [_ H].
  - reflexivity.
  - lia.
  - simpl. lia.
  - apply H; by vm_compute.
Defined.

(** X16: the fake shader on a white path that hit the lamp. *)
Lemma shadeFakeMaterial_colors_witness :
  exists seg',
    shadeFakeMaterial (blocks_for 2 blockSize1d) blockSize1d 1 2
      [lamp_hit; wall_hit]
      [path_of 0 (mkvec3 1 1 1) 2; path_of 1 (mkvec3 1 1 1) 2]
      [light; white] !! 0%nat = Some seg'
    /\ path_color seg' = Vec3.mul (mkvec3 1 1 1) (Vec3.scale (color light) (emittance light)).
Proof.
  destruct (shadeFakeMaterial_colors 1 2 [lamp_hit; wall_hit]
              [path_of 0 (mkvec3 1 1 1) 2; path_of 1 (mkvec3 1 1 1) 2]
              [light; white] 0 (path_of 0 (mkvec3 1 1 1) 2))
    as (seg' & Hseg & _ & Hlight & _).
  - reflexivity.
  - lia.
  - exists seg'. split; [exact Hseg|]. apply Hlight; by vm_compute.
Defined.

(** X17: the accumulation of two pools with the same paths in two orders. *)
Lemma finalGather_order_independent_witness :
  finalGather (blocks_for 2 blockSize1d) blockSize1d 2 1 (replicate 2 Vec3.zero) pool_a
  = finalGather (blocks_for 2 blockSize1d) blockSize1d 2 1 (replicate 2 Vec3.zero) pool_b.
Proof.
  apply (finalGather_order_independent 2 1 (replicate 2 Vec3.zero) pool_a pool_b).
  - apply Permutation_swap.
  - reflexivity.
Defined.

(** X18: the second accumulation of a pool into an image, neither with a
    negative value. *)
Lemma finalGather_nonnegative_witness :
  exists new,
    finalGather (blocks_for 2 blockSize1d) blockSize1d 2 2
      [mkvec3 (1 # 2) 0 1; mkvec3 0 0 0] pool_a !! 0%nat = Some new
    /\ color_nonnegative new.
Proof.
  apply (finalGather_nonnegative 2 2 [mkvec3 (1 # 2) 0 1; mkvec3 0 0 0] pool_a 0
           (mkvec3 (1 # 2) 0 1)).
  - lia.
  - reflexivity.
  - lia.
  - reflexivity.
  - repeat split; by vm_compute.
  - repeat split; by vm_compute.
Defined.

(** X20: the display of an image of two pixels into two different buffers. *)
Lemma sendImageToPBO_overwrites_witness :
  (sendImageToPBO compiled (blocks_for 2 blockSize2d.1, blocks_for 1 blockSize2d.2)
     blockSize2d (replicate 2 (mkuchar4 9 9 9 9)) (2, 1)%nat 1
     [mkvec3 (1 # 2) 2 (-1 # 3); mkvec3 0 0 0]).1
  = (sendImageToPBO compiled (blocks_for 2 blockSize2d.1, blocks_for 1 blockSize2d.2)
       blockSize2d (replicate 2 (mkuchar4 0 0 0 0)) (2, 1)%nat 5
       [mkvec3 (1 # 2) 2 (-1 # 3); mkvec3 0 0 0]).1.
Proof.
  destruct (sendImageToPBO_overwrites compiled 2 1 (replicate 2 (mkuchar4 9 9 9 9))
              (replicate 2 (mkuchar4 0 0 0 0)) 1 5
              [mkvec3 (1 # 2) 2 (-1 # 3); mkvec3 0 0 0] eq_refl) as (_ & _ & H).
  apply H. reflexivity.
Defined.

(** X21: the sample scene of two pixels with a trace depth of 2 and the
    switches of the header: two passes. *)
Lemma trace_loop_passes_witness :
  (0 < pixelcount_of (state_camera (scene 2)))%nat
  /\ exists st,
       trace_loop (trace_fuel (scene 2)) compiled (scene 2) 1
         (pixelcount_of (state_camera (scene 2)))
         (trace_start compiled (scene 2) 1 (dev 2)) = Some st
       /\ 1 <= depth st <= Z.max 1 (state_traceDepth (scene 2))
       /\ length (shade_launches st) = Z.to_nat (depth st)
       /\ (STREAM_COMPACT compiled = false ->
           depth st = Z.max 1 (state_traceDepth (scene 2))).
Proof.
  split; [vm_compute; lia|].
  apply (trace_loop_passes compiled (scene 2) 1 (dev 2)). vm_compute. lia.
Defined.


(** X24: the state after the first pass of the sample scene with a trace depth
    of 3. *)
Lemma tracing_loop_invariant_witness :
  pools_sized 2 (after_first compiled)
  /\ tail_terminated (after_first compiled)
  /\ depth (after_first compiled) < 3.
Proof.
  destruct (tracing_loop_invariant compiled (scene 3) 1 (dev 3) (after_first compiled))
    as (Hs & Ht & _ & _ & Hd).
  - repeat split; reflexivity.
  - eapply reach_bounce; [apply reach_start|]. vm_compute. reflexivity.
  - split; [exact Hs|]. split; [exact Ht|].
    destruct Hd as [Hd | [Hd _]]; [by vm_compute in Hd | exact Hd].
Defined.



(** X27: iteration 2 of the sample scene on the memory iteration 1 left, with
    the cache on. *)
Lemma first_bounce_cache_sound_witness :
  let st := trace_start caching (scene 2) 2 first_call.2 in
  cudaMemcpy (loop_intersections st) (loop_cached st) 2
  = computeIntersections (blocks_for (num_paths st) blockSize1d) blockSize1d
      (depth st) (num_paths st) (loop_paths st)
      [lamp; wall] 2 [] 0 [] 0
      (cudaMemset0 zero_intersection (loop_intersections st) 2).
Proof.
  apply (first_bounce_cache_sound caching (scene 2) (dev 2) (replicate 2 inhabitant) 0
           first_call.1 first_call.2 first_call.2 2).
  - reflexivity.
  - by vm_compute.
  - repeat split; reflexivity.
  - vm_compute. reflexivity.
  - repeat split; vm_compute; reflexivity.
  - reflexivity.
  - lia.
Defined.

(** X28: the display of the color (2, 1/2, -1/3): the first channel is shown as
    255. *)
Lemma sendImageToPBO_saturates_witness :
  exists px,
    (sendImageToPBO compiled (blocks_for 2 blockSize2d.1, blocks_for 1 blockSize2d.2)
       blockSize2d (replicate 2 (mkuchar4 9 9 9 9)) (2, 1)%nat 1
       [mkvec3 2 (1 # 2) (-1 # 3); mkvec3 0 0 0]).1 !! (0 + 0 * 2)%nat = Some px
    /\ pbo_x px = 255.
Proof.
  destruct (sendImageToPBO_saturates compiled 2 1 (replicate 2 (mkuchar4 9 9 9 9)) 1
              [mkvec3 2 (1 # 2) (-1 # 3); mkvec3 0 0 0] 0 0)
    as (px & Hpx & Hall).
  - reflexivity.
  - lia.
  - lia.
  - simpl. lia.
  - exists px. split; [exact Hpx|].
    apply Forall_cons in Hall as [(Hhi & _) _]. apply Hhi. by vm_compute.
Defined.

(** X29: the sample scene with the compaction on and a trace depth of 3: both
    paths are terminated after two passes. *)
Lemma trace_loop_early_exit_witness :
  exists st,
    trace_loop (trace_fuel (scene 3)) compacting (scene 3) 1 2
      (trace_start compacting (scene 3) 1 (dev 3)) = Some st
    /\ depth st = 2
    /\ num_paths st = 0%nat
    /\ Forall (fun p => remainingBounces p = 0) (loop_paths st).
Proof.
  eexists. split; [vm_compute; reflexivity|]. split; [reflexivity|].
  eapply (trace_loop_early_exit compacting (scene 3) 1 (dev 3)).
  - repeat split; reflexivity.
  - vm_compute. reflexivity.
  - vm_compute. reflexivity.
Defined.
